(** * DSA-Visualizer: balanced-tree insertion engines, trace recorder, playback

    A shallow embedding of

    - [src/components/Tree/AVL Tree.js]       (AVL insertion, trace recorder)
    - [src/components/Tree/Red-black Tree.js] (Red-Black insertion, fix-up,
                                               rotations, cloneTree, recorder)
    - the [AlgorithmVisualizer] stepper shared by the visualizer components
      (AVL Tree.js, Red-black Tree.js, Sorting/BubbleSortVisualizer.js)
    - [src/components/Sorting/BubbleSortVisualizer.js] ([bubbleSort] with its
      recorded snapshots)

    Keys are the results of [parseInt] that passed the [isNaN] filter, that
    is integer-valued numbers; they are modelled as [Z].  The layout
    coordinates [x], [y] written by [assignPositions] (floating-point
    numbers: the gap is halved at every level) only serve the SVG renderer;
    the insertion engines never read them, and they are left out of the node
    records and of the snapshots.  What [JSON.parse] returns is made of
    fresh objects that nothing but the trace refers to, so a snapshot is
    modelled as an immutable [json] value.  For the AVL recorder this is
    not taken for granted: [AVLHeap] runs the same engine and recorder on
    one store of mutable objects, in which [avlInsert] updates the nodes in
    place and [JSON.parse] allocates the objects of a snapshot, and the
    two recorders are shown to agree. *)

From Stdlib Require Import ZArith Lia.
From stdpp Require Import base option list sets strings sorting.

Local Open Scope Z_scope.

(** ** JSON values: what [JSON.stringify] produces and [JSON.parse] reads *)

Module JS.

#[warnings="-register-all"]
Inductive json : Type :=
| JNull
| JNum (n : Z)
| JStr (s : string)
| JObj (fields : list (string * json)).

(** [o[k]] on a parsed object; [None] is JavaScript's [undefined]. *)
Fixpoint field (k : string) (fields : list (string * json)) : option json :=
  match fields with
  | [] => None
  | (k', v) :: rest => if String.eqb k k' then Some v else field k rest
  end.

(** Does some object inside [j] own a property called [k]? *)
Fixpoint mentions (k : string) (j : json) : bool :=
  match j with
  | JObj fields =>
      (fix go (fs : list (string * json)) : bool :=
         match fs with
         | [] => false
         | (k', v) :: rest => String.eqb k k' || mentions k v || go rest
         end) fields
  | _ => false
  end.

(** A snapshot read the way the diagram components read it ([node.left],
    [node.value], [node.right]): the keys met by an in-order walk. *)
Fixpoint inorder (j : json) : list Z :=
  match j with
  | JObj fields =>
      let sub := fix sub (k : string) (fs : list (string * json)) : list Z :=
        match fs with
        | [] => []
        | (k', v) :: rest => if String.eqb k k' then inorder v else sub k rest
        end in
      sub "left"%string fields
        ++ match field "value" fields with Some (JNum n) => [n] | _ => [] end
        ++ sub "right"%string fields
  | _ => []
  end.

End JS.

(** ** AVL Tree.js *)

Module AVLTree.
Import JS.

(** [class AVLNode]: value, left, right, height; [Null] is [null].  The
    recursive insertion owns the tree it rebuilds and never compares node
    identities, so nodes are modelled as values. *)
Inductive AVLNode : Type :=
| Null
| Node (value : Z) (left right : AVLNode) (height : Z).

Definition getHeight (node : AVLNode) : Z :=
  match node with Null => 0 | Node _ _ _ h => h end.

Definition getBalance (node : AVLNode) : Z :=
  match node with
  | Null => 0
  | Node _ l r _ => getHeight l - getHeight r
  end.

(** [node.value]; reading a property of [null] throws a TypeError, which
    is [None] throughout this module. *)
Definition valueOf (node : AVLNode) : option Z :=
  match node with Null => None | Node v _ _ _ => Some v end.

Definition rightRotate (y : AVLNode) : option AVLNode :=
  match y with
  | Null => None
  | Node yv x yr _ =>
      match x with
      | Null => None                      (* let T2 = x.right *)
      | Node xv xl T2 _ =>
          let y' := Node yv T2 yr (1 + Z.max (getHeight T2) (getHeight yr)) in
          Some (Node xv xl y' (1 + Z.max (getHeight xl) (getHeight y')))
      end
  end.

Definition leftRotate (x : AVLNode) : option AVLNode :=
  match x with
  | Null => None
  | Node xv xl y _ =>
      match y with
      | Null => None                      (* let T2 = y.left *)
      | Node yv T2 yr _ =>
          let x' := Node xv xl T2 (1 + Z.max (getHeight xl) (getHeight T2)) in
          Some (Node yv x' yr (1 + Z.max (getHeight x') (getHeight yr)))
      end
  end.

(** [guard && value < child.value]: the child is only read when the guard
    holds. *)
Definition andLess (guard : bool) (a : option Z) (b : option Z) : option bool :=
  if guard then x ← a; y ← b; Some (x <? y) else Some false.

(** Lines 74-92 of [avlInsert]: what happens to [root] once the recursive
    call has stored the new child ([l] and [r] are [root.left] and
    [root.right] after that assignment). *)
Definition rebalance (value rv : Z) (l r : AVLNode) : option AVLNode :=
  let h := 1 + Z.max (getHeight l) (getHeight r) in
  let root := Node rv l r h in
  let balance := getBalance root in
  LL ← andLess (1 <? balance) (Some value) (valueOf l);
  if LL : bool then rightRotate root else
  RR ← andLess (balance <? -1) (valueOf r) (Some value);
  if RR : bool then leftRotate root else
  LR ← andLess (1 <? balance) (valueOf l) (Some value);
  if LR : bool then l' ← leftRotate l; rightRotate (Node rv l' r h) else
  RL ← andLess (balance <? -1) (Some value) (valueOf r);
  if RL : bool then r' ← rightRotate r; leftRotate (Node rv l r' h) else
  Some root.

Fixpoint avlInsert (root : AVLNode) (value : Z) : option AVLNode :=
  match root with
  | Null => Some (Node value Null Null 1)
  | Node rv l r _ =>
      if value <? rv
      then l' ← avlInsert l value; rebalance value rv l' r
      else r' ← avlInsert r value; rebalance value rv l r'
  end.

(** [JSON.parse(JSON.stringify(root))]. *)
Fixpoint toJSON (node : AVLNode) : json :=
  match node with
  | Null => JNull
  | Node v l r h =>
      JObj [("value"%string, JNum v); ("left"%string, toJSON l);
            ("right"%string, toJSON r); ("height"%string, JNum h)]
  end.

(** One entry of [steps]: [{ tree: ..., current: val }]. *)
Record Step : Type := { tree : json; current : Z }.

(** The body of [values.forEach] threaded through the remaining values:
    [root] and [steps] are the two variables the callback updates. *)
Fixpoint forEach (values : list Z) (root : AVLNode) (steps : list Step)
  : option (AVLNode * list Step) :=
  match values with
  | [] => Some (root, steps)
  | val :: rest =>
      root ← avlInsert root val;
      forEach rest root (steps ++ [ {| tree := toJSON root; current := val |} ])
  end.

Definition buildAVLTreeSteps (values : list Z) : option (list Step) :=
  snd <$> forEach values Null [].

(** The live tree after the whole list has gone through [avlInsert]. *)
Definition insertAll (values : list Z) : option AVLNode :=
  fst <$> forEach values Null [].

End AVLTree.

(** ** Red-black Tree.js *)

Module RedBlackTree.
Import JS.

Inductive Color : Type := RED | BLACK.

Definition colorName (c : Color) : string :=
  match c with RED => "red" | BLACK => "black" end.

Global Instance Color_eq_dec : EqDecision Color.
Proof. solve_decision. Defined.

(** Nodes are mutable objects linked in both directions and compared by
    identity, so they live in a heap: the list of all objects created by
    [new RedBlackNode], in creation order.  A reference is [null] ([None])
    or the index of an object. *)
Definition ref : Type := option nat.

Record RedBlackNode : Type := mkNode
  { value : Z; left : ref; right : ref; parent : ref; color : Color }.

Definition setLeft (p : ref) (n : RedBlackNode) : RedBlackNode :=
  mkNode (value n) p (right n) (parent n) (color n).
Definition setRight (p : ref) (n : RedBlackNode) : RedBlackNode :=
  mkNode (value n) (left n) p (parent n) (color n).
Definition setParent (p : ref) (n : RedBlackNode) : RedBlackNode :=
  mkNode (value n) (left n) (right n) p (color n).
Definition setColor (c : Color) (n : RedBlackNode) : RedBlackNode :=
  mkNode (value n) (left n) (right n) (parent n) c.

(** How a call ends: normally, with a TypeError (a property of [null] was
    read or written), or not at all.  JavaScript's [while] has no bound; the
    model tests a loop condition at most [fuel] times and answers [Diverge]
    when that is not enough. *)
Inductive outcome (A : Type) : Type :=
| Done (a : A)
| TypeError
| Diverge.
Arguments Done {A} a.
Arguments TypeError {A}.
Arguments Diverge {A}.

Global Instance outcome_ret : MRet outcome := λ A a, Done a.
Global Instance outcome_bind : MBind outcome := λ A B f m,
  match m with Done a => f a | TypeError => TypeError | Diverge => Diverge end.
Global Instance outcome_fmap : FMap outcome := λ A B f m,
  match m with Done a => Done (f a) | TypeError => TypeError | Diverge => Diverge end.

(** Statements run against the heap. *)
Definition M (A : Type) : Type := list RedBlackNode → outcome (A * list RedBlackNode).

Global Instance M_ret : MRet M := λ A a h, Done (a, h).
Global Instance M_bind : MBind M := λ A B f m h,
  match m h with
  | Done (a, h') => f a h'
  | TypeError => TypeError
  | Diverge => Diverge
  end.

(** [p.f] *)
Definition read {A : Type} (f : RedBlackNode → A) (p : ref) : M A := λ h,
  match p with
  | None => TypeError
  | Some l => match h !! l with Some n => Done (f n, h) | None => TypeError end
  end.

(** [p.f = v], with [upd] the field update *)
Definition write (upd : RedBlackNode → RedBlackNode) (p : ref) : M unit := λ h,
  match p with
  | None => TypeError
  | Some l =>
      match h !! l with
      | Some n => Done (tt, <[l := upd n]> h)
      | None => TypeError
      end
  end.

(** [new RedBlackNode(value)] *)
Definition new (v : Z) : M ref := λ h,
  Done (Some (length h), h ++ [mkNode v None None None RED]).

(** [a === b] on the two colour constants *)
Definition sameColor (a b : Color) : bool :=
  match a, b with
  | RED, RED | BLACK, BLACK => true
  | _, _ => false
  end.

(** [p && p.color === RED] *)
Definition isRed (p : ref) : M bool :=
  match p with
  | None => mret false
  | Some _ => c ← read color p; mret (sameColor c RED)
  end.

Definition leftRotate (root x : ref) : M ref :=
  y ← read right x;
  yl ← read left y;
  write (setRight yl) x;;
  yl ← read left y;
  (match yl with None => mret tt | Some _ => write (setParent x) yl end);;
  xp ← read parent x;
  write (setParent xp) y;;
  xp ← read parent x;
  root ← (match xp with
          | None => mret y
          | Some _ =>
              xpl ← read left xp;
              if decide (x = xpl)
              then write (setLeft y) xp;; mret root
              else write (setRight y) xp;; mret root
          end);
  write (setLeft x) y;;
  write (setParent y) x;;
  mret root.

Definition rightRotate (root y : ref) : M ref :=
  x ← read left y;
  xr ← read right x;
  write (setLeft xr) y;;
  xr ← read right x;
  (match xr with None => mret tt | Some _ => write (setParent y) xr end);;
  yp ← read parent y;
  write (setParent yp) x;;
  yp ← read parent y;
  root ← (match yp with
          | None => mret x
          | Some _ =>
              ypl ← read left yp;
              if decide (y = ypl)
              then write (setLeft x) yp;; mret root
              else write (setRight x) yp;; mret root
          end);
  write (setRight y) x;;
  write (setParent x) y;;
  mret root.

(** [z.parent.parent] *)
Definition grandparent (z : ref) : M ref :=
  zp ← read parent z; read parent zp.

(** The condition of the loop of [fixInsert]:
    [z.parent && z.parent.color === RED]. *)
Definition fixCond (z : ref) : M bool :=
  zp ← read parent z; isRed zp.

(** One run of the body of that loop (lines 74-106); the result is the pair
    of the variables [root] and [z] at the end of the body. *)
Definition fixBody (root z : ref) : M (ref * ref) :=
  zp ← read parent z;
  zpp ← grandparent z;
  zppl ← read left zpp;
  if decide (zp = zppl) then
    zpp ← grandparent z;
    y ← read right zpp;
    yRed ← isRed y;
    if yRed : bool then
      zp ← read parent z; write (setColor BLACK) zp;;
      write (setColor BLACK) y;;
      zpp ← grandparent z; write (setColor RED) zpp;;
      zpp ← grandparent z;
      mret (root, zpp)
    else
      zp ← read parent z;
      zpr ← read right zp;
      '(root, z) ← (if decide (z = zpr)
                    then root ← leftRotate root zp; mret (root, zp)
                    else mret (root, z));
      zp ← read parent z; write (setColor BLACK) zp;;
      zpp ← grandparent z; write (setColor RED) zpp;;
      zpp ← grandparent z;
      root ← rightRotate root zpp;
      mret (root, z)
  else
    zpp ← grandparent z;
    y ← read left zpp;
    yRed ← isRed y;
    if yRed : bool then
      zp ← read parent z; write (setColor BLACK) zp;;
      write (setColor BLACK) y;;
      zpp ← grandparent z; write (setColor RED) zpp;;
      zpp ← grandparent z;
      mret (root, zpp)
    else
      zp ← read parent z;
      zpl ← read left zp;
      '(root, z) ← (if decide (z = zpl)
                    then root ← rightRotate root zp; mret (root, zp)
                    else mret (root, z));
      zp ← read parent z; write (setColor BLACK) zp;;
      zpp ← grandparent z; write (setColor RED) zpp;;
      zpp ← grandparent z;
      root ← leftRotate root zpp;
      mret (root, z).

(** The [while] loop of [fixInsert]; [fuel] bounds the number of times the
    condition is tested. *)
Fixpoint fixLoop (fuel : nat) (root z : ref) : M ref :=
  match fuel with
  | O => λ _, Diverge
  | S fuel =>
      continue ← fixCond z;
      if continue : bool
      then '(root, z) ← fixBody root z; fixLoop fuel root z
      else mret root
  end.

Definition fixInsert (fuel : nat) (root z : ref) : M ref :=
  root ← fixLoop fuel root z;
  write (setColor BLACK) root;;
  mret root.

(** The [while (x !== null)] walk of [redBlackInsert]; the result is [y]. *)
Fixpoint descend (fuel : nat) (z y x : ref) : M ref :=
  match x with
  | None => mret y
  | Some _ =>
      match fuel with
      | O => λ _, Diverge
      | S fuel =>
          zv ← read value z;
          xv ← read value x;
          x' ← (if zv <? xv then read left x else read right x);
          descend fuel z x x'
      end
  end.

(** The number of loop tests granted to one call: one more than the number
    of objects in the heap. *)
Definition loopBound : M nat := λ h, Done (S (length h), h).

(** Lines 120-138 of [redBlackInsert]: create [z] and hang it under the
    leaf position found by the walk; the result is [(root, z)]. *)
Definition attach (root : ref) (v : Z) : M (ref * ref) :=
  z ← new v;
  fuel ← loopBound;
  y ← descend fuel z None root;
  write (setParent y) z;;
  match y with
  | None => mret (z, z)
  | Some _ =>
      zv ← read value z;
      yv ← read value y;
      if zv <? yv
      then write (setLeft z) y;; mret (root, z)
      else write (setRight z) y;; mret (root, z)
  end.

Definition redBlackInsert (root : ref) (v : Z) : M ref :=
  '(root, z) ← attach root v;
  fuel ← loopBound;
  fixInsert fuel root z.

(** *** cloneTree *)

(** The value of an own property of a node. *)
Inductive property : Type :=
| PNum (n : Z)
| PStr (s : string)
| PRef (p : ref).

(** The enumerable own properties of a [RedBlackNode], in creation order. *)
Definition ownProperties (n : RedBlackNode) : list (string * property) :=
  [("value"%string, PNum (value n)); ("left"%string, PRef (left n));
   ("right"%string, PRef (right n)); ("parent"%string, PRef (parent n));
   ("color"%string, PStr (colorName (color n)))].

(** The replacer given to [JSON.stringify]; [None] is [undefined], which
    makes [stringify] leave the property out. *)
Definition replacer (key : string) (v : property) : option property :=
  if String.eqb key "parent" then None else Some v.

(** [JSON.parse(JSON.stringify(v, replacer))]; [fuel] bounds the nesting
    depth. *)
Fixpoint stringify (fuel : nat) (h : list RedBlackNode) (v : property)
  : outcome json :=
  match v with
  | PNum n => Done (JNum n)
  | PStr s => Done (JStr s)
  | PRef None => Done JNull
  | PRef (Some l) =>
      match fuel with
      | O => Diverge
      | S fuel =>
          match h !! l with
          | None => TypeError
          | Some n =>
              JObj <$>
              (fix each (ps : list (string * property))
                 : outcome (list (string * json)) :=
                 match ps with
                 | [] => Done []
                 | (k, v) :: ps =>
                     match replacer k v with
                     | None => each ps
                     | Some v =>
                         j ← stringify fuel h v;
                         js ← each ps;
                         Done ((k, j) :: js)
                     end
                 end) (ownProperties n)
          end
      end
  end.

Definition cloneTree (root : ref) : M json := λ h,
  match stringify (S (length h)) h (PRef root) with
  | Done j => Done (j, h)
  | TypeError => TypeError
  | Diverge => Diverge
  end.

(** The body of [values.forEach] threaded through the remaining values. *)
Fixpoint forEach (values : list Z) (root : ref) (steps : list json)
  : M (ref * list json) :=
  match values with
  | [] => mret (root, steps)
  | val :: rest =>
      root ← redBlackInsert root val;
      snapshot ← cloneTree root;
      forEach rest root (steps ++ [snapshot])
  end.

Definition buildRedBlackTreeSteps (values : list Z) : outcome (list json) :=
  '(_, steps, _) ← forEach values None [] [];
  Done steps.

End RedBlackTree.

(** ** The [AlgorithmVisualizer] stepper *)

Module Playback.
Section AlgorithmVisualizer.

Context {Snapshot : Type}.

(** The [steps] prop and the component state.  The tree visualizers have no
    pause button: there [paused] stays [false]. *)
Record Visualizer : Type :=
  { steps : list Snapshot; currentStepIndex : Z; paused : bool }.

Definition mount (s : list Snapshot) : Visualizer :=
  {| steps := s; currentStepIndex := 0; paused := false |}.

(** The updater handed to [setCurrentStepIndex] by the interval callback:
    [prev => prev < steps.length - 1 ? prev + 1 : prev]. *)
Definition advance (s : list Snapshot) (prev : Z) : Z :=
  if prev <? Z.of_nat (length s) - 1 then prev + 1 else prev.

(** The second effect installs an interval unless
    [paused || steps.length === 0]. *)
Definition running (v : Visualizer) : bool :=
  negb (paused v || (length (steps v) =? 0)%nat).

(** The interval fires. *)
Definition tick (v : Visualizer) : Visualizer :=
  if running v
  then {| steps := steps v;
          currentStepIndex := advance (steps v) (currentStepIndex v);
          paused := paused v |}
  else v.

(** The parent passes a new [steps] array: the component is rendered and
    committed with the new prop while its state still holds the index that
    belonged to the trace shown before. *)
Definition receiveSteps (s : list Snapshot) (v : Visualizer) : Visualizer :=
  {| steps := s; currentStepIndex := currentStepIndex v; paused := paused v |}.

(** The first effect, which runs after that commit because [steps] has
    changed: [setCurrentStepIndex(0)]. *)
Definition resetIndex (v : Visualizer) : Visualizer :=
  {| steps := steps v; currentStepIndex := 0; paused := paused v |}.

(** A trace replacement once its effect has run: the commit with the stale
    index, then the reset.  No tick is handled in between, since pending
    effects are run before the next state update is processed. *)
Definition setSteps (s : list Snapshot) (v : Visualizer) : Visualizer :=
  resetIndex (receiveSteps s v).

(** [setPaused(!paused)] *)
Definition togglePause (v : Visualizer) : Visualizer :=
  {| steps := steps v; currentStepIndex := currentStepIndex v;
     paused := negb (paused v) |}.

Inductive event : Type :=
| Tick
| SetSteps (s : list Snapshot)
| TogglePause.

Definition react (v : Visualizer) (e : event) : Visualizer :=
  match e with
  | Tick => tick v
  | SetSteps s => setSteps s v
  | TogglePause => togglePause v
  end.

Definition run (v : Visualizer) (es : list event) : Visualizer :=
  fold_left react es v.

End AlgorithmVisualizer.
Arguments Visualizer : clear implicits.
Arguments event : clear implicits.
End Playback.

(** ** Properties of AVL trees *)

Module AVLSpec.
Import AVLTree.

(** The height of a tree: 0 when empty, 1 for a single node. *)
Fixpoint realHeight (t : AVLNode) : Z :=
  match t with
  | Null => 0
  | Node _ l r _ => 1 + Z.max (realHeight l) (realHeight r)
  end.

(** Every [height] field holds the height of the subtree below it. *)
Fixpoint heightsOk (t : AVLNode) : Prop :=
  match t with
  | Null => True
  | Node _ l r h => h = realHeight t ∧ heightsOk l ∧ heightsOk r
  end.

(** The AVL condition at every node. *)
Fixpoint balanced (t : AVLNode) : bool :=
  match t with
  | Null => true
  | Node _ l r _ =>
      (Z.abs (realHeight l - realHeight r) <=? 1) && balanced l && balanced r
  end.

Fixpoint inorder (t : AVLNode) : list Z :=
  match t with
  | Null => []
  | Node v l r _ => inorder l ++ v :: inorder r
  end.

(** The subtree of the root on the side where [v] belongs is the taller one,
    by exactly one. *)
Definition leansTowards (v : Z) (t : AVLNode) : Prop :=
  match t with
  | Null => False
  | Node rv l r _ =>
      (v < rv ∧ realHeight l = realHeight r + 1)
      ∨ (rv < v ∧ realHeight r = realHeight l + 1)
  end.

(** What one insertion of [v] does to the height: nothing, or one more, and
    then the new tree is a single node or leans towards [v]. *)
Definition grewBy (v : Z) (t t' : AVLNode) : Prop :=
  realHeight t' = realHeight t
  ∨ (realHeight t' = realHeight t + 1 ∧ (t = Null ∨ leansTowards v t')).

End AVLSpec.

(** Where a key lands in a non-decreasing sequence: behind every element that
    is not larger, so behind the equal ones. *)
Fixpoint place (v : Z) (l : list Z) : list Z :=
  match l with
  | [] => [v]
  | x :: rest => if v <? x then v :: x :: rest else x :: place v rest
  end.

(** ** Properties of Red-Black trees *)

Module RBSpec.
Import JS RedBlackTree.

(** Binary trees of coloured keys; the label [a] is [tt] for what a snapshot
    shows and the heap index for the live tree. *)
Inductive bt (A : Type) : Type :=
| E
| T (a : A) (c : Color) (l : bt A) (v : Z) (r : bt A).
Arguments E {A}.
Arguments T {A} a c l v r.

Section Coloured.
Context {A : Type}.
Implicit Types t l r : bt A.

Definition colorAt t : Color :=
  match t with E => BLACK | T _ c _ _ _ => c end.

(** In-order sequence of the nodes, of the keys and of the labels. *)
Fixpoint nodes t : list (A * Z) :=
  match t with E => [] | T a _ l v r => nodes l ++ (a, v) :: nodes r end.
Fixpoint keys t : list Z :=
  match t with E => [] | T _ _ l v r => keys l ++ v :: keys r end.
Fixpoint labels t : list A :=
  match t with E => [] | T a _ l _ r => labels l ++ a :: labels r end.

(** No RED node has a RED child. *)
Fixpoint noRedRed t : bool :=
  match t with
  | E => true
  | T _ c l _ r =>
      match c with
      | RED => bool_decide (colorAt l = BLACK) && bool_decide (colorAt r = BLACK)
      | BLACK => true
      end && noRedRed l && noRedRed r
  end.

(** [Some n] when every path from the root of [t] down to a null leaf meets
    [n] BLACK nodes and the same holds below every node of [t]. *)
Fixpoint blackHeight t : option nat :=
  match t with
  | E => Some 0%nat
  | T _ c l _ r =>
      match blackHeight l, blackHeight r with
      | Some n, Some m =>
          if (n =? m)%nat
          then Some (match c with BLACK => S n | RED => n end)
          else None
      | _, _ => None
      end
  end.

Definition isRedBlack t : Prop :=
  colorAt t = BLACK ∧ noRedRed t = true ∧ is_Some (blackHeight t).

(** The same black-height condition as a relation. *)
Fixpoint hasBH t (n : nat) : Prop :=
  match t with
  | E => n = 0%nat
  | T _ c l _ r =>
      match c with
      | RED => hasBH l n ∧ hasBH r n
      | BLACK => match n with O => False | S m => hasBH l m ∧ hasBH r m end
      end
  end.

Definition paint (c : Color) t : bt A :=
  match t with E => E | T a _ l v r => T a c l v r end.

Fixpoint erase t : bt unit :=
  match t with E => E | T _ c l v r => T tt c (erase l) v (erase r) end.

(** What [cloneTree] returns for the tree [t]. *)
Fixpoint jsonOf t : json :=
  match t with
  | E => JNull
  | T _ c l v r =>
      JObj [("value"%string, JNum v); ("left"%string, jsonOf l);
            ("right"%string, jsonOf r); ("color"%string, JStr (colorName c))]
  end.

End Coloured.

(** What a snapshot shows, read through [node.left], [node.right],
    [node.value] and [node.color] like [RedBlackDiagram] does. *)
Definition colorOf (fields : list (string * json)) : Color :=
  match field "color" fields with
  | Some (JStr s) => if String.eqb s "red" then RED else BLACK
  | _ => BLACK
  end.

Definition numberOf (fields : list (string * json)) : Z :=
  match field "value" fields with Some (JNum n) => n | _ => 0 end.

Fixpoint shapeOf (j : json) : bt unit :=
  match j with
  | JObj fields =>
      let sub := fix sub (k : string) (fs : list (string * json)) : bt unit :=
        match fs with
        | [] => E
        | (k', v) :: rest => if String.eqb k k' then shapeOf v else sub k rest
        end in
      T tt (colorOf fields) (sub "left"%string fields) (numberOf fields)
        (sub "right"%string fields)
  | _ => E
  end.

(** *** The live tree inside the heap *)

Definition rootRef (t : bt nat) : ref :=
  match t with E => None | T i _ _ _ _ => Some i end.

(** The heap [h] holds the tree [t] below a node whose [parent] field is
    [par]: every node of [t] is the object at its label, with the fields the
    tree dictates. *)
Fixpoint repr (h : list RedBlackNode) (par : ref) (t : bt nat) : Prop :=
  match t with
  | E => True
  | T i c l v r =>
      h !! i = Some (mkNode v (rootRef l) (rootRef r) par c)
      ∧ repr h (Some i) l ∧ repr h (Some i) r
  end.

(** [h] and [root] are the tree [t], and every object of the heap is one of
    its nodes. *)
Definition holds (h : list RedBlackNode) (root : ref) (t : bt nat) : Prop :=
  repr h None t ∧ rootRef t = root ∧ labels t ≡ₚ seq 0 (length h).

(** The tree reached from [p] through [left] and [right], read with at most
    [fuel] nested steps. *)
Fixpoint readTree (fuel : nat) (h : list RedBlackNode) (p : ref)
  : option (bt nat) :=
  match p with
  | None => Some E
  | Some i =>
      match fuel with
      | O => None
      | S fuel =>
          n ← h !! i;
          l ← readTree fuel h (left n);
          r ← readTree fuel h (right n);
          Some (T i (color n) l (value n) r)
      end
  end.

Definition liveTree (h : list RedBlackNode) (root : ref) : option (bt nat) :=
  readTree (S (length h)) h root.

(** The number of [parent] links from [z] up to the root. *)
Fixpoint depthOf (fuel : nat) (h : list RedBlackNode) (z : ref) : nat :=
  match fuel, z with
  | S fuel, Some i =>
      match h !! i with
      | Some n =>
          match parent n with
          | Some p => S (depthOf fuel h (Some p))
          | None => O
          end
      | None => O
      end
  | _, _ => O
  end.

Definition depth (h : list RedBlackNode) (z : ref) : nat :=
  depthOf (length h) h z.

(** Where a new node lands in the in-order sequence: behind every node whose
    key is not larger. *)
Fixpoint placeNode (x : nat * Z) (l : list (nat * Z)) : list (nat * Z) :=
  match l with
  | [] => [x]
  | y :: rest => if x.2 <? y.2 then x :: y :: rest else y :: placeNode x rest
  end.

(** The subtree of [t] whose root is labelled [i]. *)
Fixpoint subtreeAt (i : nat) (t : bt nat) : bt nat :=
  match t with
  | E => E
  | T j c l v r =>
      if (i =? j)%nat then t
      else match subtreeAt i l with E => subtreeAt i r | s => s end
  end.

(** *** Trees with a hole: the path from a node up to the root *)

Inductive side : Type := L | R.

Definition opp (s : side) : side := match s with L => R | R => L end.

Global Instance side_eq_dec : EqDecision side.
Proof. solve_decision. Defined.

(** One ancestor: on which side the hole is, the ancestor itself, and its
    other subtree. *)
Record frame : Type := Frame
  { fside : side; fid : nat; fcolor : Color; fval : Z; fsib : bt nat }.

Definition plug1 (f : frame) (t : bt nat) : bt nat :=
  match fside f with
  | L => T (fid f) (fcolor f) t (fval f) (fsib f)
  | R => T (fid f) (fcolor f) (fsib f) (fval f) t
  end.

(** Ancestors are listed from the parent up to the root. *)
Fixpoint plug (c : list frame) (t : bt nat) : bt nat :=
  match c with
  | [] => t
  | f :: rest => plug rest (plug1 f t)
  end.

Definition ctxParent (c : list frame) : ref :=
  match c with [] => None | f :: _ => Some (fid f) end.

Definition frameNode (f : frame) (hole par : ref) : RedBlackNode :=
  match fside f with
  | L => mkNode (fval f) hole (rootRef (fsib f)) par (fcolor f)
  | R => mkNode (fval f) (rootRef (fsib f)) hole par (fcolor f)
  end.

Fixpoint reprCtx (h : list RedBlackNode) (c : list frame) (hole : ref) : Prop :=
  match c with
  | [] => True
  | f :: rest =>
      h !! fid f = Some (frameNode f hole (ctxParent rest))
      ∧ repr h (Some (fid f)) (fsib f)
      ∧ reprCtx h rest (Some (fid f))
  end.

(** Nodes of the context in front of and behind the hole, in order. *)
Fixpoint before (c : list frame) : list (nat * Z) :=
  match c with
  | [] => []
  | f :: rest =>
      before rest ++
      match fside f with L => [] | R => nodes (fsib f) ++ [(fid f, fval f)] end
  end.

Fixpoint behind (c : list frame) : list (nat * Z) :=
  match c with
  | [] => []
  | f :: rest =>
      match fside f with L => (fid f, fval f) :: nodes (fsib f) | R => [] end
      ++ behind rest
  end.

(** The labels alone, and all labels of a context. *)
Fixpoint labelsBefore (c : list frame) : list nat :=
  match c with
  | [] => []
  | f :: rest =>
      labelsBefore rest ++
      match fside f with L => [] | R => labels (fsib f) ++ [fid f] end
  end.

Fixpoint labelsBehind (c : list frame) : list nat :=
  match c with
  | [] => []
  | f :: rest =>
      match fside f with L => fid f :: labels (fsib f) | R => [] end
      ++ labelsBehind rest
  end.

Definition ctxLabels (c : list frame) : list nat :=
  labelsBefore c ++ labelsBehind c.

Definition child (s : side) (t : bt nat) : bt nat :=
  match t with
  | E => E
  | T _ _ l _ r => match s with L => l | R => r end
  end.

Definition repaint (c : Color) (f : frame) : frame :=
  Frame (fside f) (fid f) c (fval f) (fsib f).

(** The walk of [redBlackInsert] seen on the tree: the ancestors of the
    leaf position where a node with key [v] is hung. *)
Fixpoint path (v : Z) (t : bt nat) (acc : list frame) : list frame :=
  match t with
  | E => acc
  | T i c l x r =>
      if v <? x
      then path v l (Frame L i c x r :: acc)
      else path v r (Frame R i c x l :: acc)
  end.

(** The loop condition and the loop body of [fixInsert] seen on the tree
    with a hole; the hole is filled by the subtree of [z]. *)
Definition fixCondT (c : list frame) : bool :=
  match c with
  | p :: _ => bool_decide (fcolor p = RED)
  | [] => false
  end.

Definition fixBodyT (c : list frame) (t : bt nat) : list frame * bt nat :=
  match c with
  | p :: g :: rest =>
      let s := fside g in
      match colorAt (fsib g) with
      | RED =>
          (rest,
           plug1 (Frame s (fid g) RED (fval g) (paint BLACK (fsib g)))
                 (plug1 (repaint BLACK p) t))
      | BLACK =>
          let '(p1, t1) :=
            if decide (fside p = s) then (p, t)
            else match t with
                 | T z zc _ zv _ =>
                     (Frame s z zc zv (child (opp s) t), plug1 p (child s t))
                 | E => (p, t)
                 end in
          (Frame s (fid p1) BLACK (fval p1)
                 (plug1 (Frame s (fid g) RED (fval g) (fsib g)) (fsib p1))
             :: rest,
           t1)
      end
  | _ => (c, t)
  end.

Fixpoint fixLoopT (fuel : nat) (c : list frame) (t : bt nat)
  : list frame * bt nat :=
  match fuel with
  | O => (c, t)
  | S fuel =>
      if fixCondT c
      then let '(c, t) := fixBodyT c t in fixLoopT fuel c t
      else (c, t)
  end.

(** A subtree that may sit in a hole of black height [n]. *)
Definition okSub (n : nat) (t : bt nat) : Prop :=
  noRedRed t = true ∧ hasBH t n.

(** The ancestors of a hole of black height [n]: all Red-Black conditions
    hold along the path, except that nothing is asked of the colours of the
    hole and its parent taken together. *)
Fixpoint ctxOk (n : nat) (c : list frame) : Prop :=
  match c with
  | [] => True
  | f :: rest =>
      okSub n (fsib f) ∧
      match fcolor f with
      | RED =>
          colorAt (fsib f) = BLACK
          ∧ match rest with g :: _ => fcolor g = BLACK | [] => False end
          ∧ ctxOk n rest
      | BLACK => ctxOk (S n) rest
      end
  end.

(** What is true of the live tree between two insertions. *)
Definition reachable (h : list RedBlackNode) (root : ref) (t : bt nat) : Prop :=
  holds h root t ∧ isRedBlack t ∧ StronglySorted Z.le (keys t).

(** The claim that a duplicate ends up in the right subtree of the equal
    key that was there before, read on the tree [t'] returned by the
    insertion of [v]: [old] bounds the labels of the nodes that existed
    before, and the new node is labelled [old]. *)
Definition landsInRightSubtree (old : nat) (v : Z) (t' : bt nat) : Prop :=
  ∀ i, (i < old)%nat →
    match subtreeAt i t' with
    | T _ _ _ x r => x = v → old ∈ labels r
    | E => True
    end.

End RBSpec.

(** ** Reading a snapshot back *)

Module SnapshotSpec.
Import JS AVLTree.

(** [o[k]] when it is a number. *)
Definition numberAt (k : string) (fields : list (string * json)) : Z :=
  match field k fields with Some (JNum n) => n | _ => 0 end.

(** The AVL tree that a snapshot shows, read through [node.value],
    [node.left], [node.right] and [node.height]; anything that is not an
    object reads as the empty tree. *)
Fixpoint avlOfJSON (j : json) : AVLNode :=
  match j with
  | JObj fields =>
      let sub := fix sub (k : string) (fs : list (string * json)) : AVLNode :=
        match fs with
        | [] => Null
        | (k', v) :: rest => if String.eqb k k' then avlOfJSON v else sub k rest
        end in
      Node (numberAt "value" fields) (sub "left"%string fields)
           (sub "right"%string fields) (numberAt "height" fields)
  | _ => Null
  end.

End SnapshotSpec.

(** ** The AVL engine and its recorder on the object heap

    [avlInsert] updates the nodes in place, and [JSON.parse] builds the
    snapshot out of new objects of the same heap.  Here every object is a
    cell of one store: the nodes made by [new AVLNode] and the objects made
    by [JSON.parse] alike (both carry [value], [left], [right], [height]),
    and a step of the trace holds a reference into that store. *)

Module AVLHeap.
Import JS.
Export RedBlackTree (ref, outcome, Done, TypeError, Diverge).

Record AVLObject : Type := mkObject
  { value : Z; left : ref; right : ref; height : Z }.

Definition setLeft (p : ref) (o : AVLObject) : AVLObject :=
  mkObject (value o) p (right o) (height o).
Definition setRight (p : ref) (o : AVLObject) : AVLObject :=
  mkObject (value o) (left o) p (height o).
Definition setHeight (n : Z) (o : AVLObject) : AVLObject :=
  mkObject (value o) (left o) (right o) n.

(** Statements run against the store. *)
Definition M (A : Type) : Type := list AVLObject → outcome (A * list AVLObject).

Global Instance M_ret : MRet M := λ A a h, Done (a, h).
Global Instance M_bind : MBind M := λ A B f m h,
  match m h with
  | Done (a, h') => f a h'
  | TypeError => TypeError
  | Diverge => Diverge
  end.

(** [p.f]; reading a property of [null] throws. *)
Definition read {A : Type} (f : AVLObject → A) (p : ref) : M A := λ h,
  match p with
  | None => TypeError
  | Some l => match h !! l with Some o => Done (f o, h) | None => TypeError end
  end.

(** [p.f = v], with [upd] the field update *)
Definition write (upd : AVLObject → AVLObject) (p : ref) : M unit := λ h,
  match p with
  | None => TypeError
  | Some l =>
      match h !! l with
      | Some o => Done (tt, <[l := upd o]> h)
      | None => TypeError
      end
  end.

(** A new object gets the next free place of the store. *)
Definition alloc (o : AVLObject) : M ref := λ h,
  Done (Some (length h), h ++ [o]).

(** [node ? node.height : 0] *)
Definition getHeight (node : ref) : M Z :=
  match node with None => mret 0 | Some _ => read height node end.

(** [node ? getHeight(node.left) - getHeight(node.right) : 0] *)
Definition getBalance (node : ref) : M Z :=
  match node with
  | None => mret 0
  | Some _ =>
      l ← read left node; hl ← getHeight l;
      r ← read right node; hr ← getHeight r;
      mret (hl - hr)
  end.

(** [p.height = 1 + Math.max(getHeight(p.left), getHeight(p.right))] *)
Definition updateHeight (p : ref) : M unit :=
  l ← read left p; hl ← getHeight l;
  r ← read right p; hr ← getHeight r;
  write (setHeight (1 + Z.max hl hr)) p.

Definition rightRotate (y : ref) : M ref :=
  x ← read left y;
  T2 ← read right x;
  write (setRight y) x;;
  write (setLeft T2) y;;
  updateHeight y;;
  updateHeight x;;
  mret x.

Definition leftRotate (x : ref) : M ref :=
  y ← read right x;
  T2 ← read left y;
  write (setLeft x) y;;
  write (setRight T2) x;;
  updateHeight x;;
  updateHeight y;;
  mret y.

(** Lines 74-92 of [avlInsert], once the new child is stored in [root]. *)
Definition rebalance (root : ref) (value : Z) : M ref :=
  updateHeight root;;
  balance ← getBalance root;
  LL ← (if 1 <? balance
        then l ← read left root; lv ← read AVLHeap.value l; mret (value <? lv)
        else mret false);
  if LL : bool then rightRotate root else
  RR ← (if balance <? -1
        then r ← read right root; rv ← read AVLHeap.value r; mret (rv <? value)
        else mret false);
  if RR : bool then leftRotate root else
  LR ← (if 1 <? balance
        then l ← read left root; lv ← read AVLHeap.value l; mret (lv <? value)
        else mret false);
  if LR : bool
  then l ← read left root; l' ← leftRotate l; write (setLeft l') root;;
       rightRotate root
  else
  RL ← (if balance <? -1
        then r ← read right root; rv ← read AVLHeap.value r; mret (value <? rv)
        else mret false);
  if RL : bool
  then r ← read right root; r' ← rightRotate r; write (setRight r') root;;
       leftRotate root
  else mret root.

(** [avlInsert]; [fuel] bounds the depth of the recursion. *)
Fixpoint avlInsert (fuel : nat) (root : ref) (value : Z) : M ref :=
  match root with
  | None => alloc (mkObject value None None 1)     (* new AVLNode(value) *)
  | Some _ =>
      match fuel with
      | O => λ _, Diverge
      | S fuel =>
          rv ← read AVLHeap.value root;
          (if value <? rv
           then l ← read left root; l' ← avlInsert fuel l value;
                write (setLeft l') root
           else r ← read right root; r' ← avlInsert fuel r value;
                write (setRight r') root);;
          rebalance root value
      end
  end.

(** [JSON.stringify(root)]: the own properties in the order the constructor
    made them.  A path of more than [fuel] objects, [fuel] being more than
    there are objects, comes back to an object it has left: for such a
    circular structure [JSON.stringify] throws a TypeError. *)
Fixpoint stringify (fuel : nat) (h : list AVLObject) (p : ref) : outcome json :=
  match p with
  | None => Done JNull
  | Some i =>
      match fuel with
      | O => TypeError
      | S fuel =>
          match h !! i with
          | None => TypeError
          | Some o =>
              l ← stringify fuel h (left o);
              r ← stringify fuel h (right o);
              Done (JObj [("value"%string, JNum (value o)); ("left"%string, l);
                          ("right"%string, r); ("height"%string, JNum (height o))])
          end
      end
  end.

(** [JSON.parse] of the text of a stringified tree: every object of the text
    becomes a new object of the store.  The store holds tree objects only;
    what is not an object, which [stringify] writes at no place where a
    tree is read, reads as [null]. *)
Fixpoint parse (j : json) : M ref :=
  match j with
  | JObj fields =>
      let sub := fix sub (k : string) (fs : list (string * json)) : M ref :=
        match fs with
        | [] => mret None
        | (k', v) :: rest => if String.eqb k k' then parse v else sub k rest
        end in
      l ← sub "left"%string fields;
      r ← sub "right"%string fields;
      alloc (mkObject (SnapshotSpec.numberAt "value" fields) l r
                      (SnapshotSpec.numberAt "height" fields))
  | _ => mret None
  end.

(** One entry of [steps]: [{ tree: ..., current: val }], [tree] being a
    reference to the root of the copy. *)
Record Step : Type := { tree : ref; current : Z }.

(** The body of [values.forEach] threaded through the remaining values. *)
Fixpoint forEach (values : list Z) (root : ref) (steps : list Step)
  : M (ref * list Step) :=
  match values with
  | [] => mret (root, steps)
  | val :: rest =>
      root ← (λ h, avlInsert (S (length h)) root val h);
      text ← (λ h, match stringify (S (length h)) h root with
                   | Done j => Done (j, h)
                   | TypeError => TypeError
                   | Diverge => Diverge
                   end);
      copy ← parse text;
      forEach rest root (steps ++ [ {| tree := copy; current := val |} ])
  end.

(** [buildAVLTreeSteps], together with the store it leaves behind. *)
Definition buildAVLTreeSteps (values : list Z)
  : outcome (list Step * list AVLObject) :=
  match forEach values None [] [] with
  | Done ((_, steps), h) => Done (steps, h)
  | TypeError => TypeError
  | Diverge => Diverge
  end.

End AVLHeap.

Module AVLHeapSpec.
Import AVLHeap.

(** AVL trees whose nodes carry the place they have in the store. *)
Inductive ltree : Type :=
| LNull
| LNode (a : nat) (v : Z) (l r : ltree) (h : Z).

Fixpoint erase (t : ltree) : AVLTree.AVLNode :=
  match t with
  | LNull => AVLTree.Null
  | LNode _ v l r h => AVLTree.Node v (erase l) (erase r) h
  end.

Fixpoint labels (t : ltree) : list nat :=
  match t with LNull => [] | LNode a _ l r _ => a :: labels l ++ labels r end.

Definition rootRef (t : ltree) : ref :=
  match t with LNull => None | LNode a _ _ _ _ => Some a end.

Definition heightOf (t : ltree) : Z :=
  match t with LNull => 0 | LNode _ _ _ _ h => h end.

Fixpoint depth (t : ltree) : nat :=
  match t with LNull => 0%nat | LNode _ _ l r _ => S (Nat.max (depth l) (depth r)) end.

(** The store [h] holds the tree [t]: every node of [t] is the object at its
    place, with the fields the tree dictates. *)
Fixpoint repr (h : list AVLObject) (t : ltree) : Prop :=
  match t with
  | LNull => True
  | LNode a v l r ht =>
      h !! a = Some (mkObject v (rootRef l) (rootRef r) ht)
      ∧ repr h l ∧ repr h r
  end.

(** The tree seen from [p] by following [left] and [right], with every
    field of every object, read with at most [fuel] nested steps. *)
Fixpoint readTree (fuel : nat) (h : list AVLObject) (p : ref)
  : option AVLTree.AVLNode :=
  match p with
  | None => Some AVLTree.Null
  | Some i =>
      match fuel with
      | O => None
      | S fuel =>
          o ← h !! i;
          l ← readTree fuel h (left o);
          r ← readTree fuel h (right o);
          Some (AVLTree.Node (value o) l r (height o))
      end
  end.

(** What a reference shows in the store [h]. *)
Definition shows (h : list AVLObject) (p : ref) : option AVLTree.AVLNode :=
  readTree (S (length h)) h p.

(** The functions of [AVLTree] on trees with places. *)
Definition rightRotateL (y : ltree) : option ltree :=
  match y with
  | LNode ya yv (LNode xa xv xl T2 _) yr _ =>
      let y' := LNode ya yv T2 yr (1 + Z.max (heightOf T2) (heightOf yr)) in
      Some (LNode xa xv xl y' (1 + Z.max (heightOf xl) (heightOf y')))
  | _ => None
  end.

Definition leftRotateL (x : ltree) : option ltree :=
  match x with
  | LNode xa xv xl (LNode ya yv T2 yr _) _ =>
      let x' := LNode xa xv xl T2 (1 + Z.max (heightOf xl) (heightOf T2)) in
      Some (LNode ya yv x' yr (1 + Z.max (heightOf x') (heightOf yr)))
  | _ => None
  end.

Definition valueOfL (t : ltree) : option Z :=
  match t with LNull => None | LNode _ v _ _ _ => Some v end.

Definition rebalanceL (value : Z) (a : nat) (rv : Z) (l r : ltree)
  : option ltree :=
  let h := 1 + Z.max (heightOf l) (heightOf r) in
  let root := LNode a rv l r h in
  let balance := heightOf l - heightOf r in
  LL ← AVLTree.andLess (1 <? balance) (Some value) (valueOfL l);
  if LL : bool then rightRotateL root else
  RR ← AVLTree.andLess (balance <? -1) (valueOfL r) (Some value);
  if RR : bool then leftRotateL root else
  LR ← AVLTree.andLess (1 <? balance) (valueOfL l) (Some value);
  if LR : bool then l' ← leftRotateL l; rightRotateL (LNode a rv l' r h) else
  RL ← AVLTree.andLess (balance <? -1) (Some value) (valueOfL r);
  if RL : bool then r' ← rightRotateL r; leftRotateL (LNode a rv l r' h) else
  Some root.

(** [fresh] is the place the new node gets. *)
Fixpoint insertL (fresh : nat) (t : ltree) (value : Z) : option ltree :=
  match t with
  | LNull => Some (LNode fresh value LNull LNull 1)
  | LNode a rv l r _ =>
      if value <? rv
      then l' ← insertL fresh l value; rebalanceL value a rv l' r
      else r' ← insertL fresh r value; rebalanceL value a rv l r'
  end.

(** A call that should return the tree [ot] (or throw when there is none)
    has ended as [res]: in a store of [n] objects that holds the tree at the
    places [L'], all objects at places of [h] outside [L] being as they
    were. *)
Definition refines (h : list AVLObject) (n : nat) (L L' : list nat)
    (ot : option ltree) (res : outcome (ref * list AVLObject)) : Prop :=
  match ot with
  | Some t' =>
      ∃ h', res = Done (rootRef t', h') ∧ repr h' t' ∧ length h' = n
            ∧ labels t' ≡ₚ L'
            ∧ (∀ i, (i < length h)%nat → i ∉ L → h' !! i = h !! i)
  | None => res = TypeError
  end.

(** The state of the recorder: the store holds the live tree and one copy
    per step, the tree of step [k] being the root of copy [k], and no
    object belongs to two of these trees. *)
Definition recorded (h : list AVLObject) (live : ltree) (copies : list ltree)
    (steps : list Step) : Prop :=
  repr h live
  ∧ Forall (repr h) copies
  ∧ NoDup (labels live ++ concat (labels <$> copies))
  ∧ tree <$> steps = rootRef <$> copies.

End AVLHeapSpec.

(** ** Bubble sort with its recorded snapshots
    ([src/components/Sorting/BubbleSortVisualizer.js]) *)

Module BubbleSort.

(** The body of the inner loop at index [j]; the state is the working copy
    [array] and the snapshots [steps] pushed so far.  A comparison with
    [undefined] (an index past the end) is false. *)
Definition compareSwap (st : list Z * list (list Z)) (j : nat)
  : list Z * list (list Z) :=
  let '(array, steps) := st in
  match array !! j, array !! S j with
  | Some a, Some b =>
      if b <? a                                    (* array[j] > array[j + 1] *)
      then let array' := <[S j := a]> (<[j := b]> array) in
           (array', steps ++ [array'])             (* steps.push([...array]) *)
      else st
  | _, _ => st
  end.

(** [for (let j = 0; j < array.length - i - 1; j++)]: the body assigns to
    existing indices only, so [array.length] is the same at every test; the
    bound is not negative, since the outer loop keeps [i] below
    [array.length]. *)
Definition innerLoop (st : list Z * list (list Z)) (i : nat)
  : list Z * list (list Z) :=
  fold_left compareSwap (seq 0 (length st.1 - i - 1)) st.

(** [for (let i = 0; i < array.length; i++)] *)
Definition outerLoop (st : list Z * list (list Z)) : list Z * list (list Z) :=
  fold_left innerLoop (seq 0 (length st.1)) st.

(** [array] starts as a copy of [arr], and the first snapshot is pushed
    before the loops. *)
Definition bubbleSort (arr : list Z) : list (list Z) :=
  (outerLoop (arr, [arr])).2.

End BubbleSort.

Module BubbleSortSpec.

(** [b] is [a] with the neighbours at [j] and [j + 1], which stood in the
    wrong order, exchanged. *)
Definition swapStep (a b : list Z) : Prop :=
  ∃ (j : nat) (x y : Z),
    a !! j = Some x ∧ a !! S j = Some y ∧ y < x
    ∧ b = <[S j := x]> (<[j := y]> a).

(** Every list of [rest] comes from the one before it by a [swapStep],
    starting at [a]. *)
Fixpoint linked (a : list Z) (rest : list (list Z)) : Prop :=
  match rest with
  | [] => True
  | b :: rest => swapStep a b ∧ linked b rest
  end.

(** The number of pairs of positions that stand in the wrong order. *)
Fixpoint inversions (l : list Z) : nat :=
  match l with
  | [] => 0%nat
  | x :: r => (length (filter (λ y, (y < x)%Z) r) + inversions r)%nat
  end.

(** One pass over [x :: rest] carrying the largest element seen so far for
    [m] comparisons. *)
Fixpoint bubble (m : nat) (x : Z) (rest : list Z) : list Z :=
  match m, rest with
  | S m, y :: r => if y <? x then y :: bubble m x r else x :: bubble m y r
  | _, _ => x :: rest
  end.

(** The reading of the state: the snapshots start with the input, end with
    the working copy, and are linked by swaps. *)
Definition chained (arr : list Z) (st : list Z * list (list Z)) : Prop :=
  ∃ rest, st.2 = arr :: rest ∧ last st.2 = Some st.1 ∧ linked arr rest.

(** After [i] passes the last [i] places hold the largest elements, in
    order. *)
Definition settled (i : nat) (array : list Z) : Prop :=
  ∃ front back,
    array = front ++ back ∧ length back = i%nat
    ∧ StronglySorted Z.le back
    ∧ Forall (λ a, Forall (λ b, (a ≤ b)%Z) back) front.

End BubbleSortSpec.

(** ** What the playback and the trees are measured by *)

Module PlaybackSpec.
Import Playback.

(** The ticks of [es] that arrive while the interval is installed, that is
    while the visualizer is not paused; [p] is the pause flag at the
    start. *)
Fixpoint ticksWhileRunning {Snapshot} (p : bool) (es : list (event Snapshot))
  : nat :=
  match es with
  | [] => 0%nat
  | Tick :: es => ((if p then 0 else 1) + ticksWhileRunning p es)%nat
  | TogglePause :: es => ticksWhileRunning (negb p) es
  | SetSteps _ :: es => ticksWhileRunning p es
  end.

End PlaybackSpec.

(** What the [AlgorithmVisualizer] components decide to draw. *)
Module VisualizerView.
Import JS Playback.

(** [j ? ... : ...] on a parsed JSON value. *)
Definition truthy (j : json) : bool :=
  match j with
  | JNull => false
  | JNum n => negb (n =? 0)
  | JStr s => negb (String.eqb s EmptyString)
  | JObj _ => true
  end.

(** [steps[currentStepIndex]], [None] being [undefined]. *)
Definition currentStep {Snapshot} (v : Visualizer Snapshot) : option Snapshot :=
  if currentStepIndex v <? 0 then None
  else steps v !! Z.to_nat (currentStepIndex v).

(** Red-black Tree.js: [currentTree = steps[currentStepIndex] || null], and
    the diagram is drawn when [currentTree] is truthy, the text
    "Building Red-Black Tree..." otherwise. *)
Definition rbShowsDiagram (v : Visualizer json) : bool :=
  match currentStep v with Some j => truthy j | None => false end.

(** AVL Tree.js: [currentSnapshot = steps[currentStepIndex] ||
    { tree: null, current: null }], and the diagram is drawn when
    [currentSnapshot.tree] is truthy. *)
Definition avlShowsDiagram (v : Visualizer AVLTree.Step) : bool :=
  match currentStep v with
  | Some step => truthy (AVLTree.tree step)
  | None => false
  end.

(** [currentStepIndex === steps.length - 1 && steps.length > 0]: the
    "Tree Built!" message. *)
Definition showsBuilt {Snapshot} (v : Visualizer Snapshot) : bool :=
  (currentStepIndex v =? Z.of_nat (length (steps v)) - 1)
  && (0 <? Z.of_nat (length (steps v))).

(** BubbleSortVisualizer.js: [currentStep === steps.length - 1], the
    "Array Sorted!" message. *)
Definition showsSorted {Snapshot} (v : Visualizer Snapshot) : bool :=
  currentStepIndex v =? Z.of_nat (length (steps v)) - 1.

End VisualizerView.

Module RBMeasure.
Import RBSpec.

(** The number of nodes on the longest path from the root down to a leaf. *)
Fixpoint height {A} (t : bt A) : nat :=
  match t with
  | E => 0%nat
  | T _ _ l _ r => S (Nat.max (height l) (height r))
  end.

End RBMeasure.

(** ** The tree that equal keys build *)

Module AVLChain.
Import AVLTree.

(** [n] nodes with the same key, each the right child of the one before. *)
Fixpoint chain (n : nat) (v : Z) : AVLNode :=
  match n with
  | O => Null
  | S n => Node v Null (chain n v) (Z.of_nat (S n))
  end.

End AVLChain.

(* ------------------------------------------------------------------ *)
(** * Theorems *)

Set Warnings "-clear-no-such-hyp".

(** ** AVL trees *)

Section AVLFacts.
Import AVLTree AVLSpec.

Lemma getHeight_real t : heightsOk t → getHeight t = realHeight t.
Proof. destruct t; simpl; [done | by intros [-> _]]. Qed.

Lemma realHeight_nonneg t : 0 ≤ realHeight t.
Proof. induction t; simpl; lia. Qed.

Lemma avl_rightRotate_heights v l r h t :
  rightRotate (Node v l r h) = Some t → heightsOk l → heightsOk r → heightsOk t.
Proof.
  destruct l as [|xv xl T2 xh]; simpl; [done|].
  intros [= <-] (_ & Hxl & HT2) Hr. simpl.
  rewrite !getHeight_real by done. done.
Qed.

Lemma avl_leftRotate_heights v l r h t :
  leftRotate (Node v l r h) = Some t → heightsOk l → heightsOk r → heightsOk t.
Proof.
  destruct r as [|yv T2 yr yh]; simpl; [done|].
  intros [= <-] Hl (_ & HT2 & Hyr). simpl.
  rewrite !getHeight_real by done. done.
Qed.

Lemma avl_rightRotate_inorder y t :
  rightRotate y = Some t → inorder t = inorder y.
Proof.
  destruct y as [|v [|xv xl T2 xh] r h]; simpl; try done.
  intros [= <-]. simpl. by rewrite <- app_assoc.
Qed.

Lemma avl_leftRotate_inorder x t :
  leftRotate x = Some t → inorder t = inorder x.
Proof.
  destruct x as [|v l [|yv T2 yr yh] h]; simpl; try done.
  intros [= <-]. simpl. by rewrite <- app_assoc.
Qed.

(** The four outcomes of [rebalance]. *)
Lemma avl_rebalance_cases value rv l r t :
  ∀ h, h = 1 + Z.max (getHeight l) (getHeight r) →
  rebalance value rv l r = Some t →
  rightRotate (Node rv l r h) = Some t
  ∨ leftRotate (Node rv l r h) = Some t
  ∨ (∃ l', leftRotate l = Some l' ∧ rightRotate (Node rv l' r h) = Some t)
  ∨ (∃ r', rightRotate r = Some r' ∧ leftRotate (Node rv l r' h) = Some t)
  ∨ t = Node rv l r h.
Proof.
  unfold rebalance. intros h -> H.
  repeat (simplify_option_eq || case_match); eauto 10.
Qed.

Lemma avl_rightRotate_heights' y t :
  rightRotate y = Some t →
  (∀ v l r h, y = Node v l r h → heightsOk l ∧ heightsOk r) → heightsOk t.
Proof.
  destruct y as [|v l r h]; [done|]. intros H Hy.
  destruct (Hy _ _ _ _ eq_refl). eauto using avl_rightRotate_heights.
Qed.

Lemma avl_leftRotate_heights' y t :
  leftRotate y = Some t →
  (∀ v l r h, y = Node v l r h → heightsOk l ∧ heightsOk r) → heightsOk t.
Proof.
  destruct y as [|v l r h]; [done|]. intros H Hy.
  destruct (Hy _ _ _ _ eq_refl). eauto using avl_leftRotate_heights.
Qed.

Lemma heightsOk_children t :
  heightsOk t → ∀ v l r h, t = Node v l r h → heightsOk l ∧ heightsOk r.
Proof. intros H v l r h ->. simpl in H. tauto. Qed.

Lemma avl_rebalance_heights value rv l r t :
  heightsOk l → heightsOk r → rebalance value rv l r = Some t → heightsOk t.
Proof.
  intros Hl Hr H.
  destruct (avl_rebalance_cases _ _ _ _ _ _ eq_refl H)
    as [R|[R|[(l' & R1 & R2)|[(r' & R1 & R2)| ->]]]].
  - eauto using avl_rightRotate_heights.
  - eauto using avl_leftRotate_heights.
  - eapply avl_rightRotate_heights; eauto.
    eapply avl_leftRotate_heights'; eauto using heightsOk_children.
  - eapply avl_leftRotate_heights; eauto.
    eapply avl_rightRotate_heights'; eauto using heightsOk_children.
  - simpl. rewrite !getHeight_real by done. done.
Qed.

Lemma avl_insert_heights t value t' :
  heightsOk t → avlInsert t value = Some t' → heightsOk t'.
Proof.
  revert t'; induction t as [|rv l IHl r IHr h]; intros t' Ht H; simpl in *.
  - injection H as <-. simpl. done.
  - destruct Ht as (_ & Hl & Hr).
    destruct (value <? rv); simplify_option_eq; eauto using avl_rebalance_heights.
Qed.

Lemma avl_rebalance_inorder value rv l r t :
  rebalance value rv l r = Some t → inorder t = inorder l ++ rv :: inorder r.
Proof.
  intros H.
  destruct (avl_rebalance_cases _ _ _ _ _ _ eq_refl H)
    as [R|[R|[(l' & R1 & R2)|[(r' & R1 & R2)| ->]]]].
  - by rewrite (avl_rightRotate_inorder _ _ R).
  - by rewrite (avl_leftRotate_inorder _ _ R).
  - rewrite (avl_rightRotate_inorder _ _ R2). simpl.
    by rewrite (avl_leftRotate_inorder _ _ R1).
  - rewrite (avl_leftRotate_inorder _ _ R2). simpl.
    by rewrite (avl_rightRotate_inorder _ _ R1).
  - done.
Qed.

End AVLFacts.

Section PlaceFacts.

Lemma place_app_lt v x l r : v < x → place v (l ++ x :: r) = place v l ++ x :: r.
Proof.
  intros Hv. induction l as [|a l IH]; simpl.
  - by rewrite (proj2 (Z.ltb_lt _ _) Hv).
  - destruct (v <? a); simpl; congruence.
Qed.

Lemma place_app_ge v x l r :
  x ≤ v → Forall (λ a, a ≤ v) l → place v (l ++ x :: r) = l ++ x :: place v r.
Proof.
  intros Hv Hl. induction Hl as [|a l Ha Hl IH]; simpl.
  - by rewrite (proj2 (Z.ltb_ge _ _) Hv).
  - rewrite (proj2 (Z.ltb_ge _ _) Ha). congruence.
Qed.

Lemma place_perm v l : place v l ≡ₚ v :: l.
Proof.
  induction l as [|a l IH]; simpl; [done|].
  destruct (v <? a); [done|]. rewrite IH. apply Permutation_swap.
Qed.

Lemma place_sorted v l : StronglySorted Z.le l → StronglySorted Z.le (place v l).
Proof.
  induction 1 as [|a l Hl IH Ha]; simpl.
  - repeat constructor.
  - destruct (v <? a) eqn:E.
    + apply Z.ltb_lt in E. constructor; [by constructor|].
      constructor; [lia|]. eapply Forall_impl; [done|]. simpl; intros; lia.
    + apply Z.ltb_ge in E. constructor; [done|].
      rewrite place_perm. by constructor.
Qed.

End PlaceFacts.

Section AVLOrder.
Import AVLTree AVLSpec.

Lemma avl_insert_inorder t value t' :
  StronglySorted Z.le (inorder t) → avlInsert t value = Some t' →
  inorder t' = place value (inorder t).
Proof.
  revert t'; induction t as [|rv l IHl r IHr h]; intros t' Ht H; simpl in *.
  - by injection H as <-.
  - apply StronglySorted_app in Ht as (Hlr & Hl & Hr).
    destruct (value <? rv) eqn:E; simplify_option_eq.
    + apply Z.ltb_lt in E. rewrite place_app_lt by done.
      erewrite avl_rebalance_inorder by done. by rewrite (IHl _ Hl eq_refl).
    + apply Z.ltb_ge in E. rewrite place_app_ge; [|done|].
      * apply StronglySorted_cons in Hr as [_ Hr].
        erewrite avl_rebalance_inorder by done. by rewrite (IHr _ Hr eq_refl).
      * apply Forall_forall. intros a Ha.
        assert (a ≤ rv) by (apply (Hlr a rv Ha); by left). lia.
Qed.

End AVLOrder.



(** ** Red-Black trees: the heap and the tree it holds *)

Section RBHeap.
Import JS RedBlackTree RBSpec.
Local Open Scope nat_scope.

Implicit Types (h : list RedBlackNode) (t l r : bt nat) (cx : list frame).

(** Running statements *)

Lemma run_bind {A B} (m : M A) (k : A → M B) h a h1 res :
  m h = Done (a, h1) → k a h1 = res → (m ≫= k) h = res.
Proof. unfold mbind, M_bind. by intros -> ->. Qed.

Lemma run_ret {A} (a : A) h : (mret a : M A) h = Done (a, h).
Proof. done. Qed.

Lemma run_read {A} (f : RedBlackNode → A) h i n :
  h !! i = Some n → read f (Some i) h = Done (f n, h).
Proof. unfold read. by intros ->. Qed.

Lemma run_write upd h i n :
  h !! i = Some n → write upd (Some i) h = Done (tt, <[i := upd n]> h).
Proof. unfold write. by intros ->. Qed.

(** Heaps that agree on a tree *)

Lemma repr_ext h h' par t :
  (∀ i, i ∈ labels t → h' !! i = h !! i) → repr h par t → repr h' par t.
Proof.
  revert par. induction t as [|i c l IHl v r IHr]; intros par Hext; simpl; [done|].
  simpl in Hext.
  intros (Hi & Hl & Hr). split_and!.
  - rewrite Hext; [done|]. set_solver.
  - apply IHl; [|done]. intros j Hj. apply Hext. set_solver.
  - apply IHr; [|done]. intros j Hj. apply Hext. set_solver.
Qed.

Lemma repr_lt h par t i : repr h par t → i ∈ labels t → i < length h.
Proof.
  revert par. induction t as [|j c l IHl v r IHr]; intros par; simpl.
  - set_solver.
  - intros (Hj & Hl & Hr) Hi.
    apply elem_of_app in Hi as [Hi|Hi]; [eauto|].
    apply elem_of_cons in Hi as [->|Hi]; [|eauto].
    by eapply lookup_lt_Some.
Qed.

Lemma rootRef_elem t i : rootRef t = Some i → i ∈ labels t.
Proof. destruct t; simpl; [done|]. intros [= ->]. set_solver. Qed.

Lemma reprCtx_ext h h' cx hole :
  (∀ i, i ∈ ctxLabels cx → h' !! i = h !! i) → reprCtx h cx hole → reprCtx h' cx hole.
Proof.
  revert hole. induction cx as [|f rest IH]; intros hole Hext; simpl; [done|].
  intros (Hf & Hs & Hr).
  assert (Hsub : ∀ i, i = fid f ∨ i ∈ labels (fsib f) ∨ i ∈ ctxLabels rest →
                      i ∈ ctxLabels (f :: rest)).
  { intros i. unfold ctxLabels; simpl. destruct (fside f); set_solver. }
  split_and!.
  - rewrite Hext; [done|]. apply Hsub; auto.
  - eapply repr_ext; [|done]. intros; apply Hext, Hsub; auto.
  - apply IH; [|done]. intros; apply Hext, Hsub; auto.
Qed.

Lemma repr_plug1 h par f t :
  repr h par (plug1 f t) ↔
  h !! fid f = Some (frameNode f (rootRef t) par)
  ∧ repr h (Some (fid f)) (fsib f) ∧ repr h (Some (fid f)) t.
Proof. unfold plug1, frameNode. destruct (fside f); simpl; tauto. Qed.

Lemma rootRef_plug1 f t : rootRef (plug1 f t) = Some (fid f).
Proof. unfold plug1. by destruct (fside f). Qed.

Lemma repr_plug h cx t :
  repr h None (plug cx t) ↔ reprCtx h cx (rootRef t) ∧ repr h (ctxParent cx) t.
Proof.
  revert t. induction cx as [|f rest IH]; intros t; simpl; [tauto|].
  rewrite IH, repr_plug1, rootRef_plug1. tauto.
Qed.

Lemma labels_plug1 f t :
  labels (plug1 f t) =
  match fside f with L => [] | R => labels (fsib f) ++ [fid f] end
  ++ labels t ++
  match fside f with L => fid f :: labels (fsib f) | R => [] end.
Proof.
  unfold plug1. destruct (fside f); simpl; [done|].
  by rewrite <- app_assoc, app_nil_r.
Qed.

Lemma labels_plug cx t :
  labels (plug cx t) = labelsBefore cx ++ labels t ++ labelsBehind cx.
Proof.
  revert t. induction cx as [|f rest IH]; intros t; simpl.
  - by rewrite app_nil_r.
  - rewrite IH, labels_plug1. by rewrite <- !app_assoc.
Qed.

Lemma nodes_plug1 f t :
  nodes (plug1 f t) =
  match fside f with L => [] | R => nodes (fsib f) ++ [(fid f, fval f)] end
  ++ nodes t ++
  match fside f with L => (fid f, fval f) :: nodes (fsib f) | R => [] end.
Proof.
  unfold plug1. destruct (fside f); simpl; [done|].
  by rewrite <- app_assoc, app_nil_r.
Qed.

Lemma nodes_plug cx t : nodes (plug cx t) = before cx ++ nodes t ++ behind cx.
Proof.
  revert t. induction cx as [|f rest IH]; intros t; simpl.
  - by rewrite app_nil_r.
  - rewrite IH, nodes_plug1. by rewrite <- !app_assoc.
Qed.

Lemma rootRef_plug cx t :
  rootRef (plug cx t) =
  match last cx with Some f => Some (fid f) | None => rootRef t end.
Proof.
  revert t. induction cx as [|f rest IH]; intros t; simpl; [done|].
  rewrite IH, rootRef_plug1, last_cons. by destruct (last rest).
Qed.

Lemma holds_NoDup h root t : holds h root t → NoDup (labels t).
Proof. intros (_ & _ & Hp). rewrite Hp. apply NoDup_seq. Qed.

End RBHeap.

Ltac list_norm := repeat progress (simpl; rewrite <- ?app_assoc).

Section Disjoint.
Context {A : Type}.
Implicit Types (l k : list A) (y : A).

Lemma disj_app_l l1 l2 k :
  (∀ x, x ∈ l1 ++ l2 → x ∉ k) → (∀ x, x ∈ l1 → x ∉ k) ∧ (∀ x, x ∈ l2 → x ∉ k).
Proof. set_solver. Qed.
Lemma disj_cons_l y l k :
  (∀ x, x ∈ y :: l → x ∉ k) → (y ∉ k) ∧ (∀ x, x ∈ l → x ∉ k).
Proof. set_solver. Qed.
Lemma disj_app_r l k1 k2 :
  (∀ x, x ∈ l → x ∉ k1 ++ k2) → (∀ x, x ∈ l → x ∉ k1) ∧ (∀ x, x ∈ l → x ∉ k2).
Proof. set_solver. Qed.
Lemma disj_cons_r l y k :
  (∀ x, x ∈ l → x ∉ y :: k) → (y ∉ l) ∧ (∀ x, x ∈ l → x ∉ k).
Proof. set_solver. Qed.

End Disjoint.

Lemma rootRef_not_elem t i : i ∉ RBSpec.labels t → Some i ≠ RBSpec.rootRef t.
Proof. intros Hi E. apply Hi. by apply rootRef_elem. Qed.

(** Turn [NoDup] of an explicit concatenation into elementary facts:
    [x ≠ y] and [x ∉ l] for the named elements. *)
Ltac nd_facts :=
  repeat match goal with
    | H : NoDup (_ ++ _) |- _ =>
        let H1 := fresh "ND" in let H2 := fresh "ND" in let H3 := fresh "ND" in
        apply NoDup_app in H as (H1 & H2 & H3)
    | H : NoDup (_ :: _) |- _ =>
        let H1 := fresh "ND" in let H2 := fresh "ND" in
        apply NoDup_cons in H as (H1 & H2)
    | H : NoDup _ |- _ => clear H
    | H : ∀ x, x ∈ [] → _ |- _ => clear H
    | H : ∀ x, x ∈ _ → x ∉ [] |- _ => clear H
    | H : ∀ x, x ∈ _ ++ _ → x ∉ _ |- _ =>
        let H1 := fresh "ND" in let H2 := fresh "ND" in
        apply disj_app_l in H as (H1 & H2)
    | H : ∀ x, x ∈ _ :: _ → x ∉ _ |- _ =>
        let H1 := fresh "ND" in let H2 := fresh "ND" in
        apply disj_cons_l in H as (H1 & H2)
    | H : ∀ x, x ∈ _ → x ∉ _ ++ _ |- _ =>
        let H1 := fresh "ND" in let H2 := fresh "ND" in
        apply disj_app_r in H as (H1 & H2)
    | H : ∀ x, x ∈ _ → x ∉ _ :: _ |- _ =>
        let H1 := fresh "ND" in let H2 := fresh "ND" in
        apply disj_cons_r in H as (H1 & H2)
    | H : ∀ x, x ∈ _ → x ∉ _ |- _ => clear H
    | H : _ ∉ [] |- _ => clear H
    | H : _ ∉ _ ++ _ |- _ =>
        let H1 := fresh "ND" in let H2 := fresh "ND" in
        apply not_elem_of_app in H as (H1 & H2)
    | H : _ ∉ _ :: _ |- _ =>
        let H1 := fresh "ND" in let H2 := fresh "ND" in
        apply not_elem_of_cons in H as (H1 & H2)
    end.

Ltac nd_neq :=
  lazymatch goal with
  | |- Some ?u ≠ Some ?v =>
      let E := fresh "E" in intros [= E]; revert E; change (u ≠ v); nd_neq
  | |- Some ?u ≠ RBSpec.rootRef ?t => apply rootRef_not_elem; assumption
  | |- ?u ≠ ?v =>
      first
        [ assumption
        | apply not_eq_sym; assumption
        | match goal with
          | Hi : v ∈ ?l, H : u ∉ ?l |- _ =>
              let E := fresh "E" in intros E; apply H; rewrite E; exact Hi
          | Hi : u ∈ ?l, H : v ∉ ?l |- _ =>
              let E := fresh "E" in intros E; apply H; rewrite <- E; exact Hi
          end ]
  end.

Ltac hlen :=
  rewrite ?length_insert; eapply lookup_lt_Some; eassumption.
Ltac hneq := nd_neq.
Ltac hlookup :=
  repeat first [ rewrite list_lookup_insert_eq by hlen
               | rewrite list_lookup_insert_ne by hneq ];
  first [eassumption | reflexivity].

Ltac rsimpl :=
  cbn [RedBlackTree.parent RedBlackTree.left RedBlackTree.right
       RedBlackTree.color RedBlackTree.value RedBlackTree.setLeft
       RedBlackTree.setRight RedBlackTree.setParent RedBlackTree.setColor
       RedBlackTree.sameColor RBSpec.rootRef RBSpec.ctxParent
       RBSpec.frameNode RBSpec.fside RBSpec.fid RBSpec.fcolor RBSpec.fval
       RBSpec.fsib fst snd].

Ltac run :=
  lazymatch goal with
  | |- RedBlackTree.read _ _ _ = _ => eapply run_read; hlookup
  | |- RedBlackTree.write _ _ _ = _ => eapply run_write; hlookup
  | |- RedBlackTree.isRed _ _ = _ =>
      first [ eassumption | unfold RedBlackTree.isRed; run ]
  | |- mret _ _ = _ => eapply run_ret
  | |- (_ ≫= _) _ = _ => eapply run_bind; [ run | rsimpl; run ]
  | |- (if decide (?P) then _ else _) _ = _ =>
      first [ rewrite (decide_True (P:=P)) by reflexivity
            | rewrite (decide_False (P:=P)) by hneq ];
      run
  end.

Ltac split_mem H :=
  repeat (first [rewrite elem_of_app in H | rewrite elem_of_cons in H];
          destruct H as [H|H]).

Ltac solve_repr :=
  lazymatch goal with
  | |- True => exact I
  | |- _ ∧ _ => split; solve_repr
  | |- _ !! _ = Some _ => hlookup
  | |- RBSpec.repr _ _ (RBSpec.T _ _ _ _ _) => simpl; solve_repr
  | |- RBSpec.repr _ _ RBSpec.E => exact I
  | |- RBSpec.repr _ _ _ =>
      eapply repr_ext; [|eassumption];
      let i := fresh "i" in let Hi := fresh "Hi" in
      intros i Hi; hlookup
  | |- RBSpec.reprCtx _ (_ :: _) _ => simpl; solve_repr
  | |- RBSpec.reprCtx _ [] _ => exact I
  | |- RBSpec.reprCtx _ _ _ =>
      eapply reprCtx_ext; [|eassumption];
      let i := fresh "i" in let Hi := fresh "Hi" in
      intros i Hi; unfold RBSpec.ctxLabels in Hi; split_mem Hi; hlookup
  end.

Section RBRotations.
Import JS RedBlackTree RBSpec.
Local Open Scope nat_scope.
Implicit Types (h : list RedBlackNode) (t l r : bt nat) (cx : list frame).

Lemma rb_leftRotate_holds h root cx x xc a xv y yc b yv d :
  holds h root (plug cx (T x xc a xv (T y yc b yv d))) →
  let t' := plug cx (T y yc (T x xc a xv b) yv d) in
  ∃ h', leftRotate root (Some x) h = Done (rootRef t', h')
        ∧ holds h' (rootRef t') t' ∧ length h' = length h.
Proof.
  intros Hh t'. pose proof (holds_NoDup _ _ _ Hh) as HND.
  destruct Hh as (Hrepr & Hroot & Hperm).
  assert (Hl : labels t' = labels (plug cx (T x xc a xv (T y yc b yv d)))).
  { unfold t'. rewrite !labels_plug. by list_norm. }
  assert (Hr : rootRef t' = match cx with [] => Some y | _ => root end).
  { unfold t'. rewrite <- Hroot, !rootRef_plug. destruct cx; [done|].
    rewrite !last_cons. by destruct (last cx). }
  enough (∃ h', leftRotate root (Some x) h = Done (rootRef t', h')
                ∧ (reprCtx h' cx (Some y)
                   ∧ repr h' (ctxParent cx) (T y yc (T x xc a xv b) yv d))
                ∧ length h' = length h) as (h' & Hrun & Hrep & Hlen).
  { exists h'. unfold holds. split_and!; [done|by apply repr_plug|done|by rewrite Hl, Hlen|done]. }
  rewrite Hr. clear Hr Hl Hperm t'.
  apply repr_plug in Hrepr as (Hcx & Hx). simpl in Hx.
  destruct Hx as (Hx & Ha & Hy & Hb & Hd).
  rewrite labels_plug in HND.
  destruct b as [|bi bc bl bv br];
    (destruct cx as [|[[] fi fc fv sib] rest]);
    unfold frameNode in *; simpl in *;
    destruct_and?; nd_facts;
    (eexists; split; [unfold leftRotate; run|]);
    (split; [|by rewrite ?length_insert]);
    solve_repr.
Qed.

Lemma rb_rightRotate_holds h root cx x xc a xv y yc b yv d :
  holds h root (plug cx (T y yc (T x xc a xv b) yv d)) →
  let t' := plug cx (T x xc a xv (T y yc b yv d)) in
  ∃ h', rightRotate root (Some y) h = Done (rootRef t', h')
        ∧ holds h' (rootRef t') t' ∧ length h' = length h.
Proof.
  intros Hh t'. pose proof (holds_NoDup _ _ _ Hh) as HND.
  destruct Hh as (Hrepr & Hroot & Hperm).
  assert (Hl : labels t' = labels (plug cx (T y yc (T x xc a xv b) yv d))).
  { unfold t'. rewrite !labels_plug. by list_norm. }
  assert (Hr : rootRef t' = match cx with [] => Some x | _ => root end).
  { unfold t'. rewrite <- Hroot, !rootRef_plug. destruct cx; [done|].
    rewrite !last_cons. by destruct (last cx). }
  enough (∃ h', rightRotate root (Some y) h = Done (rootRef t', h')
                ∧ (reprCtx h' cx (Some x)
                   ∧ repr h' (ctxParent cx) (T x xc a xv (T y yc b yv d)))
                ∧ length h' = length h) as (h' & Hrun & Hrep & Hlen).
  { exists h'. unfold holds. split_and!; [done|by apply repr_plug|done|by rewrite Hl, Hlen|done]. }
  rewrite Hr. clear Hr Hl Hperm t'.
  apply repr_plug in Hrepr as (Hcx & Hy). simpl in Hy.
  destruct Hy as (Hy & (Hx & Ha & Hb) & Hd).
  rewrite labels_plug in HND.
  destruct b as [|bi bc bl bv br];
    (destruct cx as [|[[] fi fc fv sib] rest]);
    unfold frameNode in *; simpl in *;
    destruct_and?; nd_facts;
    (eexists; split; [unfold rightRotate; run|]);
    (split; [|by rewrite ?length_insert]);
    solve_repr.
Qed.

Lemma holds_lookup h root cx i c l v r :
  holds h root (plug cx (T i c l v r)) →
  h !! i = Some (mkNode v (rootRef l) (rootRef r) (ctxParent cx) c).
Proof. intros (Hrepr & _). apply repr_plug in Hrepr as (_ & Hi & _). done. Qed.

End RBRotations.


(** ** Red-Black trees: the body of the fix-up loop *)

Section Steps.
Import RedBlackTree.
Context {A B : Type}.
Implicit Types (h : list RedBlackNode) (Q : list RedBlackNode → Prop).

Lemma step_bind (m : M A) (k : A → M B) h a h1 res Q :
  m h = Done (a, h1) →
  (∃ h', k a h1 = Done (res, h') ∧ Q h') →
  ∃ h', (m ≫= k) h = Done (res, h') ∧ Q h'.
Proof. intros Hm (h' & Hk & HQ). exists h'. split; [|done]. by eapply run_bind. Qed.

Lemma step_ret (res : A) h Q : Q h → ∃ h', (mret res : M A) h = Done (res, h') ∧ Q h'.
Proof. by exists h. Qed.

Lemma step_if_true (P : Prop) `{Decision P} (m1 m2 : M A) h res Q :
  P → (∃ h', m1 h = Done (res, h') ∧ Q h') →
  ∃ h', (if decide P then m1 else m2) h = Done (res, h') ∧ Q h'.
Proof. intros HP. by rewrite decide_True. Qed.

Lemma step_if_false (P : Prop) `{Decision P} (m1 m2 : M A) h res Q :
  ¬ P → (∃ h', m2 h = Done (res, h') ∧ Q h') →
  ∃ h', (if decide P then m1 else m2) h = Done (res, h') ∧ Q h'.
Proof. intros HP. by rewrite decide_False. Qed.

Lemma step_if_bind_true (P : Prop) `{Decision P} (m1 m2 : M A) (k : A → M B) h res Q :
  P → (∃ h', (m1 ≫= k) h = Done (res, h') ∧ Q h') →
  ∃ h', ((if decide P then m1 else m2) ≫= k) h = Done (res, h') ∧ Q h'.
Proof. intros HP. by rewrite decide_True. Qed.

Lemma step_assoc {C} (m : M C) (f : C → M A) (k : A → M B) h res Q :
  (∃ h', (m ≫= λ c, f c ≫= k) h = Done (res, h') ∧ Q h') →
  ∃ h', ((m ≫= f) ≫= k) h = Done (res, h') ∧ Q h'.
Proof.
  intros (h' & Hk & HQ). exists h'. split; [|done].
  revert Hk. unfold mbind, M_bind. by destruct (m h) as [[]| |].
Qed.

End Steps.

Ltac open_holds HH :=
  let HND := fresh "HND" in
  let Hrepr := fresh "Hrepr" in
  let Hcx := fresh "Hcx" in
  let Ht := fresh "Ht" in
  pose proof (holds_NoDup _ _ _ HH) as HND;
  pose proof (proj1 HH) as Hrepr;
  rewrite labels_plug in HND; simpl in HND;
  apply repr_plug in Hrepr as (Hcx & Ht);
  simpl in Hcx, Ht; unfold RBSpec.frameNode in *; simpl in Hcx, Ht;
  destruct_and?; nd_facts.

Ltac close_holds HH :=
  let Hl := fresh in let Hr := fresh in
  destruct HH as (_ & Hr & Hl);
  unfold RBSpec.holds; split_and!;
  [ apply repr_plug; simpl; solve_repr
  | rewrite ?rootRef_plug; first [done | rewrite <- Hr, ?rootRef_plug; done]
  | rewrite ?length_insert; try (rewrite <- Hl; rewrite !labels_plug; by list_norm) ].

Ltac fwd :=
  repeat first
    [ eapply step_bind; [ solve [run] | rsimpl ]
    | eapply step_if_true; [ reflexivity | ]
    | eapply step_if_false; [ hneq | ] ].

Section RBFix.
Import JS RedBlackTree RBSpec.
Local Open Scope nat_scope.
Implicit Types (h : list RedBlackNode) (t l r : bt nat) (cx : list frame).

Lemma repr_isRed h par t :
  repr h par t →
  isRed (rootRef t) h
  = Done (match colorAt t with RED => true | BLACK => false end, h).
Proof.
  destruct t as [|i c l v r]; simpl; [done|]. intros (Hi & _).
  unfold isRed. eapply run_bind; [by eapply run_read|]. by destruct c.
Qed.

(** Case A: the uncle is RED. *)
Lemma rb_fixBody_red h root ps pi pc pv psib gs gi gc gv u ul uv ur rest z zc zl zv zr :
  let t := T z zc zl zv zr in
  let p := Frame ps pi pc pv psib in
  let g := Frame gs gi gc gv (T u RED ul uv ur) in
  holds h root (plug (p :: g :: rest) t) →
  let cx' := (fixBodyT (p :: g :: rest) t).1 in
  let t' := (fixBodyT (p :: g :: rest) t).2 in
  ∃ h', fixBody root (Some z) h = Done ((rootRef (plug cx' t'), rootRef t'), h')
        ∧ (holds h' (rootRef (plug cx' t')) (plug cx' t') ∧ length h' = length h).
Proof.
  intros t p g HH cx' t'.
  assert (Hr: rootRef (plug cx' t') = root).
  { destruct HH as (_ & <- & _). unfold cx', t'; simpl.
    rewrite !rootRef_plug, !rootRef_plug1. by destruct gs. }
  rewrite Hr.
  destruct gs, ps; simpl in *; open_holds HH;
    unfold fixBody, grandparent, isRed; fwd;
    (eapply step_ret; split; [|by rewrite ?length_insert]);
    subst cx' t'; simpl; close_holds HH.
Qed.

Ltac call_rot lem HH tree :=
  lazymatch goal with
  | |- ∃ h', (_ ?r _ ≫= _) ?hcur = _ ∧ _ =>
      let HH2 := fresh "HH" in
      assert (HH2 : holds hcur r tree) by close_holds HH;
      let h3 := fresh "h" in
      let Hrun3 := fresh "Hrun" in
      let HH3 := fresh "HH" in
      let Hlen3 := fresh "Hlen" in
      destruct (lem _ _ _ _ _ _ _ _ _ _ _ _ HH2) as (h3 & Hrun3 & HH3 & Hlen3);
      eapply step_bind; [exact Hrun3|]; eapply step_ret;
      split; [exact HH3|by rewrite Hlen3, ?length_insert]
  end.

(** Cases B and C: the uncle is BLACK or absent. *)
Lemma rb_fixBody_black h root ps pi pc pv psib gs gi gc gv U rest z zc zl zv zr :
  let t := T z zc zl zv zr in
  let p := Frame ps pi pc pv psib in
  let g := Frame gs gi gc gv U in
  colorAt U = BLACK →
  holds h root (plug (p :: g :: rest) t) →
  let cx' := (fixBodyT (p :: g :: rest) t).1 in
  let t' := (fixBodyT (p :: g :: rest) t).2 in
  ∃ h', fixBody root (Some z) h = Done ((rootRef (plug cx' t'), rootRef t'), h')
        ∧ (holds h' (rootRef (plug cx' t')) (plug cx' t') ∧ length h' = length h).
Proof.
  intros t p g Hc HH cx' t'.
  assert (HU : isRed (rootRef U) h = Done (false, h)).
  { destruct HH as (Hrepr & _). apply repr_plug in Hrepr as (Hcx & _).
    simpl in Hcx. destruct Hcx as (_ & _ & _ & HU & _).
    rewrite (repr_isRed _ _ _ HU). simpl. by rewrite Hc. }
  subst cx' t'. unfold fixBodyT. simpl. rewrite Hc.
  unfold fixBody, grandparent.
  destruct gs, ps; simpl in *.
  - (* left, left *)
    open_holds HH. fwd.
    call_rot rb_rightRotate_holds HH
      (plug rest (T gi RED (T pi BLACK t pv psib) gv U)).
  - (* left, right *)
    destruct (rb_leftRotate_holds h root (Frame L gi gc gv U :: rest)
                pi pc psib pv z zc zl zv zr HH)
      as (h1 & Hrun1 & HH1 & Hlen1).
    simpl in Hrun1, HH1.
    open_holds HH. fwd.
    eapply step_if_bind_true; [done|]. eapply step_assoc.
    eapply step_bind; [exact Hrun1|]. rsimpl.
    clear - HH1 Hlen1. open_holds HH1. fwd.
    rewrite <- Hlen1.
    call_rot rb_rightRotate_holds HH1
      (plug rest (T gi RED (T z BLACK (T pi pc psib pv zl) zv zr) gv U)).
  - (* right, left *)
    destruct (rb_rightRotate_holds h root (Frame R gi gc gv U :: rest)
                z zc zl zv pi pc zr pv psib HH)
      as (h1 & Hrun1 & HH1 & Hlen1).
    simpl in Hrun1, HH1.
    open_holds HH. fwd.
    eapply step_if_bind_true; [done|]. eapply step_assoc.
    eapply step_bind; [exact Hrun1|]. rsimpl.
    clear - HH1 Hlen1. open_holds HH1. fwd.
    rewrite <- Hlen1.
    call_rot rb_leftRotate_holds HH1
      (plug rest (T gi RED U gv (T z BLACK zl zv (T pi pc zr pv psib)))).
  - (* right, right *)
    open_holds HH. fwd.
    call_rot rb_leftRotate_holds HH
      (plug rest (T gi RED U gv (T pi BLACK psib pv t))).
Qed.

End RBFix.

(** ** Red-Black trees: colours and black heights *)

Section RBColours.
Import JS RedBlackTree RBSpec.
Local Open Scope nat_scope.
Context {A : Type}.
Implicit Types (t l r : bt A).

Lemma noRedRed_T (a : A) c l v r :
  noRedRed (T a c l v r) = true ↔
  (c = RED → colorAt l = BLACK ∧ colorAt r = BLACK)
  ∧ noRedRed l = true ∧ noRedRed r = true.
Proof.
  simpl. rewrite !andb_true_iff. destruct c.
  - rewrite andb_true_iff, !bool_decide_eq_true. tauto.
  - intuition congruence.
Qed.

Lemma hasBH_blackHeight t n : hasBH t n ↔ blackHeight t = Some n.
Proof.
  revert n. induction t as [|a c l IHl v r IHr]; intros n; simpl.
  - split; [by intros ->|by intros [= <-]].
  - destruct c; [|destruct n as [|n]]; rewrite ?IHl, ?IHr;
      destruct (blackHeight l) as [nl|], (blackHeight r) as [nr|];
      try destruct (Nat.eqb_spec nl nr); intuition congruence.
Qed.

Lemma noRedRed_paint t : noRedRed t = true → noRedRed (paint BLACK t) = true.
Proof.
  destruct t as [|a c l v r]; [done|]. unfold paint.
  rewrite !noRedRed_T. intuition discriminate.
Qed.

Lemma hasBH_paint t n : hasBH t n → ∃ m, hasBH (paint BLACK t) m.
Proof. destruct t as [|a [] l v r]; simpl; [eauto| |eauto]. by exists (S n). Qed.

Lemma rb_paint_isRedBlack t n :
  noRedRed t = true → hasBH t n → isRedBlack (paint BLACK t).
Proof.
  intros Hr Hb. split_and!.
  - by destruct t.
  - by apply noRedRed_paint.
  - destruct (hasBH_paint _ _ Hb) as (m & Hm).
    apply hasBH_blackHeight in Hm. by rewrite Hm.
Qed.

Lemma colorAt_erase t : colorAt (erase t) = colorAt t.
Proof. by destruct t. Qed.

Lemma noRedRed_erase t : noRedRed (erase t) = noRedRed t.
Proof.
  induction t as [|a c l IHl v r IHr]; simpl; [done|].
  by rewrite IHl, IHr, !colorAt_erase.
Qed.

Lemma blackHeight_erase t : blackHeight (erase t) = blackHeight t.
Proof.
  induction t as [|a c l IHl v r IHr]; simpl; [done|]. by rewrite IHl, IHr.
Qed.

Lemma isRedBlack_erase t : isRedBlack (erase t) ↔ isRedBlack t.
Proof.
  unfold isRedBlack. by rewrite colorAt_erase, noRedRed_erase, blackHeight_erase.
Qed.

Lemma keys_erase t : keys (erase t) = keys t.
Proof. induction t as [|a c l IHl v r IHr]; simpl; [done|]. by rewrite IHl, IHr. Qed.

Lemma shapeOf_jsonOf t : shapeOf (jsonOf t) = erase t.
Proof.
  induction t as [|a c l IHl v r IHr]; simpl; [done|].
  rewrite IHl, IHr. by destruct c.
Qed.

Lemma inorder_jsonOf t : JS.inorder (jsonOf t) = keys t.
Proof.
  induction t as [|a c l IHl v r IHr]; simpl; [done|]. by rewrite IHl, IHr.
Qed.

Lemma mentions_jsonOf t : JS.mentions "parent" (jsonOf t) = false.
Proof.
  induction t as [|a c l IHl v r IHr]; simpl; [done|]. by rewrite IHl, IHr.
Qed.

Lemma keys_nodes t : keys t = (nodes t).*2.
Proof.
  induction t as [|a c l IHl v r IHr]; simpl; [done|].
  by rewrite fmap_app, fmap_cons, IHl, IHr.
Qed.

Lemma labels_nodes t : labels t = (nodes t).*1.
Proof.
  induction t as [|a c l IHl v r IHr]; simpl; [done|].
  by rewrite fmap_app, fmap_cons, IHl, IHr.
Qed.

Lemma nodes_paint c t : nodes (paint c t) = nodes t.
Proof. by destruct t. Qed.

End RBColours.

Section RBFixPure.
Import JS RedBlackTree RBSpec.
Local Open Scope nat_scope.
Implicit Types (t l r : bt nat) (cx : list frame).

Lemma okSub_T n i c l v r :
  okSub n (T i c l v r) ↔
  (c = RED → colorAt l = BLACK ∧ colorAt r = BLACK)
  ∧ noRedRed l = true ∧ noRedRed r = true
  ∧ match c with
    | RED => hasBH l n ∧ hasBH r n
    | BLACK => match n with O => False | S m => hasBH l m ∧ hasBH r m end
    end.
Proof. unfold okSub. rewrite noRedRed_T. simpl. tauto. Qed.

Lemma okSub_plug1 n f t :
  okSub n (plug1 f t) ↔
  (fcolor f = RED → colorAt t = BLACK ∧ colorAt (fsib f) = BLACK)
  ∧ noRedRed t = true ∧ noRedRed (fsib f) = true
  ∧ match fcolor f with
    | RED => hasBH t n ∧ hasBH (fsib f) n
    | BLACK => match n with O => False | S m => hasBH t m ∧ hasBH (fsib f) m end
    end.
Proof.
  unfold plug1. destruct (fside f); rewrite okSub_T;
    destruct (fcolor f); try destruct n; tauto.
Qed.

(** One more turn of the loop keeps the tree with a hole well coloured and
    either climbs two levels or leaves a BLACK parent. *)
Lemma rb_fixBodyT_ok n cx t :
  ctxOk n cx → colorAt t = RED → okSub n t → fixCondT cx = true →
  ∃ n', ctxOk n' (fixBodyT cx t).1
        ∧ colorAt (fixBodyT cx t).2 = RED
        ∧ okSub n' (fixBodyT cx t).2
        ∧ (length (fixBodyT cx t).1 + 2 = length cx
           ∨ fixCondT (fixBodyT cx t).1 = false).
Proof.
  intros Hcx Hc Ht Hcond.
  destruct cx as [|[ps pi pc pv psib] [|[gs gi gc gv U] rest]]; [done| |].
  { simpl in *. apply bool_decide_eq_true in Hcond as ->. simpl in Hcx. tauto. }
  simpl in Hcond. apply bool_decide_eq_true in Hcond as ->.
  simpl in Hcx. destruct Hcx as (Hps & HpB & -> & HU & Hrest).
  destruct t as [|z zc zl zv zr]; [done|]. simpl in Hc. subst zc.
  apply okSub_T in Ht as (Hzc & Hzl & Hzr & Hzl' & Hzr').
  destruct (Hzc eq_refl) as [Hzlc Hzrc].
  destruct Hps as [Hps1 Hps2], HU as [HU1 HU2].
  unfold fixBodyT. simpl.
  destruct (colorAt U) eqn:EU.
  - (* uncle RED *)
    exists (S n). simpl. split; [done|split; [|split; [|left; lia]]].
    + unfold plug1; by destruct gs.
    + apply okSub_plug1. simpl.
      destruct U as [|u uc ul uv ur]; [done|]. simpl in EU; subst uc.
      apply noRedRed_T in HU1. simpl in HU2.
      destruct ps;
        cbn [plug1 repaint paint fside fid fcolor fval fsib colorAt hasBH];
        rewrite !noRedRed_T; intuition congruence.
  - (* uncle BLACK *)
    exists n. destruct (decide (ps = gs)) as [->|Hne]; simpl.
    + split; [|split; [done|split; [|by right]]].
      * split; [|done]. apply okSub_plug1. simpl. intuition congruence.
      * apply okSub_T. intuition congruence.
    + split; [|split; [|split; [|by right]]].
      * split; [|done]. apply okSub_plug1. simpl.
        destruct gs; simpl; intuition congruence.
      * unfold plug1; by destruct ps.
      * apply okSub_plug1. simpl. destruct gs; simpl; intuition congruence.
Qed.

(** When the loop stops, the whole tree is well coloured but for its root. *)
Lemma rb_plug_ok cx : ∀ n t,
  ctxOk n cx → okSub n t → fixCondT cx = false ∨ colorAt t = BLACK →
  noRedRed (plug cx t) = true ∧ ∃ m, hasBH (plug cx t) m.
Proof.
  induction cx as [|f rest IH]; intros n t Hcx Ht Hc; simpl.
  - destruct Ht. eauto.
  - simpl in Hcx. destruct Hcx as ((Hs1 & Hs2) & Hcx). destruct Ht as [Ht1 Ht2].
    assert (Hc' : fcolor f = RED → colorAt t = BLACK).
    { intros Hf. destruct Hc as [Hc|Hc]; [|done].
      simpl in Hc. by rewrite Hf in Hc. }
    destruct (fcolor f) eqn:Ef.
    + destruct Hcx as (Hsc & Hg & Hcx).
      apply (IH n); [done| |].
      * apply okSub_plug1. rewrite Ef. auto.
      * left. destruct rest as [|g rest]; [done|]. simpl. by rewrite Hg.
    + apply (IH (S n)); [done| |].
      * apply okSub_plug1. rewrite Ef. intuition congruence.
      * right. unfold plug1. destruct (fside f); simpl; done.
Qed.

Lemma rb_fixBodyT_nodes cx t :
  t ≠ E → nodes (plug (fixBodyT cx t).1 (fixBodyT cx t).2) = nodes (plug cx t).
Proof.
  intros Ht. destruct cx as [|[ps pi pc pv psib] [|[gs gi gc gv U] rest]]; [done..|].
  unfold fixBodyT.
  cbn [fside fid fcolor fval fsib].
  destruct (colorAt U).
  - cbn [fst snd plug]. rewrite !nodes_plug. f_equal. f_equal.
    unfold plug1, repaint; destruct gs, ps; simpl; by rewrite ?nodes_paint.
  - destruct (decide (ps = gs)) as [->|Hne].
    + cbn [fst snd plug]. rewrite !nodes_plug. f_equal. f_equal.
      unfold plug1; destruct gs; simpl; by list_norm.
    + destruct t as [|z zc zl zv zr]; [done|].
      cbn [fst snd plug]; rewrite !nodes_plug; f_equal; f_equal.
      unfold plug1; destruct gs, ps; try done; simpl; by list_norm.
Qed.

Lemma rb_fixBodyT_focus cx t :
  t ≠ E → (fixBodyT cx t).2 ≠ E.
Proof.
  destruct cx as [|[ps pi pc pv psib] [|[gs gi gc gv U] rest]]; [done..|].
  unfold fixBodyT. cbn [fside fid fcolor fval fsib].
  destruct (colorAt U).
  - cbn [snd]. unfold plug1. by destruct gs.
  - destruct (decide (ps = gs)); [done|].
    destruct t; [done|]. cbn [snd]. unfold plug1. by destruct ps.
Qed.

(** The walk down: the path it leaves, and what hanging a RED leaf there does. *)
Lemma path_plug v t : ∀ acc, plug (path v t acc) E = plug acc t.
Proof.
  induction t as [|i c l IHl x r IHr]; intros acc; simpl; [done|].
  destruct (v <? x)%Z; [rewrite IHl|rewrite IHr]; done.
Qed.

Lemma path_ok v t : ∀ acc m,
  okSub m t → ctxOk m acc →
  (colorAt t = RED → match acc with f :: _ => fcolor f = BLACK | [] => False end) →
  ctxOk 0 (path v t acc).
Proof.
  induction t as [|i c l IHl x r IHr]; intros acc m Ht Hacc Hc; simpl.
  - destruct Ht as [_ Ht]. simpl in Ht. by subst m.
  - apply okSub_T in Ht as (Hcc & Hl & Hr & Hb).
    destruct c; [destruct (Hcc eq_refl) as [Hlc Hrc]; specialize (Hc eq_refl)
                |destruct m as [|m]; [done|]];
      destruct Hb as [Hbl Hbr]; destruct (v <? x)%Z.
    + apply (IHl _ m); [by split| |by rewrite Hlc].
      simpl. split; [by split|]. split; [done|]. split; [|done]. by destruct acc.
    + apply (IHr _ m); [by split| |by rewrite Hrc].
      simpl. split; [by split|]. split; [done|]. split; [|done]. by destruct acc.
    + apply (IHl _ m); [by split| |done]. simpl. split; [by split|done].
    + apply (IHr _ m); [by split| |done]. simpl. split; [by split|done].
Qed.

Lemma placeNode_app_lt x y (xs ys : list (nat * Z)) :
  (x.2 < y.2)%Z → placeNode x (xs ++ y :: ys) = placeNode x xs ++ y :: ys.
Proof.
  intros Hv. induction xs as [|a xs IH]; simpl.
  - by rewrite (proj2 (Z.ltb_lt _ _) Hv).
  - destruct (x.2 <? a.2)%Z; simpl; congruence.
Qed.

Lemma placeNode_app_ge x y (xs ys : list (nat * Z)) :
  (y.2 ≤ x.2)%Z → Forall (λ a, (a.2 ≤ x.2)%Z) xs →
  placeNode x (xs ++ y :: ys) = xs ++ y :: placeNode x ys.
Proof.
  intros Hv Hl. induction Hl as [|a xs Ha Hl IH]; simpl.
  - by rewrite (proj2 (Z.ltb_ge _ _) Hv).
  - rewrite (proj2 (Z.ltb_ge _ _) Ha). congruence.
Qed.

Lemma placeNode_keys x (xs : list (nat * Z)) :
  (placeNode x xs).*2 = place x.2 xs.*2.
Proof.
  induction xs as [|a xs IH]; [done|].
  rewrite fmap_cons. simpl. destruct (x.2 <? a.2)%Z; [done|].
  by rewrite fmap_cons, IH.
Qed.

Lemma path_nodes z v t : ∀ acc,
  StronglySorted Z.le (keys t) →
  before (path v t acc) ++ (z, v) :: behind (path v t acc)
  = before acc ++ placeNode (z, v) (nodes t) ++ behind acc.
Proof.
  induction t as [|i c l IHl x r IHr]; intros acc Hs; simpl; [done|].
  simpl in Hs. apply StronglySorted_app in Hs as (Hlr & Hl & Hr).
  apply StronglySorted_cons in Hr as [Hxr Hr].
  destruct (v <? x)%Z eqn:E.
  - apply Z.ltb_lt in E. rewrite IHl by done. simpl.
    rewrite placeNode_app_lt by done. by list_norm.
  - apply Z.ltb_ge in E. rewrite IHr by done. simpl.
    rewrite placeNode_app_ge; [by list_norm|done|].
    apply Forall_forall. intros a Ha. simpl.
    assert (a.2 ∈ keys l) as Ha'.
    { rewrite keys_nodes. apply list_elem_of_fmap. eauto. }
    assert (a.2 ≤ x)%Z; [|lia]. apply (Hlr _ x Ha'). by left.
Qed.

End RBFixPure.


(** ** Red-Black trees: the fix-up loop *)

Section RBLoop.
Import JS RedBlackTree RBSpec.
Local Open Scope nat_scope.
Implicit Types (h : list RedBlackNode) (t l r : bt nat) (cx : list frame).

Lemma run_bind_eq {A B} (m : M A) (k : A → M B) h a h1 :
  m h = Done (a, h1) → (m ≫= k) h = k a h1.
Proof. unfold mbind, M_bind. by intros ->. Qed.

Lemma rb_fixBody_holds h root p g rest z zc zl zv zr :
  let t := T z zc zl zv zr in
  holds h root (plug (p :: g :: rest) t) →
  let cx' := (fixBodyT (p :: g :: rest) t).1 in
  let t' := (fixBodyT (p :: g :: rest) t).2 in
  ∃ h', fixBody root (Some z) h = Done ((rootRef (plug cx' t'), rootRef t'), h')
        ∧ (holds h' (rootRef (plug cx' t')) (plug cx' t') ∧ length h' = length h).
Proof.
  destruct p as [ps pi pc pv psib], g as [gs gi gc gv [|u [] ul uv ur]].
  - by apply rb_fixBody_black.
  - by apply rb_fixBody_red.
  - by apply rb_fixBody_black.
Qed.

Lemma rb_fixCond_holds h root cx z zc zl zv zr :
  holds h root (plug cx (T z zc zl zv zr)) →
  fixCond (Some z) h = Done (fixCondT cx, h).
Proof.
  intros HH. pose proof (holds_lookup _ _ _ _ _ _ _ _ HH) as Hz.
  unfold fixCond. eapply run_bind; [by eapply run_read|]. simpl.
  destruct cx as [|p rest]; [done|].
  destruct HH as (Hrepr & _). apply repr_plug in Hrepr as (Hcx & _).
  simpl in Hcx. destruct Hcx as (Hp & _).
  unfold isRed. simpl. eapply run_bind; [by eapply run_read|].
  unfold frameNode. destruct (fside p), (fcolor p); done.
Qed.

Lemma rb_fixLoop_holds fuel : ∀ cx t h root n,
  holds h root (plug cx t) → colorAt t = RED → okSub n t → ctxOk n cx →
  length cx < 2 * fuel ∨ (fixCondT cx = false ∧ 0 < fuel) →
  ∃ h' cx' t' n',
    fixLoop fuel root (rootRef t) h = Done (rootRef (plug cx' t'), h')
    ∧ holds h' (rootRef (plug cx' t')) (plug cx' t')
    ∧ length h' = length h
    ∧ nodes (plug cx' t') = nodes (plug cx t)
    ∧ ctxOk n' cx' ∧ okSub n' t' ∧ colorAt t' = RED ∧ fixCondT cx' = false.
Proof.
  induction fuel as [|fuel IH]; intros cx t h root n HH Hc Ht Hcx Hfuel.
  { destruct Hfuel as [?|[_ ?]]; lia. }
  destruct t as [|z zc zl zv zr]; [done|].
  simpl. rewrite (run_bind_eq _ _ _ _ _ (rb_fixCond_holds _ _ _ _ _ _ _ _ HH)).
  destruct (fixCondT cx) eqn:Econd.
  - (* one more turn *)
    destruct cx as [|p [|g rest]]; [done| |].
    { simpl in Econd. apply bool_decide_eq_true in Econd.
      simpl in Hcx. rewrite Econd in Hcx. tauto. }
    destruct (rb_fixBody_holds _ _ _ _ _ _ _ _ _ _ HH) as (h1 & Hrun & HH1 & Hlen1).
    destruct (rb_fixBodyT_ok _ _ _ Hcx Hc Ht Econd)
      as (n1 & Hcx1 & Hc1 & Ht1 & Hprog).
    pose proof (rb_fixBodyT_nodes (p :: g :: rest) (T z zc zl zv zr)) as Hn.
    destruct (fixBodyT (p :: g :: rest) (T z zc zl zv zr)) as [cx1 t1].
    simpl in Hrun, HH1, Hcx1, Hc1, Ht1, Hprog, Hn.
    rewrite (run_bind_eq _ _ _ _ _ Hrun).
    destruct (IH cx1 t1 h1 _ n1 HH1 Hc1 Ht1 Hcx1)
      as (h' & cx' & t' & n' & Hrun' & HH' & Hlen' & Hn' & Hok').
    { destruct Hprog as [Hprog|Hprog].
      - left. destruct Hfuel as [?|[? _]]; [simpl in *; lia|congruence].
      - right. split; [done|]. destruct Hfuel as [?|[? _]]; [simpl in *; lia|congruence]. }
    exists h', cx', t', n'. split; [done|]. split; [done|].
    split; [congruence|]. split; [|done]. rewrite Hn'. by apply Hn.
  - (* the loop stops *)
    exists h, cx, (T z zc zl zv zr), n. destruct HH as (Hr & Hroot & Hp).
    split; [by rewrite Hroot|]. split; [by rewrite Hroot|]. done.
Qed.

Lemma plug_T cx i c l v r : ∃ i' c' l' v' r', plug cx (T i c l v r) = T i' c' l' v' r'.
Proof.
  revert i c l v r. induction cx as [|f rest IH]; intros i c l v r; simpl; [eauto 10|].
  unfold plug1. destruct (fside f); apply IH.
Qed.

Lemma rb_fixInsert_holds fuel cx t h root n :
  holds h root (plug cx t) → colorAt t = RED → okSub n t → ctxOk n cx →
  length cx < 2 * fuel →
  ∃ h' w,
    fixInsert fuel root (rootRef t) h = Done (rootRef w, h')
    ∧ holds h' (rootRef w) w
    ∧ length h' = length h
    ∧ nodes w = nodes (plug cx t)
    ∧ isRedBlack w.
Proof.
  intros HH Hc Ht Hcx Hfuel.
  destruct (rb_fixLoop_holds fuel cx t h root n HH Hc Ht Hcx (or_introl Hfuel))
    as (h1 & cx1 & t1 & n1 & Hrun & HH1 & Hlen1 & Hn1 & Hcx1 & Ht1 & Hc1 & Hcond1).
  destruct (rb_plug_ok cx1 n1 t1 Hcx1 Ht1 (or_introl Hcond1)) as (Hrr & m & Hbh).
  destruct t1 as [|z1 zc1 zl1 zv1 zr1]; [done|].
  destruct (plug_T cx1 z1 zc1 zl1 zv1 zr1) as (i & c & l & v & r & Ew).
  rewrite Ew in *.
  exists (<[i := mkNode v (rootRef l) (rootRef r) None BLACK]> h1), (T i BLACK l v r).
  change (T i c l v r) with (plug [] (T i c l v r)) in HH1.
  split; [|split; [|split; [|split]]].
  - unfold fixInsert. eapply run_bind; [exact Hrun|]. simpl.
    open_holds HH1. eapply run_bind; [run|]. done.
  - open_holds HH1.
    change (T i BLACK l v r) with (plug [] (T i BLACK l v r)).
    close_holds HH1.
  - by rewrite length_insert.
  - by rewrite <- Hn1.
  - by apply (rb_paint_isRedBlack (T i c l v r) m).
Qed.

End RBLoop.


(** ** Red-Black trees: hanging the new node *)

Section RBAttach.
Import JS RedBlackTree RBSpec.
Local Open Scope nat_scope.
Implicit Types (h : list RedBlackNode) (t l r : bt nat) (cx : list frame).

Lemma repr_snoc h par t n : repr h par t → repr (h ++ [n]) par t.
Proof.
  intros Hr. eapply repr_ext; [|done]. intros i Hi.
  apply lookup_app_l. by eapply repr_lt.
Qed.

Lemma path_side v t : ∀ acc,
  Forall (λ f, fside f = if (v <? fval f)%Z then L else R) acc →
  Forall (λ f, fside f = if (v <? fval f)%Z then L else R) (path v t acc).
Proof.
  induction t as [|i c l IHl x r IHr]; intros acc Hacc; simpl; [done|].
  destruct (v <? x)%Z eqn:Ev; [apply IHl|apply IHr];
    (constructor; [simpl; by rewrite Ev|done]).
Qed.

Lemma path_length v t : ∀ acc, length (path v t acc) ≤ length acc + length (labels t).
Proof.
  induction t as [|i c l IHl x r IHr]; intros acc; simpl; [lia|].
  rewrite length_app. simpl.
  destruct (v <? x)%Z; [etrans; [apply IHl|]|etrans; [apply IHr|]]; simpl; lia.
Qed.

Lemma path_nil v t acc : path v t acc = [] → t = E ∧ acc = [].
Proof.
  intros Hp. pose proof (path_length v t acc) as Hl.
  destruct t as [|i c l x r]; [done|]. exfalso. revert Hp. simpl.
  assert (∀ t' acc', acc' ≠ [] → path v t' acc' ≠ []) as Hne.
  { clear. induction t' as [|i c l IHl x r IHr]; intros acc' Hacc; simpl; [done|].
    destruct (v <? x)%Z; [apply IHl|apply IHr]; done. }
  destruct (v <? x)%Z; by apply Hne.
Qed.

Lemma rb_descend_holds h z nz v t : ∀ acc fuel,
  repr h None (plug acc t) → h !! z = Some nz → value nz = v →
  length (labels t) < fuel →
  descend fuel (Some z) (ctxParent acc) (rootRef t) h
  = Done (ctxParent (path v t acc), h).
Proof.
  induction t as [|i c l IHl x r IHr]; intros acc fuel Hr Hz Hv Hfuel; simpl.
  { by destruct fuel. }
  simpl in Hfuel. rewrite length_app in Hfuel. simpl in Hfuel.
  destruct fuel as [|fuel]; [lia|].
  pose proof Hr as Hi. apply repr_plug in Hi as (_ & Hi & _).
  eapply run_bind; [by eapply run_read|]. rewrite Hv.
  eapply run_bind; [by eapply run_read|]. simpl.
  destruct (v <? x)%Z.
  - eapply run_bind; [by eapply run_read|]. simpl.
    apply (IHl (Frame L i c x r :: acc)); [done..|lia].
  - eapply run_bind; [by eapply run_read|]. simpl.
    apply (IHr (Frame R i c x l :: acc)); [done..|lia].
Qed.

Lemma rb_attach_holds h root t v :
  holds h root t →
  let leaf := T (length h) RED E v E in
  let cx := path v t [] in
  ∃ h', attach root v h = Done ((rootRef (plug cx leaf), Some (length h)), h')
        ∧ holds h' (rootRef (plug cx leaf)) (plug cx leaf)
        ∧ length h' = S (length h).
Proof.
  intros HH leaf cx.
  set (z := length h) in *.
  set (nz := mkNode v None None None RED).
  assert (Hz : (h ++ [nz]) !! z = Some nz) by (by apply list_lookup_middle).
  assert (Ht : plug cx E = t) by apply path_plug.
  pose proof HH as (Hrepr & Hroot & Hperm).
  assert (Hfresh : z ∉ labels t).
  { intros Hin. pose proof (repr_lt _ _ _ _ Hrepr Hin). unfold z in *. lia. }
  assert (HND : NoDup (z :: labels (plug cx E))).
  { rewrite Ht. apply NoDup_cons. split; [done|]. by eapply holds_NoDup. }
  assert (Hlab : labels (plug cx leaf) ≡ₚ seq 0 (S (length h))).
  { rewrite seq_S, <- Hperm, <- Ht, !labels_plug. simpl.
    rewrite (Permutation_app_comm _ [_]). simpl.
    by rewrite Permutation_middle. }
  assert (Hrt : rootRef (plug cx leaf)
                = match cx with [] => Some z | _ => root end).
  { rewrite <- Hroot, <- Ht, !rootRef_plug. destruct cx as [|f rest]; [done|].
    rewrite last_cons. by destruct (last rest). }
  assert (Hrepr1 : repr (h ++ [nz]) None (plug cx E)).
  { rewrite Ht. by apply repr_snoc. }
  assert (Hdesc : descend (S (length (h ++ [nz]))) (Some z) None root (h ++ [nz])
                  = Done (ctxParent cx, h ++ [nz])).
  { rewrite <- Hroot.
    apply (rb_descend_holds _ _ nz v t []); [by apply repr_snoc|done|done|].
    rewrite length_app, Hperm, length_seq. simpl. lia. }
  pose proof (path_side v t [] (Forall_nil_2 _)) as Hside. fold cx in Hside.
  rewrite Hrt. rewrite labels_plug in HND.
  apply repr_plug in Hrepr1 as (Hcx & _).
  clearbody cx. clear Ht Hrepr Hperm Hfresh HH. subst z leaf.
  unfold attach, new, loopBound.
  destruct cx as [|[fs yi fc fv sib] rest].
  - eexists. split; [|split].
    + eapply run_bind; [reflexivity|]. fold nz.
      eapply run_bind; [reflexivity|].
      eapply run_bind; [exact Hdesc|]. simpl. run.
    + unfold holds. split; [|split; [exact Hrt|by rewrite length_insert, length_app; simpl; rewrite Nat.add_1_r]].
      simpl. split; [|done]. hlookup.
    + rewrite length_insert, length_app. simpl. lia.
  - apply Forall_cons in Hside as [Hs _]. simpl in Hs.
    simpl in Hcx, HND. unfold frameNode in Hcx. simpl in Hcx.
    destruct_and?.
    destruct (v <? fv)%Z eqn:Ev; subst fs; simpl in *; nd_facts.
    + eexists. split; [|split].
      * eapply run_bind; [reflexivity|]. fold nz.
        eapply run_bind; [reflexivity|].
        eapply run_bind; [exact Hdesc|]. simpl.
        eapply run_bind; [run|]. rsimpl.
        eapply run_bind; [run|]. rsimpl.
        eapply run_bind; [run|]. unfold nz. rsimpl. rewrite Ev. run.
      * unfold holds. split; [|split; [exact Hrt|by rewrite !length_insert, length_app; simpl; rewrite Nat.add_1_r]].
        apply repr_plug. simpl. unfold frameNode. simpl. solve_repr.
      * rewrite !length_insert, length_app. simpl. lia.
    + eexists. split; [|split].
      * eapply run_bind; [reflexivity|]. fold nz.
        eapply run_bind; [reflexivity|].
        eapply run_bind; [exact Hdesc|]. simpl.
        eapply run_bind; [run|]. rsimpl.
        eapply run_bind; [run|]. rsimpl.
        eapply run_bind; [run|]. unfold nz. rsimpl. rewrite Ev. run.
      * unfold holds. split; [|split; [exact Hrt|by rewrite !length_insert, length_app; simpl; rewrite Nat.add_1_r]].
        apply repr_plug. simpl. unfold frameNode. simpl. solve_repr.
      * rewrite !length_insert, length_app. simpl. lia.
Qed.

End RBAttach.


(** ** Red-Black trees: one insertion, the snapshot, the recorder *)

Section RBInsert.
Import JS RedBlackTree RBSpec.
Local Open Scope nat_scope.
Implicit Types (h : list RedBlackNode) (t l r : bt nat) (cx : list frame).

Lemma placeNode_sorted x (xs : list (nat * Z)) :
  StronglySorted Z.le xs.*2 → StronglySorted Z.le (placeNode x xs).*2.
Proof. rewrite placeNode_keys. apply place_sorted. Qed.

Lemma rb_insert_holds h root t v :
  reachable h root t →
  ∃ h' t',
    redBlackInsert root v h = Done (rootRef t', h')
    ∧ reachable h' (rootRef t') t'
    ∧ length h' = S (length h)
    ∧ nodes t' = placeNode (length h, v) (nodes t).
Proof.
  intros (HH & (Hroot & Hrr & [m Hbh]) & Hsorted).
  destruct (rb_attach_holds h root t v HH) as (h1 & Hrun1 & HH1 & Hlen1).
  set (cx := path v t []) in *. set (leaf := T (length h) RED E v E) in *.
  assert (Hcx : ctxOk 0 cx).
  { apply (path_ok v t [] m); [|done|by rewrite Hroot].
    split; [done|]. by apply hasBH_blackHeight. }
  assert (Hleaf : okSub 0 leaf) by (by split).
  assert (Hfuel : length cx < 2 * S (length h1)).
  { pose proof (path_length v t []) as Hl. fold cx in Hl. simpl in Hl.
    destruct HH as (_ & _ & Hp). rewrite Hp, length_seq in Hl. lia. }
  destruct (rb_fixInsert_holds _ cx leaf h1 _ 0 HH1 eq_refl Hleaf Hcx Hfuel)
    as (h' & w & Hrun & HH' & Hlen' & Hn & Hrb).
  assert (Hnodes : nodes w = placeNode (length h, v) (nodes t)).
  { rewrite Hn, nodes_plug. subst cx leaf. simpl.
    rewrite (path_nodes (length h) v t [] Hsorted). simpl. by rewrite app_nil_r. }
  exists h', w. split; [|split; [|split]].
  - unfold redBlackInsert. eapply run_bind; [exact Hrun1|]. simpl.
    eapply run_bind; [reflexivity|]. exact Hrun.
  - split; [done|]. split; [done|].
    rewrite keys_nodes, Hnodes. apply placeNode_sorted. by rewrite <- keys_nodes.
  - lia.
  - done.
Qed.

Lemma stringify_num fuel h n : stringify fuel h (PNum n) = Done (JNum n).
Proof. by destruct fuel. Qed.
Lemma stringify_str fuel h s : stringify fuel h (PStr s) = Done (JStr s).
Proof. by destruct fuel. Qed.
Lemma stringify_null fuel h : stringify fuel h (PRef None) = Done JNull.
Proof. by destruct fuel. Qed.

Lemma rb_stringify h t : ∀ par fuel,
  repr h par t → length (labels t) < fuel →
  stringify fuel h (PRef (rootRef t)) = Done (jsonOf t).
Proof.
  induction t as [|i c l IHl v r IHr]; intros par fuel Hr Hfuel.
  { apply stringify_null. }
  simpl in Hfuel. rewrite length_app in Hfuel. simpl in Hfuel.
  destruct fuel as [|fuel]; [lia|].
  destruct Hr as (Hi & Hl & Hr).
  simpl. rewrite Hi. simpl.
  rewrite stringify_num, stringify_str.
  rewrite (IHl (Some i) fuel Hl) by lia.
  rewrite (IHr (Some i) fuel Hr) by lia. done.
Qed.

Lemma rb_cloneTree h root t :
  holds h root t → cloneTree root h = Done (jsonOf t, h).
Proof.
  intros (Hr & <- & Hp). unfold cloneTree.
  rewrite (rb_stringify h t None); [done|done|].
  rewrite Hp, length_seq. lia.
Qed.

Lemma reachable_empty : reachable [] None E.
Proof.
  split; [by split|]. split; [|constructor].
  split; [done|]. split; [done|]. by exists 0.
Qed.

(** The recorder: every snapshot is the copy of a reachable tree. *)
Lemma rb_forEach_holds vs : ∀ h root t steps,
  reachable h root t →
  ∃ h' t' new,
    forEach vs root steps h = Done ((rootRef t', steps ++ new), h')
    ∧ reachable h' (rootRef t') t'
    ∧ length new = length vs
    ∧ Forall (λ j, ∃ u : bt nat, j = jsonOf u ∧ isRedBlack u
                        ∧ StronglySorted Z.le (keys u)) new.
Proof.
  induction vs as [|v vs IH]; intros h root t steps HR.
  - exists h, t, []. destruct HR as ((? & <- & ?) & ?).
    rewrite app_nil_r. split; [done|]. split; [|done]. by split.
  - destruct (rb_insert_holds h root t v HR) as (h1 & t1 & Hrun1 & HR1 & Hlen1 & _).
    destruct (IH h1 _ t1 (steps ++ [jsonOf t1]) HR1)
      as (h' & t' & new & Hrun & HR' & Hlen & Hall).
    exists h', t', (jsonOf t1 :: new). split; [|split; [done|split]].
    + simpl. eapply run_bind; [exact Hrun1|].
      eapply run_bind; [apply rb_cloneTree, HR1|].
      rewrite Hrun. by rewrite <- app_assoc.
    + simpl. by rewrite Hlen.
    + constructor; [|done]. exists t1. destruct HR1 as (_ & ? & ?). done.
Qed.

End RBInsert.

(** ** The AVL recorder *)

Section AVLTrace.
Import JS AVLTree AVLSpec.

Lemma avl_toJSON_inorder t : JS.inorder (toJSON t) = inorder t.
Proof. induction t as [|v l IHl r IHr h]; simpl; [done|]. by rewrite IHl, IHr. Qed.

Lemma avl_toJSON_parent t : JS.mentions "parent" (toJSON t) = false.
Proof. induction t as [|v l IHl r IHr h]; simpl; [done|]. by rewrite IHl, IHr. Qed.

Lemma avl_insert_sorted t value t' :
  StronglySorted Z.le (inorder t) → avlInsert t value = Some t' →
  StronglySorted Z.le (inorder t').
Proof. intros Hs Hi. rewrite (avl_insert_inorder _ _ _ Hs Hi). by apply place_sorted. Qed.

(** The steps recorded so far are kept, and one step is added per value. *)
Lemma avl_forEach_extends values : ∀ root steps root' steps',
  forEach values root steps = Some (root', steps') →
  ∃ new, steps' = steps ++ new ∧ length new = length values
         ∧ current <$> new = values.
Proof.
  induction values as [|v values IH]; intros root steps root' steps' H; simpl in H.
  - injection H as <- <-. exists []. by rewrite app_nil_r.
  - destruct (avlInsert root v) as [r1|] eqn:E1; [|done]. simpl in H.
    destruct (IH _ _ _ _ H) as (new & -> & Hlen & Hcur).
    eexists (_ :: new). rewrite <- app_assoc. split; [done|].
    split; [simpl; by rewrite Hlen|]. by rewrite fmap_cons, Hcur.
Qed.

(** The tree built does not depend on the steps recorded before. *)
Lemma avl_forEach_root values : ∀ root steps1 steps2,
  fst <$> forEach values root steps1 = fst <$> forEach values root steps2.
Proof.
  induction values as [|v values IH]; intros root steps1 steps2; simpl; [done|].
  destruct (avlInsert root v) as [r1|]; [|done]. simpl. apply IH.
Qed.

(** Step [k] holds the copy of the tree as it was after [k + 1] insertions. *)
Lemma avl_forEach_lookup values : ∀ root steps root' steps' k s,
  forEach values root steps = Some (root', steps') →
  steps' !! (length steps + k)%nat = Some s →
  ∃ t, fst <$> forEach (take (S k) values) root [] = Some t ∧ tree s = toJSON t.
Proof.
  induction values as [|v values IH]; intros root steps root' steps' k s H Hk.
  - simpl in H. injection H as <- <-.
    apply lookup_lt_Some in Hk. lia.
  - simpl in H. destruct (avlInsert root v) as [r1|] eqn:E1; [|done]. simpl in H.
    destruct k as [|k].
    + destruct (avl_forEach_extends _ _ _ _ _ H) as (new & -> & _).
      rewrite Nat.add_0_r, <- app_assoc in Hk.
      rewrite lookup_app_r, Nat.sub_diag in Hk by done. injection Hk as <-.
      exists r1. simpl. rewrite E1. simpl. by destruct values.
    + destruct (IH r1 _ _ _ k s H) as (t & Ht & Hs).
      { rewrite length_app. simpl. by rewrite <- Hk, Nat.add_1_r, Nat.add_succ_comm. }
      exists t. split; [|done]. simpl take. simpl forEach. rewrite E1. simpl.
      by rewrite (avl_forEach_root _ _ _ []).
Qed.

(** Whatever [avlInsert] preserves holds of the tree at the end. *)
Lemma avl_forEach_inv (P : AVLNode → Prop) :
  (∀ t v t', P t → avlInsert t v = Some t' → P t') →
  ∀ values root steps root' steps',
    P root → forEach values root steps = Some (root', steps') → P root'.
Proof.
  intros HP. induction values as [|v values IH]; intros root steps root' steps' H0 H.
  - simpl in H. by injection H as <- <-.
  - simpl in H. destruct (avlInsert root v) as [r1|] eqn:E1; [|done]. simpl in H.
    eapply IH; [|done]. eauto.
Qed.

Lemma avl_insertAll_inv (P : AVLNode → Prop) values t :
  P Null → (∀ t v t', P t → avlInsert t v = Some t' → P t') →
  insertAll values = Some t → P t.
Proof.
  unfold insertAll. intros H0 HP H.
  destruct (forEach values Null []) as [[root steps]|] eqn:E; [|done].
  injection H as <-. by eapply (avl_forEach_inv P HP).
Qed.

Lemma avl_insertAll_sorted values t :
  insertAll values = Some t → StronglySorted Z.le (inorder t).
Proof.
  apply (avl_insertAll_inv (λ t, StronglySorted Z.le (inorder t))).
  - constructor.
  - intros. by eapply avl_insert_sorted.
Qed.

End AVLTrace.

(** ** The Red-Black recorder *)

Section RBTrace.
Import JS RedBlackTree RBSpec.
Local Open Scope nat_scope.
Implicit Types (h : list RedBlackNode) (t l r : bt nat) (cx : list frame).

Lemma rb_readTree h t : ∀ par fuel,
  repr h par t → length (labels t) < fuel → readTree fuel h (rootRef t) = Some t.
Proof.
  induction t as [|i c l IHl v r IHr]; intros par fuel Hr Hfuel.
  { by destruct fuel. }
  simpl in Hfuel. rewrite length_app in Hfuel. simpl in Hfuel.
  destruct fuel as [|fuel]; [lia|].
  destruct Hr as (Hi & Hl & Hr). simpl. rewrite Hi. simpl.
  rewrite (IHl (Some i) fuel Hl) by lia. simpl.
  rewrite (IHr (Some i) fuel Hr) by lia. done.
Qed.

Lemma rb_liveTree h root t : holds h root t → liveTree h root = Some t.
Proof.
  intros (Hr & <- & Hp). unfold liveTree.
  apply (rb_readTree h t None); [done|]. rewrite Hp, length_seq. lia.
Qed.

Lemma rb_depthOf h cx : ∀ t fuel,
  repr h None (plug cx t) → t ≠ E → length cx < fuel →
  depthOf fuel h (rootRef t) = length cx.
Proof.
  induction cx as [|f rest IH]; intros t fuel Hr Ht Hfuel;
    (destruct t as [|i c l v r]; [done|]);
    (destruct fuel as [|fuel]; [simpl in Hfuel; lia|]);
    pose proof Hr as Hi; apply repr_plug in Hi as (_ & Hi & _); simpl; rewrite Hi; simpl.
  - done.
  - f_equal. simpl in Hr.
    rewrite <- (IH (plug1 f (T i c l v r)) fuel Hr).
    + by rewrite rootRef_plug1.
    + unfold plug1. by destruct (fside f).
    + simpl in Hfuel. lia.
Qed.

Lemma ctx_length_lt cx t : t ≠ E → length cx < length (labels (plug cx t)).
Proof.
  intros Ht. rewrite labels_plug, !length_app.
  assert (0 < length (labels t)) by (destruct t; [done|]; simpl; rewrite length_app; simpl; lia).
  assert (length cx ≤ length (labelsBefore cx) + length (labelsBehind cx)); [|lia].
  clear. induction cx as [|f rest IH]; simpl; [lia|].
  rewrite !length_app. destruct (fside f); simpl; rewrite ?length_app; simpl; lia.
Qed.

(** Steps recorded earlier are only carried along. *)
Lemma rb_forEach_steps values : ∀ root steps h,
  forEach values root steps h
  = match forEach values root [] h with
    | Done ((r, new), h') => Done ((r, steps ++ new), h')
    | TypeError => TypeError
    | Diverge => Diverge
    end.
Proof.
  induction values as [|v values IH]; intros root steps h; simpl.
  { unfold mret, M_ret. by rewrite app_nil_r. }
  unfold mbind, M_bind.
  destruct (redBlackInsert root v h) as [[r1 h1]| |]; [|done..].
  destruct (cloneTree r1 h1) as [[j h2]| |]; [|done..].
  rewrite (IH r1 (steps ++ [j])), (IH r1 ([] ++ [j])).
  destruct (forEach values r1 [] h2) as [[[r new] h']| |]; [|done..].
  by rewrite <- app_assoc.
Qed.

Lemma rb_forEach_reachable values root steps h :
  forEach values None [] [] = Done ((root, steps), h) →
  ∃ t, reachable h root t ∧ length steps = length values
       ∧ Forall (λ j, ∃ u : bt nat, j = jsonOf u ∧ isRedBlack u
                                   ∧ StronglySorted Z.le (keys u)) steps.
Proof.
  intros H.
  destruct (rb_forEach_holds values [] None E [] reachable_empty)
    as (h' & t' & new & Hrun & HR & Hlen & Hall).
  rewrite H in Hrun. injection Hrun as -> -> ->. eauto.
Qed.

Lemma rb_forEach_total values :
  ∃ root steps h, forEach values None [] [] = Done ((root, steps), h).
Proof.
  destruct (rb_forEach_holds values [] None E [] reachable_empty)
    as (h' & t' & new & Hrun & _). eauto.
Qed.

(** Step [k] holds the copy of the tree as it was after [k + 1] insertions. *)
Lemma rb_forEach_lookup values : ∀ h root t root' steps' h' k j,
  reachable h root t →
  forEach values root [] h = Done ((root', steps'), h') →
  steps' !! k = Some j →
  ∃ root1 steps1 h1 t1,
    forEach (take (S k) values) root [] h = Done ((root1, steps1), h1)
    ∧ liveTree h1 root1 = Some t1 ∧ j = jsonOf t1.
Proof.
  induction values as [|v values IH]; intros h root t root' steps' h' k j HR H Hk.
  { simpl in H. injection H as <- <- <-. done. }
  destruct (rb_insert_holds h root t v HR) as (h1 & t1 & Hrun1 & HR1 & _).
  pose proof (rb_cloneTree _ _ _ (proj1 HR1)) as Hclone.
  simpl in H. rewrite (run_bind_eq _ _ _ _ _ Hrun1) in H.
  rewrite (run_bind_eq _ _ _ _ _ Hclone) in H. rewrite rb_forEach_steps in H.
  destruct (forEach values (rootRef t1) [] h1) as [[[r new] h2]| |] eqn:Erest; [|done..].
  injection H as <- <- <-. simpl in Hk.
  destruct k as [|k].
  - injection Hk as <-. exists (rootRef t1), [jsonOf t1], h1, t1.
    split; [|split; [by apply rb_liveTree, HR1|done]].
    simpl take. simpl forEach. rewrite (run_bind_eq _ _ _ _ _ Hrun1).
    rewrite (run_bind_eq _ _ _ _ _ Hclone). by destruct values.
  - simpl in Hk.
    destruct (IH _ _ _ _ _ _ k j HR1 Erest Hk) as (r2 & s2 & h3 & t3 & Hrun & Hlive & ->).
    exists r2, (jsonOf t1 :: s2), h3, t3. split; [|done].
    simpl take. simpl forEach. rewrite (run_bind_eq _ _ _ _ _ Hrun1).
    rewrite (run_bind_eq _ _ _ _ _ Hclone). rewrite rb_forEach_steps, Hrun. done.
Qed.

End RBTrace.

(** ** AVL insertion of keys that are pairwise distinct *)

Section AVLDistinct.
Import AVLTree AVLSpec.

Lemma balanced_Node v l r h :
  balanced (Node v l r h) = true
  ↔ Z.abs (realHeight l - realHeight r) ≤ 1
    ∧ balanced l = true ∧ balanced r = true.
Proof.
  simpl. rewrite !andb_true_iff, Z.leb_le. tauto.
Qed.

Lemma realHeight_pos t : 0 < realHeight t → ∃ v l r h, t = Node v l r h.
Proof. destruct t; simpl; [lia|eauto]. Qed.

(** [rebalance] by cases on the balance factor. *)
Lemma avl_rebalance_eq v rv l r :
  rebalance v rv l r
  = let h := 1 + Z.max (getHeight l) (getHeight r) in
    let root := Node rv l r h in
    if 1 <? getHeight l - getHeight r then
      match l with
      | Null => None
      | Node lv _ _ _ =>
          if v <? lv then rightRotate root
          else if lv <? v then l' ← leftRotate l; rightRotate (Node rv l' r h)
          else Some root
      end
    else if getHeight l - getHeight r <? -1 then
      match r with
      | Null => None
      | Node yv _ _ _ =>
          if yv <? v then leftRotate root
          else if v <? yv then r' ← rightRotate r; leftRotate (Node rv l r' h)
          else Some root
      end
    else Some root.
Proof.
  unfold rebalance. cbn [getBalance]. cbv zeta.
  destruct (Z.ltb_spec 1 (getHeight l - getHeight r)) as [Hb|Hb].
  - destruct (Z.ltb_spec (getHeight l - getHeight r) (-1)); [lia|].
    destruct l as [|lv a b lh]; [done|]. cbn [andLess valueOf mbind option_bind].
    destruct (v <? lv); [done|]. by destruct (lv <? v).
  - cbn [andLess mbind option_bind].
    destruct (Z.ltb_spec (getHeight l - getHeight r) (-1)); [|done].
    destruct r as [|yv a b yh]; [done|]. cbn [andLess valueOf mbind option_bind].
    destruct (yv <? v); [done|]. by destruct (v <? yv).
Qed.

Lemma realHeight_Node v l r h :
  realHeight (Node v l r h) = 1 + Z.max (realHeight l) (realHeight r).
Proof. done. Qed.

Lemma avl_rebalance_left v rv l l' r h :
  heightsOk l' → heightsOk r → balanced l' = true → balanced r = true →
  Z.abs (realHeight l - realHeight r) ≤ 1 →
  grewBy v l l' → v < rv →
  ∃ t', rebalance v rv l' r = Some t' ∧ balanced t' = true
        ∧ grewBy v (Node rv l r h) t'.
Proof.
  intros Hl' Hr Bl' Br Hb Hg Hv. rewrite avl_rebalance_eq. cbv zeta.
  rewrite !getHeight_real by done.
  pose proof (realHeight_nonneg l). pose proof (realHeight_nonneg r).
  unfold grewBy in *. rewrite realHeight_Node.
  destruct (Z.ltb_spec 1 (realHeight l' - realHeight r)) as [Hbig|Hsmall].
  - destruct Hg as [?|[Hh [->|Hlean]]]; [lia|simpl in *; lia|].
    destruct l' as [|lv a b lh]; [done|].
    apply balanced_Node in Bl' as (Hab & Ba & Bb).
    rewrite realHeight_Node in *.
    destruct Hlean as [[Hlt Hab']|[Hlt Hab']].
    + rewrite (proj2 (Z.ltb_lt _ _) Hlt). cbn [rightRotate].
      eexists. split; [done|]. split.
      * apply balanced_Node. rewrite realHeight_Node. split; [lia|].
        split; [done|]. apply balanced_Node. split; [lia|done].
      * left. rewrite !realHeight_Node. lia.
    + rewrite (proj2 (Z.ltb_ge v lv)) by lia.
      rewrite (proj2 (Z.ltb_lt _ _) Hlt).
      pose proof (realHeight_nonneg a).
      destruct (realHeight_pos b) as (bv & b1 & b2 & bh & ->); [lia|].
      apply balanced_Node in Bb as (Hb12 & Bb1 & Bb2).
      rewrite realHeight_Node in *.
      cbn [leftRotate rightRotate mbind option_bind].
      eexists. split; [done|]. split.
      * apply balanced_Node. rewrite !realHeight_Node. split; [lia|].
        split; apply balanced_Node; (split; [lia|done]).
      * left. rewrite !realHeight_Node. lia.
  - assert (realHeight l ≤ realHeight l') by (destruct Hg as [?|[? _]]; lia).
    destruct (Z.ltb_spec (realHeight l' - realHeight r) (-1)); [lia|].
    eexists. split; [done|]. split.
    + apply balanced_Node. split; [lia|done].
    + rewrite realHeight_Node. cbn [leansTowards].
      destruct Hg as [?|[? _]]; [left; lia|].
      destruct (Z.le_gt_cases (realHeight l') (realHeight r)); [left; lia|].
      right. split; [lia|]. right. left. lia.
Qed.

Lemma avl_rebalance_right v rv l r r' h :
  heightsOk l → heightsOk r' → balanced l = true → balanced r' = true →
  Z.abs (realHeight l - realHeight r) ≤ 1 →
  grewBy v r r' → rv < v →
  ∃ t', rebalance v rv l r' = Some t' ∧ balanced t' = true
        ∧ grewBy v (Node rv l r h) t'.
Proof.
  intros Hl Hr' Bl Br' Hb Hg Hv. rewrite avl_rebalance_eq. cbv zeta.
  rewrite !getHeight_real by done.
  pose proof (realHeight_nonneg l). pose proof (realHeight_nonneg r).
  unfold grewBy in *. rewrite realHeight_Node.
  assert (realHeight r ≤ realHeight r') by (destruct Hg as [?|[? _]]; lia).
  destruct (Z.ltb_spec 1 (realHeight l - realHeight r')) as [?|_]; [lia|].
  destruct (Z.ltb_spec (realHeight l - realHeight r') (-1)) as [Hbig|Hsmall].
  - destruct Hg as [?|[Hh [->|Hlean]]]; [lia|simpl in *; lia|].
    destruct r' as [|yv a b yh]; [done|].
    apply balanced_Node in Br' as (Hab & Ba & Bb).
    rewrite realHeight_Node in *.
    destruct Hlean as [[Hlt Hab']|[Hlt Hab']].
    + rewrite (proj2 (Z.ltb_ge yv v)) by lia.
      rewrite (proj2 (Z.ltb_lt _ _) Hlt).
      pose proof (realHeight_nonneg b).
      destruct (realHeight_pos a) as (av & a1 & a2 & ah & ->); [lia|].
      apply balanced_Node in Ba as (Ha12 & Ba1 & Ba2).
      rewrite realHeight_Node in *.
      cbn [leftRotate rightRotate mbind option_bind].
      eexists. split; [done|]. split.
      * apply balanced_Node. rewrite !realHeight_Node. split; [lia|].
        split; apply balanced_Node; (split; [lia|done]).
      * left. rewrite !realHeight_Node. lia.
    + rewrite (proj2 (Z.ltb_lt _ _) Hlt). cbn [leftRotate].
      eexists. split; [done|]. split.
      * apply balanced_Node. rewrite realHeight_Node. split; [lia|].
        split; [|done]. apply balanced_Node. split; [lia|done].
      * left. rewrite !realHeight_Node. lia.
  - eexists. split; [done|]. split.
    + apply balanced_Node. split; [lia|done].
    + rewrite realHeight_Node. cbn [leansTowards].
      destruct Hg as [?|[? _]]; [left; lia|].
      destruct (Z.le_gt_cases (realHeight r') (realHeight l)); [left; lia|].
      right. split; [lia|]. right. right. lia.
Qed.

(** One insertion of a key that is not in the tree yet. *)
Lemma avl_insert_balanced t : ∀ v,
  heightsOk t → balanced t = true → v ∉ inorder t →
  ∃ t', avlInsert t v = Some t' ∧ heightsOk t' ∧ balanced t' = true
        ∧ grewBy v t t'.
Proof.
  induction t as [|rv l IHl r IHr h]; intros v Ht Bt Hv.
  - eexists. split; [done|]. split; [done|]. split; [done|].
    right. split; [done|by left].
  - destruct Ht as (_ & Hl & Hr). apply balanced_Node in Bt as (Hb & Bl & Br).
    simpl in Hv. rewrite elem_of_app, elem_of_cons in Hv.
    simpl avlInsert. destruct (Z.ltb_spec v rv) as [Hlt|Hge].
    + destruct (IHl v Hl Bl) as (l' & -> & Hl' & Bl' & Hg); [tauto|]. simpl.
      destruct (avl_rebalance_left v rv l l' r h Hl' Hr Bl' Br Hb Hg Hlt)
        as (t' & Hreb & Bt' & Hg').
      exists t'. split; [done|]. split; [|done].
      exact (avl_rebalance_heights _ _ _ _ _ Hl' Hr Hreb).
    + assert (rv < v) as Hgt by (destruct (decide (v = rv)); [tauto|lia]).
      destruct (IHr v Hr Br) as (r' & -> & Hr' & Br' & Hg); [tauto|]. simpl.
      destruct (avl_rebalance_right v rv l r r' h Hl Hr' Bl Br' Hb Hg Hgt)
        as (t' & Hreb & Bt' & Hg').
      exists t'. split; [done|]. split; [|done].
      exact (avl_rebalance_heights _ _ _ _ _ Hl Hr' Hreb).
Qed.

(** The recorder on keys that are pairwise distinct and not in the tree. *)
Lemma avl_forEach_distinct values : ∀ root steps,
  heightsOk root → balanced root = true → StronglySorted Z.le (inorder root) →
  NoDup values → (∀ v, v ∈ values → v ∉ inorder root) →
  ∃ root' steps',
    forEach values root steps = Some (root', steps')
    ∧ heightsOk root' ∧ balanced root' = true.
Proof.
  induction values as [|v values IH]; intros root steps Hh Hb Hs Hnd Hnew.
  - by exists root, steps.
  - apply NoDup_cons in Hnd as [Hv Hnd].
    destruct (avl_insert_balanced root v Hh Hb) as (r1 & Hins & Hh1 & Hb1 & _).
    { apply Hnew. by left. }
    simpl. rewrite Hins. simpl. apply IH; [done|done| | done|].
    + by eapply avl_insert_sorted.
    + intros w Hw. rewrite (avl_insert_inorder _ _ _ Hs Hins), place_perm.
      rewrite elem_of_cons. intros [->|Hin]; [done|].
      by apply (Hnew w); [right|].
Qed.

(** When the recorder returns, the tree holds the keys given, each as often
    as it was given, in sorted order. *)
Lemma avl_forEach_keys values : ∀ root steps root' steps',
  StronglySorted Z.le (inorder root) →
  forEach values root steps = Some (root', steps') →
  inorder root' ≡ₚ inorder root ++ values
  ∧ StronglySorted Z.le (inorder root').
Proof.
  induction values as [|v values IH]; intros root steps root' steps' Hs H.
  - simpl in H. injection H as <- <-. by rewrite app_nil_r.
  - simpl in H. destruct (avlInsert root v) as [r1|] eqn:E1; [|done]. simpl in H.
    destruct (IH _ _ _ _ (avl_insert_sorted _ _ _ Hs E1) H) as [Hp Hs'].
    split; [|done]. rewrite Hp, (avl_insert_inorder _ _ _ Hs E1), place_perm.
    simpl. apply Permutation_middle.
Qed.

End AVLDistinct.

Section RBKeys.
Import RedBlackTree RBSpec.

Lemma rb_forEach_keys vs : ∀ h root t steps,
  reachable h root t →
  ∃ h' t' steps',
    forEach vs root steps h = Done ((rootRef t', steps'), h')
    ∧ reachable h' (rootRef t') t'
    ∧ keys t' ≡ₚ keys t ++ vs.
Proof.
  induction vs as [|v vs IH]; intros h root t steps HR.
  - exists h, t, steps. destruct HR as ((? & <- & ?) & ?).
    rewrite app_nil_r. split; [done|]. split; [|done]. by split.
  - destruct (rb_insert_holds h root t v HR) as (h1 & t1 & Hrun1 & HR1 & _ & Hn).
    destruct (IH h1 _ t1 (steps ++ [jsonOf t1]) HR1)
      as (h' & t' & steps' & Hrun & HR' & Hp).
    exists h', t', steps'. split; [|split; [done|]].
    + simpl. eapply run_bind; [exact Hrun1|].
      eapply run_bind; [apply rb_cloneTree, HR1|]. exact Hrun.
    + rewrite Hp, (keys_nodes t1), Hn, placeNode_keys, place_perm.
      simpl. rewrite <- keys_nodes. apply Permutation_middle.
Qed.

End RBKeys.

(** ** The claims *)

(** C1 (the code departs from the claim).  The keys 1, 1, 1 inserted one by
    one into the empty AVL tree leave a chain of three nodes: at its root
    the left subtree has height 0 and the right subtree height 2, so the AVL
    balance condition fails. *)
Theorem avl_unbalanced_after_duplicates :
  ∃ chain,
    AVLTree.insertAll [1; 1; 1] = Some chain
    ∧ chain = AVLTree.Node 1 AVLTree.Null
                (AVLTree.Node 1 AVLTree.Null
                   (AVLTree.Node 1 AVLTree.Null AVLTree.Null 1) 2) 3
    ∧ AVLSpec.realHeight
        (AVLTree.Node 1 AVLTree.Null (AVLTree.Node 1 AVLTree.Null AVLTree.Null 1) 2)
      - AVLSpec.realHeight AVLTree.Null = 2
    ∧ AVLSpec.balanced chain = false.
Proof. eexists. repeat split; reflexivity. Qed.

(** C5.  In every tree produced by a sequence of [avlInsert] calls from the
    empty tree, the [height] field of every node is the height of the subtree
    below it (1 for a leaf, 0 for the empty tree). *)
Theorem avl_heights_memoized (values : list Z) (t : AVLTree.AVLNode) :
  AVLTree.insertAll values = Some t → AVLSpec.heightsOk t.
Proof.
  apply (avl_insertAll_inv AVLSpec.heightsOk); [done|].
  intros. by eapply avl_insert_heights.
Qed.

Lemma avl_heights_memoized_witness :
  AVLSpec.heightsOk
    (AVLTree.Node 2 (AVLTree.Node 1 AVLTree.Null AVLTree.Null 1)
                    (AVLTree.Node 3 AVLTree.Null AVLTree.Null 1) 2).
Proof. apply (avl_heights_memoized [3; 1; 2]). reflexivity. Defined.

(** C7 (the code departs from the claim).  For the keys 2, 2, 2, 2, 1 the
    AVL recorder returns no trace at all: the fifth insertion throws. *)
Theorem avl_trace_lost_on_duplicates :
  AVLTree.buildAVLTreeSteps [2; 2; 2; 2; 1] = None.
Proof. reflexivity. Qed.

(** C10 (the code departs from the claim).  After the keys 2, 2, 2, 2 the
    AVL tree is a chain to the right; inserting 1 takes the Right-Left branch
    of [avlInsert], which calls [rightRotate] on the right child although
    that child has no left child, and the call throws. *)
Theorem avl_rotation_promotes_null :
  ∃ chain right,
    AVLTree.insertAll [2; 2; 2; 2] = Some (AVLTree.Node 2 AVLTree.Null right 4)
    ∧ chain = AVLTree.Node 2 AVLTree.Null right 4
    ∧ AVLTree.rebalance 1 2 (AVLTree.Node 1 AVLTree.Null AVLTree.Null 1) right
      = (AVLTree.rightRotate right ≫= λ r', AVLTree.leftRotate
           (AVLTree.Node 2 (AVLTree.Node 1 AVLTree.Null AVLTree.Null 1) r' 4))
    ∧ (∃ v r h, right = AVLTree.Node v AVLTree.Null r h)
    ∧ AVLTree.rightRotate right = None
    ∧ AVLTree.avlInsert chain 1 = None.
Proof.
  eexists _, _. split; [reflexivity|]. split; [reflexivity|].
  split; [reflexivity|]. split; [by eexists _, _, _|]. split; reflexivity.
Qed.

(** The same run without duplicates is fine: what the recorder returns has
    one step per key, in input order. *)
Lemma avl_trace_length values steps :
  AVLTree.buildAVLTreeSteps values = Some steps →
  length steps = length values ∧ AVLTree.current <$> steps = values.
Proof.
  unfold AVLTree.buildAVLTreeSteps. intros H.
  destruct (AVLTree.forEach values AVLTree.Null []) as [[root s]|] eqn:E; [|done].
  injection H as <-. destruct (avl_forEach_extends _ _ _ _ _ E) as (new & -> & ? & ?).
  done.
Qed.

Section PlaybackClaims.
Import Playback.
Context {Snapshot : Type}.
Implicit Types (v : Visualizer Snapshot) (es : list (event Snapshot)).

Lemma playback_tick_last v :
  currentStepIndex v = Z.of_nat (length (steps v)) - 1 →
  currentStepIndex (tick v) = currentStepIndex v ∧ steps (tick v) = steps v.
Proof.
  intros Hlast. unfold tick. destruct (running v); [|done]. simpl.
  unfold advance. by rewrite Hlast, Z.ltb_irrefl.
Qed.

(** C9.  Replacing the trace puts the index at 0 (as does mounting); a timer
    tick below the last snapshot advances the index by exactly one; and
    once the index is [length trace - 1], no sequence of ticks (and of
    presses of the pause button, where there is one) moves it. *)
Theorem playback_index_laws :
  (∀ s : list Snapshot, currentStepIndex (mount s) = 0)
  ∧ (∀ v s, currentStepIndex (setSteps s v) = 0)
  ∧ (∀ v, running v = true →
          currentStepIndex v < Z.of_nat (length (steps v)) - 1 →
          currentStepIndex (tick v) = currentStepIndex v + 1)
  ∧ (∀ v es, currentStepIndex v = Z.of_nat (length (steps v)) - 1 →
             Forall (λ e, e = Tick ∨ e = TogglePause) es →
             currentStepIndex (run v es) = currentStepIndex v).
Proof.
  split; [done|]. split; [done|]. split.
  - intros v Hrun Hlt. unfold tick. rewrite Hrun. simpl. unfold advance.
    by rewrite (proj2 (Z.ltb_lt _ _) Hlt).
  - intros v es Hlast Hes. revert v Hlast.
    induction Hes as [|e es [-> | ->] _ IH]; intros v Hlast; [done| |].
    + simpl. destruct (playback_tick_last v Hlast) as [Hi Hs].
      rewrite IH; [done|]. by rewrite Hi, Hs.
    + simpl. by rewrite IH.
Qed.

End PlaybackClaims.

Lemma playback_index_laws_witness :
  Playback.currentStepIndex
    (Playback.tick (Playback.mount [10; 20; 30])) = 1
  ∧ Playback.currentStepIndex
      (Playback.run
         {| Playback.steps := [10; 20; 30]; Playback.currentStepIndex := 2;
            Playback.paused := false |}
         [Playback.Tick; Playback.Tick]) = 2.
Proof.
  split.
  - apply (proj1 (proj2 (proj2 (@playback_index_laws Z)))
             (Playback.mount [10; 20; 30])); [reflexivity|simpl; lia].
  - apply (proj2 (proj2 (proj2 (@playback_index_laws Z)))
             {| Playback.steps := [10; 20; 30]; Playback.currentStepIndex := 2;
                Playback.paused := false |}
             [Playback.Tick; Playback.Tick]); [reflexivity|].
    repeat constructor; by left.
Defined.

Section RBClaims.
Import JS RedBlackTree RBSpec.
Local Open Scope nat_scope.

Lemma rb_build_spec values :
  ∃ steps,
    buildRedBlackTreeSteps values = Done steps
    ∧ length steps = length values
    ∧ Forall (λ j, ∃ u : bt nat, j = jsonOf u ∧ isRedBlack u
                                ∧ StronglySorted Z.le (keys u)) steps.
Proof.
  destruct (rb_forEach_total values) as (root & steps & h & Hrun).
  destruct (rb_forEach_reachable _ _ _ _ Hrun) as (t & _ & Hlen & Hall).
  exists steps. unfold buildRedBlackTreeSteps. by rewrite Hrun.
Qed.

(** C2.  For every sequence of keys inserted one by one from the empty
    tree, every insertion returns, and the tree then in the heap has a BLACK
    root, no RED node with a RED child, and the same number of BLACK nodes
    on every path from a node down to a null leaf; the same holds of every
    snapshot the recorder took on the way, one per insertion. *)
Theorem rb_invariants_after_every_insertion (values : list Z) :
  ∃ root steps h t,
    forEach values None [] [] = Done ((root, steps), h)
    ∧ liveTree h root = Some t
    ∧ colorAt t = BLACK ∧ noRedRed t = true ∧ is_Some (blackHeight t)
    ∧ buildRedBlackTreeSteps values = Done steps
    ∧ length steps = length values
    ∧ Forall (λ snapshot,
                colorAt (shapeOf snapshot) = BLACK
                ∧ noRedRed (shapeOf snapshot) = true
                ∧ is_Some (blackHeight (shapeOf snapshot))) steps.
Proof.
  destruct (rb_forEach_total values) as (root & steps & h & Hrun).
  destruct (rb_forEach_reachable _ _ _ _ Hrun) as (t & HR & Hlen & Hall).
  exists root, steps, h, t. split; [done|].
  split; [by apply rb_liveTree, HR|].
  destruct HR as (_ & (Hroot & Hrr & Hbh) & _).
  split; [done|]. split; [done|]. split; [done|].
  split; [unfold buildRedBlackTreeSteps; by rewrite Hrun|]. split; [done|].
  eapply Forall_impl; [exact Hall|]. intros j (u & -> & Hrb & _).
  rewrite shapeOf_jsonOf. by apply isRedBlack_erase.
Qed.

(** Never a TypeError and never an endless loop in [redBlackInsert], whatever
    was inserted before. *)
Lemma rb_insert_never_throws values root steps h v :
  forEach values None [] [] = Done ((root, steps), h) →
  ∃ root' h', redBlackInsert root v h = Done (root', h').
Proof.
  intros Hrun. destruct (rb_forEach_reachable _ _ _ _ Hrun) as (t & HR & _).
  destruct (rb_insert_holds h root t v HR) as (h' & t' & Hins & _). eauto.
Qed.

(** C6.  In every state reached by insertions from the empty tree and for
    every key, hanging the new node [z] succeeds, and the loop of [fixInsert]
    stops: it tests its condition at most [depth z / 2 + 1] times, since a
    turn that does not end the loop moves [z] two levels up.  With that much
    fuel [fixInsert] returns. *)
Theorem rb_fixInsert_terminates (values : list Z) root steps h (v : Z) :
  forEach values None [] [] = Done ((root, steps), h) →
  ∃ root1 z h1,
    attach root v h = Done ((root1, z), h1)
    ∧ ∀ fuel, depth h1 z / 2 < fuel →
        ∃ root2 h2, fixInsert fuel root1 z h1 = Done (root2, h2).
Proof.
  intros Hrun. destruct (rb_forEach_reachable _ _ _ _ Hrun) as (t & HR & _).
  destruct HR as (HH & (Hroot & Hrr & [m Hbh]) & Hsorted).
  destruct (rb_attach_holds h root t v HH) as (h1 & Hrun1 & HH1 & Hlen1).
  set (cx := path v t []) in *. set (leaf := T (length h) RED E v E) in *.
  exists (rootRef (plug cx leaf)), (Some (length h)), h1. split; [done|].
  intros fuel Hfuel.
  assert (Hcx : ctxOk 0 cx).
  { apply (path_ok v t [] m); [|done|by rewrite Hroot].
    split; [done|]. by apply hasBH_blackHeight. }
  assert (Hleaf : okSub 0 leaf) by (by split).
  assert (Hdepth : depth h1 (Some (length h)) = length cx).
  { unfold depth. apply (rb_depthOf h1 cx leaf); [apply HH1|done|].
    destruct HH1 as (_ & _ & Hp).
    pose proof (ctx_length_lt cx leaf) as Hl. rewrite Hp, length_seq in Hl.
    by apply Hl. }
  rewrite Hdepth in Hfuel.
  assert (length cx < 2 * fuel) as Hfuel'.
  { pose proof (Nat.div_mod_eq (length cx) 2).
    pose proof (Nat.mod_upper_bound (length cx) 2). lia. }
  destruct (rb_fixInsert_holds fuel cx leaf h1 _ 0 HH1 eq_refl Hleaf Hcx Hfuel')
    as (h' & w & Hfix & _). eauto.
Qed.

End RBClaims.

(** ** The AVL recorder on the store *)

Lemma avlOfJSON_toJSON t : SnapshotSpec.avlOfJSON (AVLTree.toJSON t) = t.
Proof.
  induction t as [|v l IHl r IHr h]; [done|].
  simpl. by rewrite IHl, IHr.
Qed.

Section AVLHeapFacts.
Import AVLHeap AVLHeapSpec.
Local Open Scope nat_scope.
Implicit Types (h : list AVLObject) (t l r : ltree).

(** *** Running statements *)

Lemma hbind_Done {A B} (m : M A) (k : A → M B) h a h1 :
  m h = Done (a, h1) → (m ≫= k) h = k a h1.
Proof. unfold mbind, M_bind. by intros ->. Qed.

Lemma hbind_TypeError {A B} (m : M A) (k : A → M B) h :
  m h = TypeError → (m ≫= k) h = TypeError.
Proof. unfold mbind, M_bind. by intros ->. Qed.

Lemma hrun_read {A} (f : AVLObject → A) h i o :
  h !! i = Some o → read f (Some i) h = Done (f o, h).
Proof. unfold read. by intros ->. Qed.

Lemma hrun_write upd h i o :
  h !! i = Some o → write upd (Some i) h = Done (tt, <[i := upd o]> h).
Proof. unfold write. by intros ->. Qed.

(** *** Stores that agree on a tree *)

Lemma hrepr_ext h h' t :
  (∀ i, i ∈ labels t → h' !! i = h !! i) → repr h t → repr h' t.
Proof.
  induction t as [|a v l IHl r IHr ht]; intros Hext; simpl; [done|].
  simpl in Hext. intros (Ha & Hl & Hr). split_and!.
  - rewrite Hext; [done|]. set_solver.
  - apply IHl; [|done]. intros j Hj. apply Hext. set_solver.
  - apply IHr; [|done]. intros j Hj. apply Hext. set_solver.
Qed.

Lemma hrepr_insert h a o t : a ∉ labels t → repr h t → repr (<[a := o]> h) t.
Proof.
  intros Ha. apply hrepr_ext. intros i Hi.
  apply list_lookup_insert_ne. by intros ->.
Qed.

Lemma hrepr_app h ext t : repr h t → repr (h ++ ext) t.
Proof.
  induction t as [|a v l IHl r IHr ht]; simpl; [done|].
  intros (Ha & Hl & Hr). split_and!; [|auto..].
  by apply lookup_app_l_Some.
Qed.

Lemma hrepr_lt h t i : repr h t → i ∈ labels t → i < length h.
Proof.
  induction t as [|a v l IHl r IHr ht]; simpl; [set_solver|].
  intros (Ha & Hl & Hr) Hi.
  apply elem_of_cons in Hi as [->|Hi]; [by eapply lookup_lt_Some|].
  apply elem_of_app in Hi as [Hi|Hi]; eauto.
Qed.

Lemma hrepr_root h t i : rootRef t = Some i → i ∈ labels t.
Proof. destruct t; simpl; [done|]. intros [= ->]. set_solver. Qed.

(** *** Heights *)

Lemma getHeight_repr h t : repr h t → getHeight (rootRef t) h = Done (heightOf t, h).
Proof. destruct t as [|a v l r ht]; simpl; [done|]. intros (Ha & _). by rewrite Ha. Qed.

Lemma updateHeight_repr h a v l r ht :
  h !! a = Some (mkObject v (rootRef l) (rootRef r) ht) → repr h l → repr h r →
  updateHeight (Some a) h
  = Done (tt, <[a := mkObject v (rootRef l) (rootRef r)
                       (1 + Z.max (heightOf l) (heightOf r))%Z]> h).
Proof.
  intros Ha Hl Hr. unfold updateHeight.
  rewrite (hbind_Done _ _ _ _ _ (hrun_read left _ _ _ Ha)). cbv beta.
  rewrite (hbind_Done _ _ _ _ _ (getHeight_repr _ _ Hl)). cbv beta.
  rewrite (hbind_Done _ _ _ _ _ (hrun_read right _ _ _ Ha)). cbv beta.
  rewrite (hbind_Done _ _ _ _ _ (getHeight_repr _ _ Hr)). cbv beta.
  by rewrite (hrun_write _ _ _ _ Ha).
Qed.

Lemma getBalance_repr h a v l r ht :
  h !! a = Some (mkObject v (rootRef l) (rootRef r) ht) → repr h l → repr h r →
  getBalance (Some a) h = Done ((heightOf l - heightOf r)%Z, h).
Proof.
  intros Ha Hl Hr. unfold getBalance.
  rewrite (hbind_Done _ _ _ _ _ (hrun_read left _ _ _ Ha)). cbv beta.
  rewrite (hbind_Done _ _ _ _ _ (getHeight_repr _ _ Hl)). cbv beta.
  rewrite (hbind_Done _ _ _ _ _ (hrun_read right _ _ _ Ha)). cbv beta.
  by rewrite (hbind_Done _ _ _ _ _ (getHeight_repr _ _ Hr)).
Qed.

End AVLHeapFacts.

Section AVLHeapRotations.
Import AVLHeap AVLHeapSpec.
Local Open Scope nat_scope.
Implicit Types (h : list AVLObject) (t l r : ltree).

(** Looking an object up behind a few updates. *)
Ltac hlook :=
  repeat first
    [ rewrite list_lookup_insert_eq
        by (rewrite ?length_insert; eauto using lookup_lt_Some)
    | rewrite list_lookup_insert_ne by (first [assumption | by apply not_eq_sym]) ];
  try eassumption; try reflexivity.

Ltac hkeep := repeat (apply hrepr_insert; [assumption|]); assumption.

Ltac hstep L := rewrite (hbind_Done _ _ _ _ _ L); cbv beta.

Lemma rightRotateL_labels y y' : rightRotateL y = Some y' → labels y' ≡ₚ labels y.
Proof.
  destruct y as [|ya yv [|xa xv xl T2 xh] yr yh]; simpl; try done.
  intros [= <-]. simpl. rewrite <- Permutation_middle, perm_swap.
  by rewrite <- app_assoc.
Qed.

Lemma leftRotateL_labels x x' : leftRotateL x = Some x' → labels x' ≡ₚ labels x.
Proof.
  destruct x as [|xa xv xl [|ya yv T2 yr yh] xh]; simpl; try done.
  intros [= <-]. simpl. rewrite <- app_assoc. simpl.
  by rewrite <- Permutation_middle, perm_swap.
Qed.

Lemma heap_rightRotate h y :
  repr h y → NoDup (labels y) →
  match rightRotateL y with
  | Some y' =>
      ∃ h', rightRotate (rootRef y) h = Done (rootRef y', h')
            ∧ repr h' y' ∧ length h' = length h
            ∧ (∀ i, i ∉ labels y → h' !! i = h !! i)
  | None => rightRotate (rootRef y) h = TypeError
  end.
Proof.
  destruct y as [|ya yv [|xa xv xl T2 xh] yr yh]; [done| |].
  - intros (Hya & _) _. simpl. unfold rightRotate.
    hstep (hrun_read left _ _ _ Hya). done.
  - intros (Hya & (Hxa & Hxl & HT2) & Hyr) Hnd. simpl in Hya, Hxa.
    simpl in Hnd. apply NoDup_cons in Hnd as [Hy Hnd].
    apply NoDup_cons in Hnd as [Hx _].
    rewrite !not_elem_of_cons, !not_elem_of_app in Hy.
    rewrite !not_elem_of_app in Hx.
    destruct Hy as [Hyx [[Hyxl HyT2] Hyyr]]. destruct Hx as [[Hxxl HxT2] Hxyr].
    cbn [rightRotateL rootRef]. cbv zeta.
    set (hy' := (1 + Z.max (heightOf T2) (heightOf yr))%Z).
    set (y' := LNode ya yv T2 yr hy').
    set (hx' := (1 + Z.max (heightOf xl) (heightOf y'))%Z).
    set (h1 := <[xa := mkObject xv (rootRef xl) (Some ya) xh]> h).
    set (h2 := <[ya := mkObject yv (rootRef T2) (rootRef yr) yh]> h1).
    set (h3 := <[ya := mkObject yv (rootRef T2) (rootRef yr) hy']> h2).
    set (h4 := <[xa := mkObject xv (rootRef xl) (Some ya) hx']> h3).
    assert (Hlen : length h4 = length h)
      by (unfold h4, h3, h2, h1; by rewrite !length_insert).
    assert (H1y : h1 !! ya = Some (mkObject yv (Some xa) (rootRef yr) yh))
      by (unfold h1; hlook).
    assert (H2y : h2 !! ya = Some (mkObject yv (rootRef T2) (rootRef yr) yh))
      by (unfold h2, h1; hlook).
    assert (H2T : repr h2 T2) by (unfold h2, h1; hkeep).
    assert (H2r : repr h2 yr) by (unfold h2, h1; hkeep).
    assert (H3x : h3 !! xa = Some (mkObject xv (rootRef xl) (rootRef y') xh))
      by (unfold h3, h2, h1; hlook).
    assert (H3y : repr h3 y').
    { unfold h3. split_and!; [hlook|hkeep..]. }
    assert (H3l : repr h3 xl)
      by (unfold h3, h2, h1; hkeep).
    exists h4. split; [|split; [|split; [done|]]].
    + unfold rightRotate.
      hstep (hrun_read left _ _ _ Hya). hstep (hrun_read right _ _ _ Hxa).
      hstep (hrun_write (setRight (Some ya)) _ _ _ Hxa).
      hstep (hrun_write (setLeft (rootRef T2)) _ _ _ H1y).
      hstep (updateHeight_repr _ _ _ _ _ _ H2y H2T H2r).
      hstep (updateHeight_repr _ _ _ _ _ _ H3x H3l H3y).
      done.
    + unfold h4. destruct H3y as (? & ? & ?).
      split_and!; [hlook|hkeep|]. unfold y'. split_and!; [hlook|hkeep..].
    + intros i Hi. simpl in Hi.
      rewrite !not_elem_of_cons in Hi. destruct Hi as [Hiy [Hix _]].
      unfold h4, h3, h2, h1. hlook.
Qed.

Lemma heap_leftRotate h x :
  repr h x → NoDup (labels x) →
  match leftRotateL x with
  | Some x' =>
      ∃ h', leftRotate (rootRef x) h = Done (rootRef x', h')
            ∧ repr h' x' ∧ length h' = length h
            ∧ (∀ i, i ∉ labels x → h' !! i = h !! i)
  | None => leftRotate (rootRef x) h = TypeError
  end.
Proof.
  destruct x as [|xa xv xl [|ya yv T2 yr yh] xh]; [done| |].
  - intros (Hxa & _) _. simpl. unfold leftRotate.
    hstep (hrun_read right _ _ _ Hxa). done.
  - intros (Hxa & Hxl & (Hya & HT2 & Hyr)) Hnd. simpl in Hya, Hxa.
    simpl in Hnd. apply NoDup_cons in Hnd as [Hx Hnd].
    apply NoDup_app in Hnd as (_ & Hdis & Hnd).
    apply NoDup_cons in Hnd as [Hy _].
    rewrite !not_elem_of_app, !not_elem_of_cons, !not_elem_of_app in Hx.
    rewrite !not_elem_of_app in Hy.
    destruct Hx as [Hxxl [Hxy [HxT2 Hxyr]]]. destruct Hy as [HyT2 Hyyr].
    assert (Hyxl : ya ∉ labels xl).
    { intros Hin. apply (Hdis _ Hin). set_solver. }
    cbn [leftRotateL rootRef]. cbv zeta.
    set (hx' := (1 + Z.max (heightOf xl) (heightOf T2))%Z).
    set (x' := LNode xa xv xl T2 hx').
    set (hy' := (1 + Z.max (heightOf x') (heightOf yr))%Z).
    set (h1 := <[ya := mkObject yv (Some xa) (rootRef yr) yh]> h).
    set (h2 := <[xa := mkObject xv (rootRef xl) (rootRef T2) xh]> h1).
    set (h3 := <[xa := mkObject xv (rootRef xl) (rootRef T2) hx']> h2).
    set (h4 := <[ya := mkObject yv (Some xa) (rootRef yr) hy']> h3).
    assert (Hlen : length h4 = length h)
      by (unfold h4, h3, h2, h1; by rewrite !length_insert).
    assert (H1x : h1 !! xa = Some (mkObject xv (rootRef xl) (Some ya) xh))
      by (unfold h1; hlook).
    assert (H2x : h2 !! xa = Some (mkObject xv (rootRef xl) (rootRef T2) xh))
      by (unfold h2, h1; hlook).
    assert (H2T : repr h2 T2) by (unfold h2, h1; hkeep).
    assert (H2l : repr h2 xl) by (unfold h2, h1; hkeep).
    assert (H3y : h3 !! ya = Some (mkObject yv (rootRef x') (rootRef yr) yh))
      by (unfold h3, h2, h1; hlook).
    assert (H3x : repr h3 x').
    { unfold h3. split_and!; [hlook|hkeep..]. }
    assert (H3r : repr h3 yr) by (unfold h3, h2, h1; hkeep).
    exists h4. split; [|split; [|split; [done|]]].
    + unfold leftRotate.
      hstep (hrun_read right _ _ _ Hxa). hstep (hrun_read left _ _ _ Hya).
      hstep (hrun_write (setLeft (Some xa)) _ _ _ Hya).
      hstep (hrun_write (setRight (rootRef T2)) _ _ _ H1x).
      hstep (updateHeight_repr _ _ _ _ _ _ H2x H2l H2T).
      hstep (updateHeight_repr _ _ _ _ _ _ H3y H3x H3r).
      done.
    + unfold h4. destruct H3x as (? & ? & ?).
      split_and!; [hlook| |hkeep]. unfold x'. split_and!; [hlook|hkeep..].
    + intros i Hi. simpl in Hi.
      rewrite !not_elem_of_cons, !not_elem_of_app, !not_elem_of_cons in Hi.
      destruct Hi as [Hix [_ [Hiy _]]].
      unfold h4, h3, h2, h1. hlook.
Qed.

(** The rotations, said with [refines]; [h0] is an earlier store. *)
Lemma heap_rightRotate_refines h0 h y L L' :
  repr h y → NoDup (labels y) → labels y ≡ₚ L' →
  (∀ i, i < length h0 → i ∉ L → i ∉ L') →
  (∀ i, i < length h0 → i ∉ L → h !! i = h0 !! i) →
  refines h0 (length h) L L' (rightRotateL y) (rightRotate (rootRef y) h).
Proof.
  intros Hy Hnd HL Hsub Hframe. pose proof (heap_rightRotate h y Hy Hnd) as H.
  unfold refines. destruct (rightRotateL y) as [y'|] eqn:E; [|done].
  destruct H as (h' & Hrun & Hy' & Hlen' & Hfr). exists h'.
  split; [done|]. split; [done|]. split; [done|].
  split; [by rewrite (rightRotateL_labels _ _ E)|].
  intros i Hi HiL. rewrite Hfr; [by apply Hframe|]. rewrite HL. by apply Hsub.
Qed.

Lemma heap_leftRotate_refines h0 h x L L' :
  repr h x → NoDup (labels x) → labels x ≡ₚ L' →
  (∀ i, i < length h0 → i ∉ L → i ∉ L') →
  (∀ i, i < length h0 → i ∉ L → h !! i = h0 !! i) →
  refines h0 (length h) L L' (leftRotateL x) (leftRotate (rootRef x) h).
Proof.
  intros Hx Hnd HL Hsub Hframe. pose proof (heap_leftRotate h x Hx Hnd) as H.
  unfold refines. destruct (leftRotateL x) as [x'|] eqn:E; [|done].
  destruct H as (h' & Hrun & Hx' & Hlen' & Hfr). exists h'.
  split; [done|]. split; [done|]. split; [done|].
  split; [by rewrite (leftRotateL_labels _ _ E)|].
  intros i Hi HiL. rewrite Hfr; [by apply Hframe|]. rewrite HL. by apply Hsub.
Qed.

(** The guards [balance > 1 && value < root.left.value] and the like. *)
Lemma heap_guard_left h a o l (g : bool) (f : Z → bool) :
  h !! a = Some o → left o = rootRef l → repr h l →
  (if g then l0 ← read left (Some a); lv ← read AVLHeap.value l0; mret (f lv)
   else mret false) h
  = match (if g then f <$> valueOfL l else Some false) with
    | Some b => Done (b, h)
    | None => TypeError
    end.
Proof.
  intros Ha Hl Hr. destruct g; [|done].
  hstep (hrun_read left _ _ _ Ha). rewrite Hl.
  destruct l as [|b v l1 l2 hb]; [done|]. destruct Hr as (Hb & _).
  hstep (hrun_read AVLHeap.value _ _ _ Hb). done.
Qed.

Lemma heap_guard_right h a o r (g : bool) (f : Z → bool) :
  h !! a = Some o → right o = rootRef r → repr h r →
  (if g then r0 ← read right (Some a); rv ← read AVLHeap.value r0; mret (f rv)
   else mret false) h
  = match (if g then f <$> valueOfL r else Some false) with
    | Some b => Done (b, h)
    | None => TypeError
    end.
Proof.
  intros Ha Hl Hr. destruct g; [|done].
  hstep (hrun_read right _ _ _ Ha). rewrite Hl.
  destruct r as [|b v l1 l2 hb]; [done|]. destruct Hr as (Hb & _).
  hstep (hrun_read AVLHeap.value _ _ _ Hb). done.
Qed.

Lemma andLess_left g value o :
  AVLTree.andLess g (Some value) o
  = if g then (λ lv, (value <? lv)%Z) <$> o else Some false.
Proof. by destruct g, o. Qed.

Lemma andLess_right g value o :
  AVLTree.andLess g o (Some value)
  = if g then (λ lv, (lv <? value)%Z) <$> o else Some false.
Proof. by destruct g, o. Qed.

Lemma hbind_guard {B} (o : option bool) h (k : bool → M B) (m : M bool) :
  m h = match o with Some b => Done (b, h) | None => TypeError end →
  (m ≫= k) h = match o with Some b => k b h | None => TypeError end.
Proof.
  intros Hm. destruct o as [b|].
  - by rewrite (hbind_Done _ _ _ _ _ Hm).
  - by rewrite (hbind_TypeError _ _ _ Hm).
Qed.

Lemma heap_rebalance h0 h a rv l r hold value L L' :
  h !! a = Some (mkObject rv (rootRef l) (rootRef r) hold) →
  repr h l → repr h r →
  NoDup (a :: labels l ++ labels r) → a :: labels l ++ labels r ≡ₚ L' →
  (∀ i, i < length h0 → i ∉ L → i ∉ L') →
  (∀ i, i < length h0 → i ∉ L → h !! i = h0 !! i) →
  refines h0 (length h) L L' (rebalanceL value a rv l r)
          (rebalance (Some a) value h).
Proof.
  intros Ha Hl Hr Hnd HL Hsub Hframe.
  pose proof Hnd as Hnd0. apply NoDup_cons in Hnd0 as [Hanot Hndlr].
  rewrite not_elem_of_app in Hanot. destruct Hanot as [Hal Har].
  apply NoDup_app in Hndlr as (Hndl & Hdis & Hndr).
  set (hn := (1 + Z.max (heightOf l) (heightOf r))%Z).
  set (h1 := <[a := mkObject rv (rootRef l) (rootRef r) hn]> h).
  set (root := LNode a rv l r hn).
  assert (H1a : h1 !! a = Some (mkObject rv (rootRef l) (rootRef r) hn))
    by (unfold h1; hlook).
  assert (H1l : repr h1 l) by (unfold h1; hkeep).
  assert (H1r : repr h1 r) by (unfold h1; hkeep).
  assert (H1root : repr h1 root) by done.
  assert (Hlen1 : length h1 = length h) by (unfold h1; by rewrite length_insert).
  assert (Hframe1 : ∀ i, i < length h0 → i ∉ L → h1 !! i = h0 !! i).
  { intros i Hi HiL. unfold h1. rewrite list_lookup_insert_ne; [by apply Hframe|].
    intros ->. apply (Hsub i Hi HiL). rewrite <- HL. set_solver. }
  unfold rebalance, rebalanceL. cbv zeta. fold hn. fold root.
  hstep (updateHeight_repr _ _ _ _ _ _ Ha Hl Hr). fold hn. fold h1.
  hstep (getBalance_repr _ _ _ _ _ _ H1a H1l H1r).
  set (bal := (heightOf l - heightOf r)%Z).
  rewrite <- Hlen1. rewrite !andLess_left, !andLess_right.
  (* Left Left *)
  rewrite (hbind_guard _ _ _ _
             (heap_guard_left h1 a _ l (1 <? bal)%Z (λ lv, (value <? lv)%Z)
                H1a eq_refl H1l)).
  destruct (if (1 <? bal)%Z then (λ lv, (value <? lv)%Z) <$> valueOfL l
            else Some false)
    as [[|]|]; cbn [mbind option_bind];
    [by apply (heap_rightRotate_refines h0 h1 root)| |done].
  (* Right Right *)
  rewrite (hbind_guard _ _ _ _
             (heap_guard_right h1 a _ r (bal <? -1)%Z (λ v, (v <? value)%Z)
                H1a eq_refl H1r)).
  destruct (if (bal <? -1)%Z then (λ v, (v <? value)%Z) <$> valueOfL r
            else Some false)
    as [[|]|]; cbn [mbind option_bind];
    [by apply (heap_leftRotate_refines h0 h1 root)| |done].
  assert (HinL' : ∀ i, i < length h0 → i ∉ L →
                       (i ≠ a) ∧ (i ∉ labels l) ∧ (i ∉ labels r)).
  { intros i Hi HiL. pose proof (Hsub i Hi HiL) as HiL'.
    rewrite <- HL in HiL'. set_solver. }
  (* Left Right *)
  rewrite (hbind_guard _ _ _ _
             (heap_guard_left h1 a _ l (1 <? bal)%Z (λ lv, (lv <? value)%Z)
                H1a eq_refl H1l)).
  destruct (if (1 <? bal)%Z then (λ lv, (lv <? value)%Z) <$> valueOfL l
            else Some false)
    as [[|]|]; cbn [mbind option_bind]; [| |done].
  { hstep (hrun_read left _ _ _ H1a). cbn [AVLHeap.left].
    pose proof (heap_leftRotate h1 l H1l Hndl) as Hrot.
    destruct (leftRotateL l) as [l'|] eqn:El; cbn [mbind option_bind];
      [|by rewrite (hbind_TypeError _ _ _ Hrot)].
    destruct Hrot as (h2 & Hrun & Hl' & Hlen2 & Hfr2).
    pose proof (leftRotateL_labels _ _ El) as Hperm.
    hstep Hrun.
    assert (H2a : h2 !! a = Some (mkObject rv (rootRef l) (rootRef r) hn))
      by (by rewrite Hfr2).
    hstep (hrun_write (setLeft (rootRef l')) _ _ _ H2a). cbn [setLeft AVLHeap.value AVLHeap.right AVLHeap.height].
    set (h3 := <[a := mkObject rv (rootRef l') (rootRef r) hn]> h2).
    assert (Hlen3 : length h3 = length h1)
      by (unfold h3; by rewrite length_insert).
    rewrite <- Hlen3.
    apply (heap_rightRotate_refines h0 h3 (LNode a rv l' r hn)).
    - unfold h3. split_and!.
      + apply list_lookup_insert_eq. by eapply lookup_lt_Some.
      + apply hrepr_insert; [by rewrite Hperm|done].
      + apply hrepr_insert; [done|]. eapply hrepr_ext; [|exact H1r].
        intros i Hi. apply Hfr2. intros Hil. by apply (Hdis i Hil).
    - simpl. rewrite Hperm. done.
    - simpl. by rewrite Hperm.
    - done.
    - intros i Hi HiL. destruct (HinL' i Hi HiL) as (Hia & Hil & Hir).
      unfold h3. rewrite list_lookup_insert_ne by done.
      rewrite Hfr2 by done. by apply Hframe1. }
  (* Right Left *)
  rewrite (hbind_guard _ _ _ _
             (heap_guard_right h1 a _ r (bal <? -1)%Z (λ v, (value <? v)%Z)
                H1a eq_refl H1r)).
  destruct (if (bal <? -1)%Z then (λ v, (value <? v)%Z) <$> valueOfL r
            else Some false)
    as [[|]|]; cbn [mbind option_bind]; [| |done].
  { hstep (hrun_read right _ _ _ H1a). cbn [AVLHeap.right].
    pose proof (heap_rightRotate h1 r H1r Hndr) as Hrot.
    destruct (rightRotateL r) as [r'|] eqn:Er; cbn [mbind option_bind];
      [|by rewrite (hbind_TypeError _ _ _ Hrot)].
    destruct Hrot as (h2 & Hrun & Hr' & Hlen2 & Hfr2).
    pose proof (rightRotateL_labels _ _ Er) as Hperm.
    hstep Hrun.
    assert (H2a : h2 !! a = Some (mkObject rv (rootRef l) (rootRef r) hn))
      by (by rewrite Hfr2).
    hstep (hrun_write (setRight (rootRef r')) _ _ _ H2a). cbn [setRight AVLHeap.value AVLHeap.left AVLHeap.height].
    set (h3 := <[a := mkObject rv (rootRef l) (rootRef r') hn]> h2).
    assert (Hlen3 : length h3 = length h1)
      by (unfold h3; by rewrite length_insert).
    rewrite <- Hlen3.
    apply (heap_leftRotate_refines h0 h3 (LNode a rv l r' hn)).
    - unfold h3. split_and!.
      + apply list_lookup_insert_eq. by eapply lookup_lt_Some.
      + apply hrepr_insert; [done|]. eapply hrepr_ext; [|exact H1l].
        intros i Hi. apply Hfr2. by apply Hdis.
      + apply hrepr_insert; [by rewrite Hperm|done].
    - simpl. rewrite Hperm. done.
    - simpl. by rewrite Hperm.
    - done.
    - intros i Hi HiL. destruct (HinL' i Hi HiL) as (Hia & Hil & Hir).
      unfold h3. rewrite list_lookup_insert_ne by done.
      rewrite Hfr2 by done. by apply Hframe1. }
  exists h1. done.
Qed.

End AVLHeapRotations.

Section AVLHeapInsert.
Import AVLHeap AVLHeapSpec.
Local Open Scope nat_scope.
Implicit Types (h : list AVLObject) (t l r : ltree).

Ltac hstep L := rewrite (hbind_Done _ _ _ _ _ L); cbv beta.

(** *** The trees with places are the trees of [AVLTree] *)

Lemma heightOf_erase t : AVLTree.getHeight (erase t) = heightOf t.
Proof. by destruct t. Qed.

Lemma valueOfL_erase t : AVLTree.valueOf (erase t) = valueOfL t.
Proof. by destruct t. Qed.

Lemma erase_rightRotateL y : erase <$> rightRotateL y = AVLTree.rightRotate (erase y).
Proof.
  destruct y as [|ya yv [|xa xv xl T2 xh] yr yh]; simpl; try done.
  by rewrite !heightOf_erase.
Qed.

Lemma erase_leftRotateL x : erase <$> leftRotateL x = AVLTree.leftRotate (erase x).
Proof.
  destruct x as [|xa xv xl [|ya yv T2 yr yh] xh]; simpl; try done.
  by rewrite !heightOf_erase.
Qed.

Lemma erase_rebalanceL value a rv l r :
  erase <$> rebalanceL value a rv l r
  = AVLTree.rebalance value rv (erase l) (erase r).
Proof.
  unfold rebalanceL, AVLTree.rebalance. cbv zeta. cbn [AVLTree.getBalance].
  rewrite !heightOf_erase, !valueOfL_erase.
  set (hn := (1 + Z.max (heightOf l) (heightOf r))%Z).
  destruct (AVLTree.andLess _ (Some value) (valueOfL l)) as [[|]|]; simpl;
    [apply (erase_rightRotateL (LNode a rv l r hn))| |done].
  destruct (AVLTree.andLess _ (valueOfL r) (Some value)) as [[|]|]; simpl;
    [apply (erase_leftRotateL (LNode a rv l r hn))| |done].
  destruct (AVLTree.andLess _ (valueOfL l) (Some value)) as [[|]|]; simpl;
    [| |done].
  { rewrite <- erase_leftRotateL. destruct (leftRotateL l) as [l'|]; simpl; [|done].
    apply (erase_rightRotateL (LNode a rv l' r hn)). }
  destruct (AVLTree.andLess _ (Some value) (valueOfL r)) as [[|]|]; simpl;
    [|done|done].
  rewrite <- erase_rightRotateL. destruct (rightRotateL r) as [r'|]; simpl; [|done].
  apply (erase_leftRotateL (LNode a rv l r' hn)).
Qed.

Lemma erase_insertL fresh t v :
  erase <$> insertL fresh t v = AVLTree.avlInsert (erase t) v.
Proof.
  induction t as [|a rv l IHl r IHr ht]; simpl; [done|].
  destruct (v <? rv)%Z.
  - rewrite <- IHl. destruct (insertL fresh l v) as [l'|]; simpl; [|done].
    apply erase_rebalanceL.
  - rewrite <- IHr. destruct (insertL fresh r v) as [r'|]; simpl; [|done].
    apply erase_rebalanceL.
Qed.

(** *** [avlInsert] on the store *)

Lemma depth_labels t : depth t ≤ length (labels t).
Proof.
  induction t as [|a v l IHl r IHr ht]; simpl; [done|].
  rewrite length_app. lia.
Qed.

Lemma heap_insert t : ∀ fuel h v,
  repr h t → NoDup (labels t) → depth t < fuel →
  refines h (S (length h)) (labels t) (length h :: labels t)
          (insertL (length h) t v) (avlInsert fuel (rootRef t) v h).
Proof.
  induction t as [|a rv l IHl r IHr ht]; intros fuel h v Ht Hnd Hfuel.
  - destruct fuel; [simpl in Hfuel; lia|]. simpl.
    exists (h ++ [mkObject v None None 1%Z]).
    split; [done|]. split.
    { split_and!; [|done..]. by rewrite lookup_app_r, Nat.sub_diag by lia. }
    split; [rewrite length_app; simpl; lia|]. split; [done|].
    intros i Hi _. by rewrite lookup_app_l.
  - destruct fuel as [|fuel]; [simpl in Hfuel; lia|]. simpl in Hfuel.
    destruct Ht as (Ha & Hl & Hr).
    pose proof Hnd as Hnd0. simpl in Hnd0. apply NoDup_cons in Hnd0 as [Hanot Hndlr].
    rewrite not_elem_of_app in Hanot. destruct Hanot as [Hal Har].
    apply NoDup_app in Hndlr as (Hndl & Hdis & Hndr).
    assert (Halt : a < length h) by (by eapply lookup_lt_Some).
    assert (Hfresh : ∀ i, i ∈ a :: labels l ++ labels r → i < length h).
    { intros i Hi. apply (hrepr_lt h (LNode a rv l r ht)); [done|done]. }
    cbn [avlInsert insertL rootRef].
    hstep (hrun_read AVLHeap.value _ _ _ Ha). cbn [AVLHeap.value].
    destruct (v <? rv)%Z.
    + specialize (IHl fuel h v Hl Hndl ltac:(lia)). unfold refines in IHl.
      destruct (insertL (length h) l v) as [l'|] eqn:El; cbn [mbind option_bind].
      * destruct IHl as (h1 & Hrun & Hl' & Hlen1 & Hperm & Hfr).
        assert (H1a : h1 !! a = Some (mkObject rv (rootRef l) (rootRef r) ht))
          by (by rewrite Hfr).
        set (h2 := <[a := mkObject rv (rootRef l') (rootRef r) ht]> h1).
        assert (Hm : (l0 ← read left (Some a); l'0 ← avlInsert fuel l0 v;
                      write (setLeft l'0) (Some a)) h = Done (tt, h2)).
        { hstep (hrun_read left _ _ _ Ha). cbn [AVLHeap.left].
          hstep Hrun. by rewrite (hrun_write _ _ _ _ H1a). }
        hstep Hm.
        assert (Hlen2 : length h2 = S (length h))
          by (unfold h2; by rewrite length_insert).
        rewrite <- Hlen2.
        assert (Hal' : a ∉ labels l').
        { rewrite Hperm, not_elem_of_cons. split; [lia|done]. }
        apply (heap_rebalance h h2 a rv l' r ht v).
        -- unfold h2. apply list_lookup_insert_eq. by eapply lookup_lt_Some.
        -- unfold h2. by apply hrepr_insert.
        -- unfold h2. apply hrepr_insert; [done|]. eapply hrepr_ext; [|exact Hr].
           intros i Hi. apply Hfr; [apply Hfresh; set_solver|].
           intros Hil. by apply (Hdis i Hil).
        -- apply NoDup_cons. split; [set_solver|].
           apply NoDup_app. split; [|split; [|done]].
           ++ rewrite Hperm. apply NoDup_cons. split; [|done].
              intros Hin. assert (length h < length h); [|lia].
              apply Hfresh. set_solver.
           ++ intros i Hi. rewrite Hperm in Hi.
              apply elem_of_cons in Hi as [->|Hi]; [|by apply Hdis].
              intros Hin. assert (length h < length h); [|lia].
              apply Hfresh. set_solver.
        -- simpl. rewrite Hperm. simpl. apply perm_swap.
        -- intros i Hi HiL. rewrite not_elem_of_cons. split; [lia|done].
        -- intros i Hi HiL. simpl in HiL.
           rewrite not_elem_of_cons, not_elem_of_app in HiL.
           destruct HiL as (Hia & Hil & Hir).
           unfold h2. rewrite list_lookup_insert_ne by done. by apply Hfr.
      * rewrite (hbind_TypeError _ _ h); [done|].
        hstep (hrun_read left _ _ _ Ha). cbn [AVLHeap.left].
        by rewrite (hbind_TypeError _ _ _ IHl).
    + specialize (IHr fuel h v Hr Hndr ltac:(lia)). unfold refines in IHr.
      destruct (insertL (length h) r v) as [r'|] eqn:Er; cbn [mbind option_bind].
      * destruct IHr as (h1 & Hrun & Hr' & Hlen1 & Hperm & Hfr).
        assert (H1a : h1 !! a = Some (mkObject rv (rootRef l) (rootRef r) ht))
          by (by rewrite Hfr).
        set (h2 := <[a := mkObject rv (rootRef l) (rootRef r') ht]> h1).
        assert (Hm : (r0 ← read right (Some a); r'0 ← avlInsert fuel r0 v;
                      write (setRight r'0) (Some a)) h = Done (tt, h2)).
        { hstep (hrun_read right _ _ _ Ha). cbn [AVLHeap.right].
          hstep Hrun. by rewrite (hrun_write _ _ _ _ H1a). }
        hstep Hm.
        assert (Hlen2 : length h2 = S (length h))
          by (unfold h2; by rewrite length_insert).
        rewrite <- Hlen2.
        assert (Har' : a ∉ labels r').
        { rewrite Hperm, not_elem_of_cons. split; [lia|done]. }
        apply (heap_rebalance h h2 a rv l r' ht v).
        -- unfold h2. apply list_lookup_insert_eq. by eapply lookup_lt_Some.
        -- unfold h2. apply hrepr_insert; [done|]. eapply hrepr_ext; [|exact Hl].
           intros i Hi. apply Hfr; [apply Hfresh; set_solver|]. by apply Hdis.
        -- unfold h2. by apply hrepr_insert.
        -- apply NoDup_cons. split; [set_solver|].
           apply NoDup_app. split; [done|split].
           ++ intros i Hi. rewrite Hperm.
              rewrite not_elem_of_cons. split; [|by apply Hdis].
              intros ->. assert (length h < length h); [|lia].
              apply Hfresh. set_solver.
           ++ rewrite Hperm. apply NoDup_cons. split; [|done].
              intros Hin. assert (length h < length h); [|lia].
              apply Hfresh. set_solver.
        -- simpl. rewrite Hperm. rewrite <- Permutation_middle. apply perm_swap.
        -- intros i Hi HiL. rewrite not_elem_of_cons. split; [lia|done].
        -- intros i Hi HiL. simpl in HiL.
           rewrite not_elem_of_cons, not_elem_of_app in HiL.
           destruct HiL as (Hia & Hil & Hir).
           unfold h2. rewrite list_lookup_insert_ne by done. by apply Hfr.
      * rewrite (hbind_TypeError _ _ h); [done|].
        hstep (hrun_read right _ _ _ Ha). cbn [AVLHeap.right].
        by rewrite (hbind_TypeError _ _ _ IHr).
Qed.

End AVLHeapInsert.

Section AVLHeapRecorder.
Import AVLHeap AVLHeapSpec.
Local Open Scope nat_scope.
Implicit Types (h : list AVLObject) (t l r : ltree).

Ltac hstep L := rewrite (hbind_Done _ _ _ _ _ L); cbv beta.

Lemma stringify_repr h t : ∀ fuel, repr h t → depth t ≤ fuel →
  stringify fuel h (rootRef t) = Done (AVLTree.toJSON (erase t)).
Proof.
  induction t as [|a v l IHl r IHr ht]; intros fuel Ht Hd.
  - by destruct fuel.
  - destruct fuel as [|fuel]; [simpl in Hd; lia|]. simpl in Hd.
    destruct Ht as (Ha & Hl & Hr). cbn [stringify rootRef]. rewrite Ha.
    cbn [AVLHeap.left AVLHeap.right AVLHeap.value AVLHeap.height].
    by rewrite (IHl fuel Hl ltac:(lia)), (IHr fuel Hr ltac:(lia)).
Qed.

Lemma readTree_repr h t : ∀ fuel, repr h t → depth t ≤ fuel →
  readTree fuel h (rootRef t) = Some (erase t).
Proof.
  induction t as [|a v l IHl r IHr ht]; intros fuel Ht Hd.
  - by destruct fuel.
  - destruct fuel as [|fuel]; [simpl in Hd; lia|]. simpl in Hd.
    destruct Ht as (Ha & Hl & Hr). cbn [readTree rootRef]. rewrite Ha.
    cbn [mbind option_bind AVLHeap.left AVLHeap.right AVLHeap.value AVLHeap.height].
    by rewrite (IHl fuel Hl ltac:(lia)), (IHr fuel Hr ltac:(lia)).
Qed.

Lemma labels_bound (L : list nat) n :
  NoDup L → (∀ i, i ∈ L → i < n) → length L ≤ n.
Proof.
  intros Hnd Hlt. rewrite <- (length_seq n 0).
  apply submseteq_length, NoDup_submseteq; [done|].
  intros i Hi. apply elem_of_seq. specialize (Hlt i Hi). lia.
Qed.

Lemma depth_bound h t : repr h t → NoDup (labels t) → depth t ≤ length h.
Proof.
  intros Ht Hnd. etrans; [apply depth_labels|].
  apply labels_bound; [done|]. intros i. by apply hrepr_lt.
Qed.

Lemma shows_repr h t :
  repr h t → NoDup (labels t) → shows h (rootRef t) = Some (erase t).
Proof.
  intros Ht Hnd. apply readTree_repr; [done|].
  pose proof (depth_bound h t Ht Hnd). lia.
Qed.

Lemma parse_object v jl jr ht :
  parse (JS.JObj [("value"%string, JS.JNum v); ("left"%string, jl);
                  ("right"%string, jr); ("height"%string, JS.JNum ht)])
  = (l ← parse jl; r ← parse jr; alloc (mkObject v l r ht)).
Proof. reflexivity. Qed.

(** [JSON.parse] builds the tree out of new objects. *)
Lemma parse_toJSON (t : AVLTree.AVLNode) : ∀ h, ∃ (c : ltree) ext,
  parse (AVLTree.toJSON t) h = Done (rootRef c, h ++ ext)
  ∧ erase c = t ∧ repr (h ++ ext) c ∧ NoDup (labels c)
  ∧ (∀ i, i ∈ labels c → length h ≤ i).
Proof.
  induction t as [|v l IHl r IHr ht]; intros h.
  - exists LNull, []. rewrite app_nil_r. split_and!; try done.
    + constructor.
    + set_solver.
  - destruct (IHl h) as (cl & e1 & Hpl & Hel & Hrl & Hndl & Hgel).
    destruct (IHr (h ++ e1)) as (cr & e2 & Hpr & Her & Hrr & Hndr & Hger).
    set (o := mkObject v (rootRef cl) (rootRef cr) ht).
    exists (LNode (length ((h ++ e1) ++ e2)) v cl cr ht), (e1 ++ e2 ++ [o]).
    assert (Hltl : ∀ i, i ∈ labels cl → i < length (h ++ e1))
      by (intros i; by apply hrepr_lt).
    assert (Hltr : ∀ i, i ∈ labels cr → i < length ((h ++ e1) ++ e2))
      by (intros i; by apply hrepr_lt).
    assert (Hle : length h ≤ length (h ++ e1)) by (rewrite length_app; lia).
    assert (Hle2 : length (h ++ e1) ≤ length ((h ++ e1) ++ e2))
      by (rewrite (length_app (h ++ e1)); lia).
    split_and!.
    + cbn [AVLTree.toJSON]. rewrite parse_object.
      hstep Hpl. hstep Hpr. unfold alloc. cbn [rootRef].
      by rewrite <- !app_assoc.
    + simpl. by rewrite Hel, Her.
    + replace (h ++ e1 ++ e2 ++ [o]) with (((h ++ e1) ++ e2) ++ [o])
        by (by rewrite <- !app_assoc).
      split_and!.
      * by rewrite lookup_app_r, Nat.sub_diag by lia.
      * by do 2 apply hrepr_app.
      * by apply hrepr_app.
    + simpl. apply NoDup_cons. split.
      * rewrite not_elem_of_app. split; intros Hi.
        -- specialize (Hltl _ Hi). lia.
        -- specialize (Hltr _ Hi). lia.
      * apply NoDup_app. split; [done|]. split; [|done].
        intros i Hi Hi'. specialize (Hltl _ Hi). specialize (Hger _ Hi'). lia.
    + intros i Hi. simpl in Hi. apply elem_of_cons in Hi as [->|Hi]; [lia|].
      apply elem_of_app in Hi as [Hi|Hi]; [by apply Hgel|].
      specialize (Hger _ Hi). lia.
Qed.

Lemma elem_of_copies (copies : list ltree) i :
  i ∈ concat (labels <$> copies) ↔ ∃ c, c ∈ copies ∧ i ∈ labels c.
Proof.
  induction copies as [|c copies IH]; simpl.
  - split; [by intros ?%elem_of_nil|]. by intros (c & ?%elem_of_nil & _).
  - rewrite elem_of_app, IH. split.
    + intros [Hi|(c' & Hc' & Hi)]; [exists c|exists c']; set_solver.
    + intros (c' & Hc' & Hi). apply elem_of_cons in Hc' as [->|Hc']; eauto.
Qed.

Lemma recorded_lt h live copies steps i :
  recorded h live copies steps →
  i ∈ labels live ++ concat (labels <$> copies) → i < length h.
Proof.
  intros (Hl & Hc & _ & _) Hi. apply elem_of_app in Hi as [Hi|Hi].
  - by eapply hrepr_lt.
  - apply elem_of_copies in Hi as (c & Hin & Hi).
    rewrite Forall_forall in Hc. eapply hrepr_lt; [by apply Hc|done].
Qed.

(** The recorder on the store does what the recorder on values does, and
    keeps the live tree and the copies apart. *)
Lemma heap_forEach values : ∀ h live copies steps fsteps,
  recorded h live copies steps →
  Forall2 (λ c s, AVLTree.tree s = AVLTree.toJSON (erase c)) copies fsteps →
  current <$> steps = AVLTree.current <$> fsteps →
  match AVLTree.forEach values (erase live) fsteps with
  | Some (t, fsteps') =>
      ∃ h' live' copies' steps',
        forEach values (rootRef live) steps h
        = Done ((rootRef live', steps'), h')
        ∧ recorded h' live' copies' steps'
        ∧ erase live' = t
        ∧ Forall2 (λ c s, AVLTree.tree s = AVLTree.toJSON (erase c))
                  copies' fsteps'
        ∧ current <$> steps' = AVLTree.current <$> fsteps'
  | None => forEach values (rootRef live) steps h = TypeError
  end.
Proof.
  induction values as [|v values IH]; intros h live copies steps fsteps Hrec Hcs Hcur.
  - simpl. by exists h, live, copies, steps.
  - pose proof Hrec as (Hlive & Hcopies & Hnd & Htree).
    pose proof Hnd as Hnd'. apply NoDup_app in Hnd' as (Hndl & Hdis & Hndc).
    pose proof (depth_bound h live Hlive Hndl) as Hdepth.
    pose proof (heap_insert live (S (length h)) h v Hlive Hndl ltac:(lia)) as Hins.
    unfold refines in Hins.
    cbn [AVLTree.forEach]. rewrite <- (erase_insertL (length h)).
    destruct (insertL (length h) live v) as [live1|] eqn:E;
      cbn [fmap option_fmap option_map mbind option_bind].
    + destruct Hins as (h1 & Hrun & Hlive1 & Hlen1 & Hperm & Hfr).
      assert (Hfresh : length h ∉ labels live ++ concat (labels <$> copies)).
      { intros Hi. apply (recorded_lt _ _ _ _ _ Hrec) in Hi. lia. }
      assert (Hndl1 : NoDup (labels live1)).
      { rewrite Hperm. apply NoDup_cons. split; [|done].
        intros Hi. apply Hfresh. set_solver. }
      assert (Hstr : stringify (S (length h1)) h1 (rootRef live1)
                     = Done (AVLTree.toJSON (erase live1))).
      { apply stringify_repr; [done|].
        pose proof (depth_bound h1 live1 Hlive1 Hndl1). lia. }
      destruct (parse_toJSON (erase live1) h1)
        as (c & ext & Hparse & Hec & Hc & Hndc1 & Hgec).
      set (s := {| tree := rootRef c; current := v |}).
      assert (Hrun' : forEach (v :: values) (rootRef live) steps h
                      = forEach values (rootRef live1) (steps ++ [s]) (h1 ++ ext)).
      { cbn [forEach].
        rewrite (hbind_Done (λ h, avlInsert (S (length h)) (rootRef live) v h)
                            _ h _ h1 Hrun).
        rewrite (hbind_Done _ _ h1 (AVLTree.toJSON (erase live1)) h1)
          by (by rewrite Hstr).
        by hstep Hparse. }
      rewrite Hrun'.
      apply (IH (h1 ++ ext) live1 (copies ++ [c]) (steps ++ [s])).
      * split_and!.
        -- by apply hrepr_app.
        -- apply Forall_app. split; [|by repeat constructor].
           apply Forall_forall. intros cp Hcp. apply hrepr_app.
           rewrite Forall_forall in Hcopies.
           eapply hrepr_ext; [|by apply Hcopies].
           intros i Hi. apply Hfr; [eapply hrepr_lt; [by apply Hcopies|done]|].
           intros HiL. apply (Hdis i HiL). apply elem_of_copies. eauto.
        -- rewrite Hperm, fmap_app, concat_app. simpl. rewrite app_nil_r.
           apply NoDup_cons. split.
           ++ rewrite app_assoc, not_elem_of_app. split; [done|].
              intros Hi. specialize (Hgec _ Hi). lia.
           ++ rewrite app_assoc. apply NoDup_app. split; [done|]. split; [|done].
              intros i Hi Hi'. apply (recorded_lt _ _ _ _ _ Hrec) in Hi.
              specialize (Hgec _ Hi'). lia.
        -- by rewrite !fmap_app, Htree.
      * apply Forall2_app; [done|]. constructor; [|constructor].
        simpl. by rewrite Hec.
      * by rewrite !fmap_app, Hcur.
    + cbn [forEach]. by apply hbind_TypeError.
Qed.

End AVLHeapRecorder.

Section AVLHeapTrace.
Import AVLHeap AVLHeapSpec.
Local Open Scope nat_scope.
Implicit Types (h : list AVLObject) (t l r : ltree).

Lemma NoDup_copies (copies : list ltree) c :
  NoDup (concat (labels <$> copies)) → c ∈ copies → NoDup (labels c).
Proof.
  induction copies as [|c' copies IH]; simpl; [by intros _ ?%elem_of_nil|].
  intros (H1 & _ & H2)%NoDup_app [->|Hc]%elem_of_cons; auto.
Qed.

Lemma recorded_empty : recorded [] LNull [] [].
Proof. split_and!; try done; constructor. Qed.

(** What a recorded step shows. *)
Lemma recorded_step h live copies steps fsteps k step :
  recorded h live copies steps →
  Forall2 (λ c s, AVLTree.tree s = AVLTree.toJSON (erase c)) copies fsteps →
  steps !! k = Some step →
  ∃ copy fstep,
    fsteps !! k = Some fstep
    ∧ AVLTree.tree fstep = AVLTree.toJSON (erase copy)
    ∧ repr h copy ∧ rootRef copy = tree step
    ∧ (∀ i, i ∈ labels copy → i ∉ labels live)
    ∧ shows h (tree step) = Some (erase copy).
Proof.
  intros (Hlive & Hcopies & Hnd & Htree) Hcs Hk.
  assert (Hk' : (rootRef <$> copies) !! k = Some (tree step))
    by (by rewrite <- Htree, list_lookup_fmap, Hk).
  apply list_lookup_fmap_Some in Hk' as (copy & Hroot & Hcopy). symmetry in Hroot.
  destruct (Forall2_lookup_l _ _ _ _ _ Hcs Hcopy) as (fstep & Hf & Hfs).
  assert (Hin : copy ∈ copies) by (by eapply list_elem_of_lookup_2).
  rewrite Forall_forall in Hcopies. apply NoDup_app in Hnd as (_ & Hdis & Hndc).
  exists copy, fstep. split_and!; try done.
  - by apply Hcopies.
  - intros i Hi HiL. apply (Hdis i HiL). apply elem_of_copies. eauto.
  - rewrite <- Hroot. apply shows_repr; [by apply Hcopies|].
    by apply (NoDup_copies copies).
Qed.

Lemma heap_forEach_app vs1 vs2 : ∀ root steps h,
  forEach (vs1 ++ vs2) root steps h
  = match forEach vs1 root steps h with
    | Done ((r, s), h') => forEach vs2 r s h'
    | TypeError => TypeError
    | Diverge => Diverge
    end.
Proof.
  induction vs1 as [|v vs1 IH]; intros root steps h; [done|].
  cbn [app forEach]. unfold mbind, M_bind.
  destruct (avlInsert (S (length h)) root v h) as [[r1 h1]| |]; [|done..].
  destruct (stringify (S (length h1)) h1 r1) as [j| |]; [|done..].
  destruct (parse j h1) as [[c h2]| |]; [|done..].
  apply IH.
Qed.

Lemma heap_forEach_extends values : ∀ root steps h root' steps' h',
  forEach values root steps h = Done ((root', steps'), h') →
  ∃ new, steps' = steps ++ new ∧ length new = length values.
Proof.
  induction values as [|v values IH]; intros root steps h root' steps' h' H.
  - injection H as <- <- <-. exists []. by rewrite app_nil_r.
  - cbn [forEach] in H. unfold mbind, M_bind in H.
    destruct (avlInsert (S (length h)) root v h) as [[r1 h1]| |]; [|done..].
    destruct (stringify (S (length h1)) h1 r1) as [j| |]; [|done..].
    destruct (parse j h1) as [[c h2]| |]; [|done..].
    destruct (IH _ _ _ _ _ _ H) as (new & -> & Hlen).
    eexists (_ :: new). rewrite <- app_assoc. split; [done|]. simpl. by rewrite Hlen.
Qed.

(** The two recorders agree. *)
Lemma heap_trace_agrees values :
  match AVLTree.forEach values AVLTree.Null [] with
  | Some (t, fsteps) =>
      ∃ live copies steps store,
        forEach values None [] [] = Done ((rootRef live, steps), store)
        ∧ recorded store live copies steps
        ∧ erase live = t
        ∧ Forall2 (λ c s, AVLTree.tree s = AVLTree.toJSON (erase c)) copies fsteps
        ∧ current <$> steps = AVLTree.current <$> fsteps
  | None => forEach values None [] [] = TypeError
  end.
Proof.
  pose proof (heap_forEach values [] LNull [] [] [] recorded_empty
                ltac:(constructor) eq_refl) as H.
  simpl in H. destruct (AVLTree.forEach values AVLTree.Null []) as [[t fsteps]|];
    [|done].
  destruct H as (h' & live' & copies' & steps' & H). by exists live', copies', steps', h'.
Qed.

Lemma heap_trace_step values root steps store k step :
  forEach values None [] [] = Done ((root, steps), store) →
  steps !! k = Some step →
  ∃ live copy,
    (repr store live ∧ rootRef live = root
     ∧ AVLTree.insertAll values = Some (erase live))
    ∧ (repr store copy ∧ rootRef copy = tree step
       ∧ AVLTree.insertAll (take (S k) values) = Some (erase copy))
    ∧ (∀ i, i ∈ labels copy → i ∉ labels live)
    ∧ shows store (tree step) = Some (erase copy).
Proof.
  intros Hrun Hk. pose proof (heap_trace_agrees values) as H.
  unfold AVLTree.insertAll.
  destruct (AVLTree.forEach values AVLTree.Null []) as [[t fsteps]|] eqn:E;
    [|by rewrite H in Hrun].
  destruct H as (live & copies & steps' & store' & Hrun' & Hrec & Ht & Hcs & _).
  rewrite Hrun' in Hrun. injection Hrun as <- <- <-.
  destruct (recorded_step _ _ _ _ _ _ _ Hrec Hcs Hk)
    as (copy & fstep & Hf & Hfs & Hcopy & Hroot & Hdis & Hshow).
  destruct (avl_forEach_lookup values AVLTree.Null [] t fsteps k fstep E Hf)
    as (t' & Ht' & Hfs').
  assert (t' = erase copy) as ->.
  { rewrite <- (avlOfJSON_toJSON t'), <- Hfs', Hfs. apply avlOfJSON_toJSON. }
  exists live, copy. split_and!; try done.
  - apply Hrec.
  - simpl. by rewrite Ht.
Qed.

(** Insertions made after a step was recorded leave what the step shows as
    it was. *)
Lemma heap_trace_frame vs1 vs2 root1 steps1 store1 root2 steps2 store2 k step :
  forEach vs1 None [] [] = Done ((root1, steps1), store1) →
  forEach vs2 root1 steps1 store1 = Done ((root2, steps2), store2) →
  steps1 !! k = Some step →
  steps2 !! k = Some step
  ∧ ∃ shown, AVLTree.insertAll (take (S k) vs1) = Some shown
             ∧ shows store1 (tree step) = Some shown
             ∧ shows store2 (tree step) = Some shown.
Proof.
  intros H1 H2 Hk.
  destruct (heap_forEach_extends _ _ _ _ _ _ _ H2) as (new & -> & _).
  assert (Hk2 : (steps1 ++ new) !! k = Some step) by (by apply lookup_app_l_Some).
  split; [done|].
  assert (H12 : forEach (vs1 ++ vs2) None [] []
                = Done ((root2, steps1 ++ new), store2))
    by (by rewrite heap_forEach_app, H1).
  destruct (heap_trace_step _ _ _ _ _ _ H1 Hk)
    as (live1 & copy1 & _ & (_ & _ & Hi1) & _ & Hs1).
  destruct (heap_trace_step _ _ _ _ _ _ H12 Hk2)
    as (live2 & copy2 & _ & (_ & _ & Hi2) & _ & Hs2).
  destruct (heap_forEach_extends _ _ _ _ _ _ _ H1) as (new1 & Hn1 & Hlen1).
  simpl in Hn1. subst steps1. apply lookup_lt_Some in Hk.
  rewrite take_app_le in Hi2 by lia.
  exists (erase copy1). split; [done|]. split; [done|].
  rewrite Hs2. rewrite Hi1 in Hi2. by injection Hi2 as <-.
Qed.

End AVLHeapTrace.

Section JointClaims.
Import JS.
Local Open Scope nat_scope.

(** C4.  Every snapshot of every recorded trace, of either engine, reads in
    order as a non-decreasing sequence of keys; the Red-Black recorder
    returns such a trace for every input. *)
Theorem trace_snapshots_in_order :
  (∀ values steps,
     AVLTree.buildAVLTreeSteps values = Some steps →
     Forall (λ step, Sorted Z.le (JS.inorder (AVLTree.tree step))) steps)
  ∧ (∀ values, ∃ steps,
       RedBlackTree.buildRedBlackTreeSteps values = RedBlackTree.Done steps
       ∧ Forall (λ snapshot, Sorted Z.le (JS.inorder snapshot)) steps).
Proof.
  split.
  - intros values steps H. apply Forall_lookup. intros k s Hk.
    unfold AVLTree.buildAVLTreeSteps in H.
    destruct (AVLTree.forEach values AVLTree.Null []) as [[root ss]|] eqn:E; [|done].
    injection H as <-.
    destruct (avl_forEach_lookup _ _ _ _ _ k s E Hk) as (t & Ht & ->).
    rewrite avl_toJSON_inorder. apply StronglySorted_Sorted.
    by apply (avl_insertAll_sorted (take (S k) values)).
  - intros values. destruct (rb_build_spec values) as (steps & Hrun & _ & Hall).
    exists steps. split; [done|]. eapply Forall_impl; [exact Hall|].
    intros j (u & -> & _ & Hs). rewrite inorder_jsonOf. by apply StronglySorted_Sorted.
Qed.

(** Recording more keys only appends to the trace. *)
Lemma avl_forEach_app vs1 vs2 : ∀ root steps,
  AVLTree.forEach (vs1 ++ vs2) root steps
  = AVLTree.forEach vs1 root steps ≫= λ '(r, s), AVLTree.forEach vs2 r s.
Proof.
  induction vs1 as [|v vs1 IH]; intros root steps; simpl; [done|].
  destruct (AVLTree.avlInsert root v) as [r1|]; [|done]. simpl. apply IH.
Qed.

Lemma avl_trace_prefix vs1 vs2 steps :
  AVLTree.buildAVLTreeSteps (vs1 ++ vs2) = Some steps →
  AVLTree.buildAVLTreeSteps vs1 = Some (take (length vs1) steps).
Proof.
  unfold AVLTree.buildAVLTreeSteps. rewrite avl_forEach_app. intros H.
  destruct (AVLTree.forEach vs1 AVLTree.Null []) as [[r1 s1]|] eqn:E1; [|done].
  simpl in *.
  destruct (AVLTree.forEach vs2 r1 s1) as [[r2 s2]|] eqn:E2; [|done].
  injection H as <-.
  destruct (avl_forEach_extends _ _ _ _ _ E1) as (new1 & -> & Hl1 & _).
  destruct (avl_forEach_extends _ _ _ _ _ E2) as (new2 & -> & _).
  simpl. by rewrite take_app_length' by done.
Qed.

Lemma rb_forEach_app vs1 vs2 : ∀ root steps h,
  RedBlackTree.forEach (vs1 ++ vs2) root steps h
  = match RedBlackTree.forEach vs1 root steps h with
    | RedBlackTree.Done ((r, s), h') => RedBlackTree.forEach vs2 r s h'
    | RedBlackTree.TypeError => RedBlackTree.TypeError
    | RedBlackTree.Diverge => RedBlackTree.Diverge
    end.
Proof.
  induction vs1 as [|v vs1 IH]; intros root steps h; simpl; [done|].
  unfold mbind, RedBlackTree.M_bind.
  destruct (RedBlackTree.redBlackInsert root v h) as [[r1 h1]| |]; [|done..].
  destruct (RedBlackTree.cloneTree r1 h1) as [[j h2]| |]; [|done..].
  apply IH.
Qed.

Lemma rb_trace_prefix vs1 vs2 steps :
  RedBlackTree.buildRedBlackTreeSteps (vs1 ++ vs2) = RedBlackTree.Done steps →
  RedBlackTree.buildRedBlackTreeSteps vs1
  = RedBlackTree.Done (take (length vs1) steps).
Proof.
  unfold RedBlackTree.buildRedBlackTreeSteps. rewrite rb_forEach_app. intros H.
  destruct (RedBlackTree.forEach vs1 None [] []) as [[[r1 s1] h1]| |] eqn:E1;
    [|done..].
  destruct (rb_forEach_reachable _ _ _ _ E1) as (t1 & _ & Hl1 & _).
  rewrite rb_forEach_steps in H.
  destruct (RedBlackTree.forEach vs2 r1 [] h1) as [[[r2 s2] h2]| |]; [|done..].
  simpl in *. injection H as <-. by rewrite take_app_length' by done.
Qed.

(** C8.  Step [k] of a trace is the full copy, without any [parent]
    property, of the live tree as it was after the first [k + 1] insertions,
    whatever was inserted afterwards: read back through its [value], [left],
    [right] and [height] (AVL) or [color] (Red-Black) properties it is that
    tree, node for node.  Recording more keys leaves the snapshots taken so
    far as they were.

    For the AVL recorder this also holds on the store, where [avlInsert]
    writes into the nodes it is given and [JSON.parse] makes the objects of
    a snapshot.  A step that has been recorded stays in the trace, and after
    any further insertions it shows, object for object, the tree it showed
    when it was recorded: the live tree of that moment.  No object that a
    step reaches is an object of the live tree. *)
Theorem snapshots_are_detached_copies :
  (∀ values steps k step,
     AVLTree.buildAVLTreeSteps values = Some steps → steps !! k = Some step →
     ∃ t, AVLTree.insertAll (take (S k) values) = Some t
          ∧ SnapshotSpec.avlOfJSON (AVLTree.tree step) = t
          ∧ JS.mentions "parent" (AVLTree.tree step) = false)
  ∧ (∀ values steps k snapshot,
       RedBlackTree.buildRedBlackTreeSteps values = RedBlackTree.Done steps →
       steps !! k = Some snapshot →
       ∃ root s h t,
         RedBlackTree.forEach (take (S k) values) None [] []
         = RedBlackTree.Done ((root, s), h)
         ∧ RBSpec.liveTree h root = Some t
         ∧ snapshot = RBSpec.jsonOf t
         ∧ RBSpec.shapeOf snapshot = RBSpec.erase t
         ∧ JS.mentions "parent" snapshot = false)
  ∧ (∀ vs1 vs2 steps,
       AVLTree.buildAVLTreeSteps (vs1 ++ vs2) = Some steps →
       AVLTree.buildAVLTreeSteps vs1 = Some (take (length vs1) steps))
  ∧ (∀ vs1 vs2 steps,
       RedBlackTree.buildRedBlackTreeSteps (vs1 ++ vs2) = RedBlackTree.Done steps →
       RedBlackTree.buildRedBlackTreeSteps vs1
       = RedBlackTree.Done (take (length vs1) steps))
  ∧ (∀ vs1 vs2 root1 steps1 store1 root2 steps2 store2 k step,
       AVLHeap.forEach vs1 None [] []
       = RedBlackTree.Done ((root1, steps1), store1) →
       AVLHeap.forEach vs2 root1 steps1 store1
       = RedBlackTree.Done ((root2, steps2), store2) →
       steps1 !! k = Some step →
       steps2 !! k = Some step
       ∧ ∃ shown,
           AVLTree.insertAll (take (S k) vs1) = Some shown
           ∧ AVLHeapSpec.shows store1 (AVLHeap.tree step) = Some shown
           ∧ AVLHeapSpec.shows store2 (AVLHeap.tree step) = Some shown)
  ∧ (∀ values root steps store k step,
       AVLHeap.forEach values None [] []
       = RedBlackTree.Done ((root, steps), store) →
       steps !! k = Some step →
       ∃ live copy,
         (AVLHeapSpec.repr store live ∧ AVLHeapSpec.rootRef live = root
          ∧ AVLTree.insertAll values = Some (AVLHeapSpec.erase live))
         ∧ (AVLHeapSpec.repr store copy
            ∧ AVLHeapSpec.rootRef copy = AVLHeap.tree step
            ∧ AVLTree.insertAll (take (S k) values)
              = Some (AVLHeapSpec.erase copy))
         ∧ (∀ i, i ∈ AVLHeapSpec.labels copy → i ∉ AVLHeapSpec.labels live)
         ∧ AVLHeapSpec.shows store (AVLHeap.tree step)
           = Some (AVLHeapSpec.erase copy)).
Proof.
  split; [|split; [|split; [|split; [|split]]]].
  - intros values steps k s H Hk. unfold AVLTree.buildAVLTreeSteps in H.
    destruct (AVLTree.forEach values AVLTree.Null []) as [[root ss]|] eqn:E; [|done].
    injection H as <-.
    destruct (avl_forEach_lookup _ _ _ _ _ k s E Hk) as (t & Ht & Hs).
    exists t. split; [done|]. rewrite Hs.
    split; [apply avlOfJSON_toJSON|apply avl_toJSON_parent].
  - intros values steps k j H Hk. unfold RedBlackTree.buildRedBlackTreeSteps in H.
    destruct (RedBlackTree.forEach values None [] []) as [[[root ss] h]| |] eqn:E;
      [|done..].
    simpl in H. injection H as <-.
    destruct (rb_forEach_lookup _ _ _ _ _ _ _ k j reachable_empty E Hk)
      as (r1 & s1 & h1 & t1 & Hrun & Hlive & ->).
    exists r1, s1, h1, t1. split; [done|]. split; [done|]. split; [done|].
    split; [apply shapeOf_jsonOf|apply mentions_jsonOf].
  - apply avl_trace_prefix.
  - apply rb_trace_prefix.
  - apply heap_trace_frame.
  - apply heap_trace_step.
Qed.

Import RedBlackTree RBSpec.

(** C3, as the code has it.  In both engines a key smaller than the value
    of the node met goes left and any other key goes right.  The Red-Black
    engine accepts every key, hangs the new node as a leaf that lies to the
    left of an ancestor exactly when its key is smaller than the ancestor's,
    and returns a tree whose in-order sequence of nodes is the old one with
    the new node put behind every node whose key is not larger (so behind
    the equal ones).  Whenever the AVL engine returns, the in-order sequence
    of keys is the old one with the new key put behind every key that is not
    larger. *)
Theorem insert_lands_behind_equal_keys :
  (∀ rv l r h v,
     AVLTree.avlInsert (AVLTree.Node rv l r h) v
     = if (v <? rv)%Z
       then AVLTree.avlInsert l v ≫= λ l', AVLTree.rebalance v rv l' r
       else AVLTree.avlInsert r v ≫= λ r', AVLTree.rebalance v rv l r')
  ∧ (∀ values t v t',
       AVLTree.insertAll values = Some t → AVLTree.avlInsert t v = Some t' →
       AVLSpec.inorder t' = place v (AVLSpec.inorder t))
  ∧ (∀ values root steps h v,
       forEach values None [] [] = Done ((root, steps), h) →
       ∃ t cx root1 h1 root' h' t',
         liveTree h root = Some t
         ∧ attach root v h = Done ((root1, Some (length h)), h1)
         ∧ liveTree h1 root1 = Some (plug cx (T (length h) RED E v E))
         ∧ Forall (λ f, fside f = if (v <? fval f)%Z then L else R) cx
         ∧ redBlackInsert root v h = Done (root', h')
         ∧ liveTree h' root' = Some t'
         ∧ nodes t' = placeNode (length h, v) (nodes t)).
Proof.
  split; [done|]. split.
  - intros values t v t' Ht Hi. apply avl_insert_inorder; [|done].
    by apply (avl_insertAll_sorted values).
  - intros values root steps h v Hrun.
    destruct (rb_forEach_reachable _ _ _ _ Hrun) as (t & HR & _).
    destruct (rb_attach_holds h root t v (proj1 HR)) as (h1 & Hrun1 & HH1 & _).
    destruct (rb_insert_holds h root t v HR) as (h' & t' & Hins & HR' & _ & Hn).
    exists t, (path v t []), (rootRef (plug (path v t []) (T (length h) RED E v E))), h1, (rootRef t'), h', t'.
    split; [by apply rb_liveTree, HR|]. split; [exact Hrun1|].
    split; [by apply rb_liveTree|]. split; [by apply path_side|].
    split; [exact Hins|]. split; [by apply rb_liveTree, HR'|done].
Qed.

(** C3, as it is written, fails: after the keys 1, 2 the Red-Black insertion
    of a second 1 makes the new node (labelled 2) the root, with the old 1
    (labelled 0) as its left child, so the new node is not in the right
    subtree of the equal key that was there. *)
Lemma rb_duplicate_leaves_right_subtree :
  ∃ root steps h root' h' t',
    forEach [1; 2]%Z None [] [] = Done ((root, steps), h)
    ∧ redBlackInsert root 1 h = Done (root', h')
    ∧ liveTree h' root' = Some t'
    ∧ t' = T 2 BLACK (T 0 RED E 1%Z E) 1%Z (T 1 RED E 2%Z E)
    ∧ ¬ landsInRightSubtree (length h) 1 t'.
Proof.
  eexists _, _, _, _, _, _.
  split; [vm_compute; reflexivity|]. split; [vm_compute; reflexivity|].
  split; [vm_compute; reflexivity|]. split; [reflexivity|].
  intros Hc. specialize (Hc 0 ltac:(simpl; lia)). simpl in Hc.
  specialize (Hc eq_refl). by apply elem_of_nil in Hc.
Qed.

End JointClaims.

Lemma rb_fixInsert_terminates_witness :
  ∃ root steps h,
    RedBlackTree.forEach [1; 2]%Z None [] [] = RedBlackTree.Done ((root, steps), h)
    ∧ ∃ root1 z h1,
        RedBlackTree.attach root 3 h = RedBlackTree.Done ((root1, z), h1)
        ∧ ∀ fuel, (RBSpec.depth h1 z / 2 < fuel)%nat →
            ∃ root2 h2,
              RedBlackTree.fixInsert fuel root1 z h1 = RedBlackTree.Done (root2, h2).
Proof.
  eexists _, _, _. split; [vm_compute; reflexivity|].
  eapply (rb_fixInsert_terminates [1; 2]%Z). vm_compute; reflexivity.
Defined.

Lemma trace_snapshots_in_order_witness :
  ∃ steps,
    AVLTree.buildAVLTreeSteps [3; 1; 2]%Z = Some steps
    ∧ Forall (λ step, Sorted Z.le (JS.inorder (AVLTree.tree step))) steps.
Proof.
  eexists. split; [vm_compute; reflexivity|].
  apply (proj1 trace_snapshots_in_order [3; 1; 2]%Z). vm_compute; reflexivity.
Defined.

Lemma snapshots_are_detached_copies_witness :
  (∃ steps step,
     AVLTree.buildAVLTreeSteps [3; 1; 2]%Z = Some steps
     ∧ steps !! 1%nat = Some step
     ∧ ∃ t, AVLTree.insertAll (take 2 [3; 1; 2]%Z) = Some t
            ∧ SnapshotSpec.avlOfJSON (AVLTree.tree step) = t
            ∧ JS.mentions "parent" (AVLTree.tree step) = false)
  ∧ (∃ root1 steps1 store1 root2 steps2 store2 step,
       AVLHeap.forEach [3; 1]%Z None [] []
       = RedBlackTree.Done ((root1, steps1), store1)
       ∧ AVLHeap.forEach [2]%Z root1 steps1 store1
         = RedBlackTree.Done ((root2, steps2), store2)
       ∧ steps1 !! 1%nat = Some step
       ∧ steps2 !! 1%nat = Some step
       ∧ ∃ shown,
           AVLTree.insertAll (take 2 [3; 1]%Z) = Some shown
           ∧ AVLHeapSpec.shows store1 (AVLHeap.tree step) = Some shown
           ∧ AVLHeapSpec.shows store2 (AVLHeap.tree step) = Some shown).
Proof.
  split.
  - eexists _, _. split; [vm_compute; reflexivity|]. split; [reflexivity|].
    eapply (proj1 snapshots_are_detached_copies [3; 1; 2]%Z);
      vm_compute; reflexivity.
  - eexists _, _, _, _, _, _, _.
    split; [vm_compute; reflexivity|]. split; [vm_compute; reflexivity|].
    split; [reflexivity|].
    eapply (proj1 (proj2 (proj2 (proj2 (proj2 snapshots_are_detached_copies))))
              [3; 1]%Z [2]%Z);
      vm_compute; reflexivity.
Defined.

Lemma insert_lands_behind_equal_keys_witness :
  ∃ t t',
    AVLTree.insertAll [1; 2]%Z = Some t
    ∧ AVLTree.avlInsert t 1 = Some t'
    ∧ AVLSpec.inorder t' = place 1 (AVLSpec.inorder t).
Proof.
  eexists _, _. split; [vm_compute; reflexivity|]. split; [vm_compute; reflexivity|].
  eapply (proj1 (proj2 insert_lands_behind_equal_keys) [1; 2]%Z);
    vm_compute; reflexivity.
Defined.

(** ** Further properties of the two engines *)

(** X1.  For pairwise distinct keys the AVL engine never throws, the tree is
    balanced (with correct [height] fields) after every insertion, that is
    after every prefix of the keys, and the recorder returns one step per
    key. *)
Theorem avl_balanced_for_distinct_keys (values : list Z) :
  NoDup values →
  (∀ k, ∃ t, AVLTree.insertAll (take k values) = Some t
             ∧ AVLSpec.balanced t = true ∧ AVLSpec.heightsOk t)
  ∧ ∃ steps, AVLTree.buildAVLTreeSteps values = Some steps
             ∧ length steps = length values.
Proof.
  intros Hnd.
  assert (∀ vs, NoDup vs → ∃ t steps,
            AVLTree.forEach vs AVLTree.Null [] = Some (t, steps)
            ∧ AVLSpec.heightsOk t ∧ AVLSpec.balanced t = true) as Hall.
  { intros vs Hvs.
    apply avl_forEach_distinct; [done|done|constructor|done|].
    intros v _. apply not_elem_of_nil. }
  split.
  - intros k. destruct (Hall (take k values)) as (t & steps & Hrun & Hh & Hb).
    { apply (sublist_NoDup _ values); [done|apply sublist_take]. }
    exists t. unfold AVLTree.insertAll. by rewrite Hrun.
  - destruct (Hall values Hnd) as (t & steps & Hrun & _).
    exists steps. unfold AVLTree.buildAVLTreeSteps. rewrite Hrun.
    split; [done|]. destruct (avl_forEach_extends _ _ _ _ _ Hrun) as (new & -> & ? & _).
    done.
Qed.

Lemma avl_balanced_for_distinct_keys_witness :
  ∃ t, AVLTree.insertAll (take 3 [5; 3; 4; 1]) = Some t
       ∧ AVLSpec.balanced t = true ∧ AVLSpec.heightsOk t.
Proof.
  assert (NoDup [5; 3; 4; 1]) as Hnd
    by (apply (bool_decide_unpack _); vm_compute; exact I).
  apply (proj1 (avl_balanced_for_distinct_keys [5; 3; 4; 1] Hnd) 3%nat).
Defined.

(** X2.  Whenever the AVL insertions of a list of keys return, the in-order
    sequence of the tree is the sorted rearrangement of that list: no key is
    lost, none invented, duplicates kept. *)
Theorem avl_keeps_keys (values : list Z) (t : AVLTree.AVLNode) :
  AVLTree.insertAll values = Some t →
  AVLSpec.inorder t ≡ₚ values ∧ StronglySorted Z.le (AVLSpec.inorder t).
Proof.
  unfold AVLTree.insertAll. intros H.
  destruct (AVLTree.forEach values AVLTree.Null []) as [[root steps]|] eqn:E; [|done].
  injection H as ->.
  apply (avl_forEach_keys values AVLTree.Null [] t steps); [constructor|done].
Qed.

Lemma avl_keeps_keys_witness :
  AVLSpec.inorder
    (AVLTree.Node 2 (AVLTree.Node 1 AVLTree.Null AVLTree.Null 1)
                    (AVLTree.Node 3 AVLTree.Null AVLTree.Null 1) 2)
  ≡ₚ [3; 1; 2]
  ∧ StronglySorted Z.le
      (AVLSpec.inorder
         (AVLTree.Node 2 (AVLTree.Node 1 AVLTree.Null AVLTree.Null 1)
                         (AVLTree.Node 3 AVLTree.Null AVLTree.Null 1) 2)).
Proof. apply (avl_keeps_keys [3; 1; 2]). reflexivity. Defined.

(** X3.  The Red-Black insertions of any list of keys return, and the in-order
    sequence of keys of the tree is the sorted rearrangement of that list. *)
Theorem rb_keeps_keys (values : list Z) :
  ∃ root steps h t,
    RedBlackTree.forEach values None [] [] = RedBlackTree.Done ((root, steps), h)
    ∧ RBSpec.liveTree h root = Some t
    ∧ RBSpec.keys t ≡ₚ values
    ∧ StronglySorted Z.le (RBSpec.keys t).
Proof.
  destruct (rb_forEach_keys values [] None RBSpec.E [] reachable_empty)
    as (h' & t' & steps' & Hrun & HR & Hp).
  exists (RBSpec.rootRef t'), steps', h', t'. split; [done|].
  split; [by apply rb_liveTree, HR|]. split; [done|]. apply HR.
Qed.

(** ** Bubble sort *)

Section BubbleSortFacts.
Import BubbleSort BubbleSortSpec.
Local Open Scope nat_scope.
Implicit Types (array a b arr : list Z) (steps : list (list Z)).

Lemma lookup_pair_split a j x y :
  a !! j = Some x → a !! S j = Some y →
  ∃ seen rest, a = seen ++ x :: y :: rest ∧ length seen = j
               ∧ <[S j := x]> (<[j := y]> a) = seen ++ y :: x :: rest.
Proof.
  revert a. induction j as [|j IH]; intros [|c a] Hx Hy; simplify_eq/=.
  - destruct a as [|d a]; simplify_eq/=. by exists [], a.
  - destruct (IH a Hx Hy) as (seen & rest & -> & Hlen & Hins).
    exists (c :: seen), rest. simpl. by rewrite Hins, Hlen.
Qed.

Lemma swapStep_split a b :
  swapStep a b ↔
  ∃ seen x y rest, (y < x)%Z ∧ a = seen ++ x :: y :: rest
                   ∧ b = seen ++ y :: x :: rest.
Proof.
  split.
  - intros (j & x & y & Hx & Hy & Hlt & ->).
    destruct (lookup_pair_split a j x y Hx Hy) as (seen & rest & -> & _ & ->).
    by exists seen, x, y, rest.
  - intros (seen & x & y & rest & Hlt & -> & ->).
    exists (length seen), x, y.
    split; [by rewrite lookup_app_r, Nat.sub_diag by lia|].
    split; [by rewrite lookup_app_r, Nat.sub_succ_l, Nat.sub_diag by lia|].
    split; [done|].
    assert (Hx : (seen ++ x :: y :: rest) !! length seen = Some x)
      by (by rewrite lookup_app_r, Nat.sub_diag by lia).
    assert (Hy : (seen ++ x :: y :: rest) !! S (length seen) = Some y)
      by (by rewrite lookup_app_r, Nat.sub_succ_l, Nat.sub_diag by lia).
    destruct (lookup_pair_split _ _ _ _ Hx Hy) as (d' & r' & Heq & Hlen & ->).
    apply app_inj_1 in Heq as [<- Heq]; [|done]. by simplify_eq.
Qed.

Lemma swapStep_perm a b : swapStep a b → b ≡ₚ a.
Proof.
  rewrite swapStep_split. intros (seen & x & y & rest & _ & -> & ->).
  apply Permutation_app_head, perm_swap.
Qed.

(** *** What one comparison does *)

Lemma compareSwap_cases array steps j :
  compareSwap (array, steps) j = (array, steps)
  ∨ ∃ array', swapStep array array'
              ∧ compareSwap (array, steps) j = (array', steps ++ [array']).
Proof.
  unfold compareSwap.
  destruct (array !! j) as [x|] eqn:Hx; [|by left].
  destruct (array !! S j) as [y|] eqn:Hy; [|by left].
  destruct (Z.ltb_spec y x); [|by left].
  right. eexists. split; [|done]. by exists j, x, y.
Qed.

Lemma compareSwap_split seen x y rest steps :
  compareSwap (seen ++ x :: y :: rest, steps) (length seen)
  = if (y <? x)%Z
    then (seen ++ y :: x :: rest, steps ++ [seen ++ y :: x :: rest])
    else (seen ++ x :: y :: rest, steps).
Proof.
  assert (Hx : (seen ++ x :: y :: rest) !! length seen = Some x)
    by (by rewrite lookup_app_r, Nat.sub_diag by lia).
  assert (Hy : (seen ++ x :: y :: rest) !! S (length seen) = Some y)
    by (by rewrite lookup_app_r, Nat.sub_succ_l, Nat.sub_diag by lia).
  unfold compareSwap. rewrite Hx, Hy.
  destruct (lookup_pair_split _ _ _ _ Hx Hy) as (d' & r' & Heq & Hlen & ->).
  apply app_inj_1 in Heq as [<- Heq]; [|done]. by simplify_eq.
Qed.

(** *** The snapshots form a chain of swaps *)

Lemma linked_snoc a rest c b :
  linked a rest → last (a :: rest) = Some c → swapStep c b →
  linked a (rest ++ [b]).
Proof.
  revert a. induction rest as [|d rest IH]; intros a Hl Hlast Hs; simpl in *.
  - by simplify_eq.
  - destruct Hl as [Had Hl]. split; [done|]. apply IH; [done| |done].
    by destruct rest.
Qed.

Lemma compareSwap_chained arr st j : chained arr st → chained arr (compareSwap st j).
Proof.
  destruct st as [array steps]. intros (rest & Hs & Hlast & Hl).
  simpl in Hs, Hlast.
  destruct (compareSwap_cases array steps j) as [->|(array' & Hsw & ->)].
  - by exists rest.
  - subst steps. exists (rest ++ [array']). simpl.
    split; [done|]. split; [|by eapply linked_snoc].
    change (last ((arr :: rest) ++ [array']) = Some array'). by rewrite last_snoc.
Qed.

Lemma fold_left_inv {A B} (P : A → Prop) (f : A → B → A) l : ∀ st,
  (∀ st j, P st → P (f st j)) → P st → P (fold_left f l st).
Proof. induction l; simpl; eauto. Qed.

Lemma innerLoop_chained arr st i : chained arr st → chained arr (innerLoop st i).
Proof.
  intros H. unfold innerLoop. apply fold_left_inv; [|done].
  intros. by apply compareSwap_chained.
Qed.

Lemma outerLoop_chained arr : chained arr (outerLoop (arr, [arr])).
Proof.
  unfold outerLoop. apply fold_left_inv; [intros; by apply innerLoop_chained|].
  by exists [].
Qed.

Lemma linked_perm a rest : linked a rest → Forall (λ b, b ≡ₚ a) rest.
Proof.
  revert a. induction rest as [|b rest IH]; intros a Hl; [done|].
  destruct Hl as [Hab Hl]. pose proof (swapStep_perm _ _ Hab) as Hp.
  constructor; [done|]. eapply Forall_impl; [by apply IH|].
  simpl. intros c Hc. by rewrite Hc.
Qed.

Lemma linked_lookup a rest k b c :
  linked a rest → (a :: rest) !! k = Some b → (a :: rest) !! S k = Some c →
  swapStep b c.
Proof.
  revert a k. induction rest as [|d rest IH]; intros a k Hl Hb Hc.
  - by destruct k.
  - destruct Hl as [Had Hl]. destruct k as [|k]; simplify_eq/=; [done|].
    by eapply IH.
Qed.

(** *** One pass of the inner loop, read on the list *)

Lemma inner_pass m : ∀ seen x rest steps,
  m ≤ length rest →
  (fold_left compareSwap (seq (length seen) m) (seen ++ x :: rest, steps)).1
  = seen ++ bubble m x rest.
Proof.
  induction m as [|m IH]; intros seen x rest steps Hm; [done|].
  destruct rest as [|y r]; [simpl in Hm; lia|]. simpl in Hm.
  cbn [seq fold_left]. rewrite compareSwap_split. simpl bubble.
  destruct (y <? x)%Z.
  - replace (seen ++ y :: x :: r) with ((seen ++ [y]) ++ x :: r)
      by (by rewrite <- app_assoc).
    replace (S (length seen)) with (length (seen ++ [y]))
      by (rewrite length_app; simpl; lia).
    rewrite IH by lia. by rewrite <- app_assoc.
  - replace (seen ++ x :: y :: r) with ((seen ++ [x]) ++ y :: r)
      by (by rewrite <- app_assoc).
    replace (S (length seen)) with (length (seen ++ [x]))
      by (rewrite length_app; simpl; lia).
    rewrite IH by lia. by rewrite <- app_assoc.
Qed.

Lemma bubble_spec m : ∀ x rest,
  m ≤ length rest →
  ∃ pre mx,
    bubble m x rest = pre ++ mx :: drop m rest
    ∧ length pre = m ∧ (x ≤ mx)%Z ∧ Forall (λ e, (e ≤ mx)%Z) pre
    ∧ pre ++ [mx] ≡ₚ x :: take m rest.
Proof.
  induction m as [|m IH]; intros x rest Hm.
  - exists [], x. by destruct rest.
  - destruct rest as [|y r]; [simpl in Hm; lia|]. simpl in Hm. simpl bubble.
    destruct (Z.ltb_spec y x) as [Hlt|Hge].
    + destruct (IH x r) as (pre & mx & -> & Hlen & Hx & Hpre & Hp); [lia|].
      exists (y :: pre), mx. simpl. rewrite Hlen, Hp.
      split; [done|]. split; [done|]. split; [done|].
      split; [constructor; [lia|done]|]. apply perm_swap.
    + destruct (IH y r) as (pre & mx & -> & Hlen & Hy & Hpre & Hp); [lia|].
      exists (x :: pre), mx. simpl. rewrite Hlen, Hp.
      split; [done|]. split; [done|]. split; [lia|].
      split; [constructor; [lia|done]|]. done.
Qed.

Lemma innerLoop_settled array steps i :
  i < length array → settled i array →
  settled (S i) (innerLoop (array, steps) i).1.
Proof.
  intros Hi (front & back & -> & Hlen & Hsorted & Hle).
  rewrite length_app in Hi. unfold innerLoop. simpl fst.
  destruct front as [|x rest]; [simpl in Hi; lia|].
  rewrite length_app. simpl length.
  replace (S (length rest) + length back - i - 1) with (length rest) by lia.
  change ((x :: rest) ++ back) with ([] ++ x :: (rest ++ back)).
  change 0 with (length (@nil Z)).
  rewrite inner_pass by (rewrite length_app; lia).
  destruct (bubble_spec (length rest) x (rest ++ back))
    as (pre & mx & -> & Hpre & Hx & Hmax & Hp); [rewrite length_app; lia|].
  rewrite drop_app_length. rewrite take_app_length in Hp.
  exists pre, (mx :: back). split; [done|]. split; [simpl; lia|].
  assert (Hin : ∀ e : Z, e ∈ pre ++ [mx] → Forall (λ f, (e ≤ f)%Z) back).
  { intros a Ha. rewrite Hp in Ha. by apply (proj1 (Forall_forall _ _) Hle). }
  split.
  - constructor; [done|]. apply Hin. set_solver.
  - apply Forall_forall. intros a Ha. constructor.
    + by apply (proj1 (Forall_forall _ _) Hmax).
    + apply Hin. set_solver.
Qed.

Lemma compareSwap_length st j : length (compareSwap st j).1 = length st.1.
Proof.
  destruct st as [array steps].
  destruct (compareSwap_cases array steps j) as [->|(array' & Hsw & ->)]; [done|].
  simpl. by rewrite (swapStep_perm _ _ Hsw).
Qed.

Lemma innerLoop_length st i : length (innerLoop st i).1 = length st.1.
Proof.
  unfold innerLoop. generalize (seq 0 (length st.1 - i - 1)). intros l.
  revert st. induction l as [|j l IH]; intros st; [done|].
  simpl. by rewrite IH, compareSwap_length.
Qed.

Lemma passes_settled arr k :
  k ≤ length arr →
  let st := fold_left innerLoop (seq 0 k) (arr, [arr]) in
  length st.1 = length arr ∧ settled k st.1.
Proof.
  induction k as [|k IH]; intros Hk; cbv zeta.
  - simpl. split; [done|]. exists arr, []. rewrite app_nil_r.
    split; [done|]. split; [done|]. split; [constructor|].
    apply Forall_forall. by intros.
  - rewrite seq_S, fold_left_app. cbn [fold_left]. change (0 + k) with k.
    destruct IH as [Hlen Hset]; [lia|].
    destruct (fold_left innerLoop (seq 0 k) (arr, [arr])) as [array steps].
    simpl in *. split; [by rewrite innerLoop_length|].
    apply innerLoop_settled; [lia|done].
Qed.

Lemma outerLoop_sorted arr : StronglySorted Z.le (outerLoop (arr, [arr])).1.
Proof.
  destruct (passes_settled arr (length arr)) as [Hlen Hset]; [done|].
  unfold outerLoop. simpl fst at 2.
  destruct Hset as (front & back & Heq & Hb & Hsorted & _).
  rewrite Heq in *. rewrite length_app in Hlen.
  destruct front; [done|simpl in Hlen; lia].
Qed.

(** *** Counting the snapshots *)

Lemma inversions_swap seen x y rest :
  (y < x)%Z →
  inversions (seen ++ x :: y :: rest) = S (inversions (seen ++ y :: x :: rest)).
Proof.
  intros Hlt. induction seen as [|c seen IH]; simpl.
  - rewrite (filter_cons_True (λ z, (z < x)%Z)) by done.
    rewrite (filter_cons_False (λ z, (z < y)%Z)) by lia. simpl. lia.
  - rewrite IH.
    assert (seen ++ x :: y :: rest ≡ₚ seen ++ y :: x :: rest) as ->
      by apply Permutation_app_head, perm_swap.
    lia.
Qed.

Lemma inversions_sorted l : StronglySorted Z.le l → inversions l = 0.
Proof.
  induction 1 as [|x r Hr IH Hx]; simpl; [done|]. rewrite IH.
  clear IH Hr. induction Hx as [|y r Hy Hx IH]; [done|].
  rewrite filter_cons_False by lia. done.
Qed.

Lemma inversions_bound l : 2 * inversions l ≤ length l * (length l - 1).
Proof.
  induction l as [|x r IH]; simpl; [lia|].
  pose proof (length_filter (λ y, (y < x)%Z) r). nia.
Qed.

Lemma linked_inversions a rest c :
  linked a rest → last (a :: rest) = Some c →
  inversions a = length rest + inversions c.
Proof.
  revert a. induction rest as [|b rest IH]; intros a Hl Hlast.
  - by simplify_eq/=.
  - destruct Hl as [Hab Hl]. apply swapStep_split in Hab
      as (seen & x & y & r & Hlt & -> & ->).
    rewrite inversions_swap by done. simpl.
    rewrite <- (IH _ Hl); [done|]. by destruct rest.
Qed.

End BubbleSortFacts.

Lemma bubbleSort_chained arr :
  ∃ rest sorted,
    BubbleSort.bubbleSort arr = arr :: rest
    ∧ last (arr :: rest) = Some sorted
    ∧ BubbleSortSpec.linked arr rest
    ∧ StronglySorted Z.le sorted.
Proof.
  pose proof (outerLoop_chained arr) as (rest & Hs & Hlast & Hl).
  pose proof (outerLoop_sorted arr) as Hsorted.
  exists rest, (BubbleSort.outerLoop (arr, [arr])).1.
  unfold BubbleSort.bubbleSort. rewrite Hs in *. done.
Qed.

Lemma bubbleSort_length arr :
  length (BubbleSort.bubbleSort arr) = S (BubbleSortSpec.inversions arr).
Proof.
  destruct (bubbleSort_chained arr) as (rest & sorted & -> & Hlast & Hl & Hs).
  rewrite (linked_inversions _ _ _ Hl Hlast), (inversions_sorted _ Hs).
  simpl. lia.
Qed.

(** X4.  The first snapshot of [bubbleSort] is the input itself (so the
    trace is never empty), and every snapshot is a rearrangement of the
    input. *)
Theorem bubbleSort_snapshots_rearrange (arr : list Z) :
  ∃ rest,
    BubbleSort.bubbleSort arr = arr :: rest
    ∧ Forall (λ snapshot, snapshot ≡ₚ arr) (BubbleSort.bubbleSort arr).
Proof.
  destruct (bubbleSort_chained arr) as (rest & sorted & Hs & _ & Hl & _).
  exists rest. split; [done|]. rewrite Hs.
  constructor; [done|]. by apply linked_perm.
Qed.

(** X5.  The last snapshot of [bubbleSort] is the input in non-decreasing
    order. *)
Theorem bubbleSort_ends_sorted (arr : list Z) :
  ∃ sorted,
    last (BubbleSort.bubbleSort arr) = Some sorted
    ∧ StronglySorted Z.le sorted
    ∧ sorted ≡ₚ arr.
Proof.
  destruct (bubbleSort_chained arr) as (rest & sorted & Hs & Hlast & Hl & Hsorted).
  exists sorted. rewrite Hs. split; [done|]. split; [done|].
  pose proof (linked_perm _ _ Hl) as Hall.
  assert (sorted ∈ arr :: rest) as Hin.
  { apply last_Some in Hlast as [l' ->]. set_solver. }
  apply elem_of_cons in Hin as [->|Hin]; [done|].
  by apply (proj1 (Forall_forall _ _) Hall).
Qed.

(** X6.  Each snapshot of [bubbleSort] after the first comes from the one
    before it by exchanging two neighbours that stood in the wrong order. *)
Theorem bubbleSort_steps_are_swaps (arr : list Z) (k : nat) (a b : list Z) :
  BubbleSort.bubbleSort arr !! k = Some a →
  BubbleSort.bubbleSort arr !! S k = Some b →
  BubbleSortSpec.swapStep a b.
Proof.
  destruct (bubbleSort_chained arr) as (rest & sorted & -> & _ & Hl & _).
  by apply linked_lookup.
Qed.

Lemma bubbleSort_steps_are_swaps_witness :
  BubbleSortSpec.swapStep [30; 10; 20] [10; 30; 20].
Proof.
  apply (bubbleSort_steps_are_swaps [30; 10; 20] 0); reflexivity.
Defined.

(** X7.  [bubbleSort] records one snapshot for the input and one per
    inversion of the input (a pair of positions in the wrong order): never
    more than [1 + n (n - 1) / 2] snapshots for [n] elements. *)
Theorem bubbleSort_counts_inversions (arr : list Z) :
  length (BubbleSort.bubbleSort arr) = S (BubbleSortSpec.inversions arr)
  ∧ (2 * BubbleSortSpec.inversions arr ≤ length arr * (length arr - 1))%nat.
Proof. split; [apply bubbleSort_length|apply inversions_bound]. Qed.

(** X8.  [bubbleSort] records nothing but the input exactly when the input
    is already in non-decreasing order. *)
Theorem bubbleSort_single_snapshot_iff_sorted (arr : list Z) :
  BubbleSort.bubbleSort arr = [arr] ↔ StronglySorted Z.le arr.
Proof.
  destruct (bubbleSort_chained arr) as (rest & sorted & Hs & Hlast & Hl & Hsorted).
  split.
  - intros H. rewrite H in Hs. by simplify_eq/=.
  - intros Harr. pose proof (bubbleSort_length arr) as Hlen.
    rewrite (inversions_sorted _ Harr), Hs in Hlen.
    destruct rest; [done|simpl in Hlen; lia].
Qed.

(** ** Playback, and what the visualizers draw *)

Section PlaybackFacts.
Import Playback PlaybackSpec.
Context {Snapshot : Type}.
Implicit Types (v : Visualizer Snapshot) (es : list (event Snapshot)).

(** The index is a position of the trace, or 0 when the trace is empty. *)
Lemma playback_react_bounds v e :
  0 ≤ currentStepIndex v ≤ Z.max 0 (Z.of_nat (length (steps v)) - 1) →
  0 ≤ currentStepIndex (react v e)
    ≤ Z.max 0 (Z.of_nat (length (steps (react v e))) - 1).
Proof.
  intros Hv. destruct e as [|s|]; simpl; [|lia|done].
  unfold tick. destruct (running v); [|done]. simpl. unfold advance.
  destruct (Z.ltb_spec (currentStepIndex v) (Z.of_nat (length (steps v)) - 1)); lia.
Qed.

Lemma playback_run_bounds es : ∀ v,
  0 ≤ currentStepIndex v ≤ Z.max 0 (Z.of_nat (length (steps v)) - 1) →
  0 ≤ currentStepIndex (run v es)
    ≤ Z.max 0 (Z.of_nat (length (steps (run v es))) - 1).
Proof.
  induction es as [|e es IH]; intros v Hv; [done|].
  simpl. apply IH. by apply playback_react_bounds.
Qed.

Lemma playback_tick_spec v :
  0 ≤ currentStepIndex v ≤ Z.max 0 (Z.of_nat (length (steps v)) - 1) →
  steps (tick v) = steps v ∧ paused (tick v) = paused v
  ∧ currentStepIndex (tick v)
    = Z.min (currentStepIndex v + (if paused v then 0 else 1))
            (Z.max 0 (Z.of_nat (length (steps v)) - 1)).
Proof.
  intros Hv. unfold tick, running.
  destruct (paused v) eqn:Hp; simpl; [rewrite ?Hp; repeat split; lia|].
  destruct (Nat.eqb_spec (length (steps v)) 0) as [Hz|Hnz]; simpl.
  - rewrite ?Hp, ?Hz in *. simpl in *. repeat split; lia.
  - split; [done|]. split; [done|]. unfold advance.
    destruct (Z.ltb_spec (currentStepIndex v)
                (Z.of_nat (length (steps v)) - 1)); lia.
Qed.

Lemma playback_run_ticks es : ∀ v,
  Forall (λ e, e = Tick ∨ e = TogglePause) es →
  0 ≤ currentStepIndex v ≤ Z.max 0 (Z.of_nat (length (steps v)) - 1) →
  steps (run v es) = steps v
  ∧ currentStepIndex (run v es)
    = Z.min (currentStepIndex v + Z.of_nat (ticksWhileRunning (paused v) es))
            (Z.max 0 (Z.of_nat (length (steps v)) - 1)).
Proof.
  induction es as [|e es IH]; intros v Hes Hv.
  - simpl. split; [done|]. lia.
  - apply Forall_cons in Hes as [[-> | ->] Hes].
    + pose proof (playback_react_bounds v Tick Hv) as Hv'.
      destruct (playback_tick_spec v Hv) as (Hs1 & Hp1 & Hi1).
      destruct (IH (tick v) Hes Hv') as [Hs Hi].
      change (run v (Tick :: es)) with (run (tick v) es).
      rewrite Hs, Hi, Hs1, Hp1, Hi1. split; [done|].
      cbn [ticksWhileRunning]. destruct (paused v); lia.
    + destruct (IH (togglePause v) Hes Hv) as [Hs Hi].
      change (run v (TogglePause :: es)) with (run (togglePause v) es).
      by rewrite Hs, Hi.
Qed.

End PlaybackFacts.

(** X9.  After mounting and after any sequence of ticks, presses of the
    pause button and trace replacements whose reset effect has run, the
    index is never negative, it is a position of the trace whenever the
    trace is not empty, and it equals [steps.length - 1] only for a
    non-empty trace.  In the one render that commits a replaced trace
    before the reset effect runs, the index is still the one of the trace
    shown before: [steps[currentStepIndex]] is there exactly when that
    index is below the new length, so in that render the [||] fallback is
    taken for every new trace, empty or not, that is not longer than the
    stale index. *)
Theorem playback_index_in_bounds {Snapshot : Type}
    (s : list Snapshot) (es : list (Playback.event Snapshot)) :
  let v := Playback.run (Playback.mount s) es in
  (0 ≤ Playback.currentStepIndex v
   ∧ (Playback.steps v ≠ [] →
      is_Some (Playback.steps v !! Z.to_nat (Playback.currentStepIndex v)))
   ∧ (Playback.currentStepIndex v = Z.of_nat (length (Playback.steps v)) - 1 →
      Playback.steps v ≠ []))
  ∧ (∀ s' : list Snapshot,
       let w := Playback.receiveSteps s' v in
       Playback.currentStepIndex w = Playback.currentStepIndex v
       ∧ Playback.setSteps s' v = Playback.resetIndex w
       ∧ (is_Some (VisualizerView.currentStep w)
          ↔ Playback.currentStepIndex v < Z.of_nat (length s'))).
Proof.
  intros v.
  assert (0 ≤ Playback.currentStepIndex v
          ≤ Z.max 0 (Z.of_nat (length (Playback.steps v)) - 1)) as Hv.
  { apply playback_run_bounds. simpl. lia. }
  split; [split; [lia|split]|].
  - intros Hne. apply lookup_lt_is_Some.
    destruct (Playback.steps v); [done|]. simpl in *. lia.
  - intros Heq Hnil. rewrite Hnil in *. simpl in *. lia.
  - intros s' w. split; [done|]. split; [done|].
    unfold VisualizerView.currentStep. simpl.
    destruct (Z.ltb_spec (Playback.currentStepIndex v) 0); [lia|].
    rewrite lookup_lt_is_Some. lia.
Qed.

Lemma playback_index_in_bounds_witness :
  is_Some ([10; 20; 30] !! Z.to_nat
             (Playback.currentStepIndex
                (Playback.run (Playback.mount [10; 20; 30])
                   [Playback.Tick; Playback.Tick])))
  ∧ ¬ is_Some (VisualizerView.currentStep
                 (Playback.receiveSteps [40; 50]
                    (Playback.run (Playback.mount [10; 20; 30])
                       [Playback.Tick; Playback.Tick]))).
Proof.
  split.
  - apply (proj1 (proj2 (proj1 (playback_index_in_bounds [10; 20; 30]
                                  [Playback.Tick; Playback.Tick])))).
    simpl. discriminate.
  - intros H.
    apply (proj2 (proj2 (proj2 (playback_index_in_bounds [10; 20; 30]
                                  [Playback.Tick; Playback.Tick]) [40; 50])))
      in H.
    vm_compute in H. discriminate.
Defined.

(** X10.  After any sequence of ticks and presses of the pause button the
    index of a freshly mounted visualizer is the number of ticks that came
    while it was not paused, capped at the last position of the trace: the
    playback reaches the last snapshot after exactly [length - 1] such
    ticks and stays there. *)
Theorem playback_index_counts_ticks {Snapshot : Type}
    (s : list Snapshot) (es : list (Playback.event Snapshot)) :
  Forall (λ e, e = Playback.Tick ∨ e = Playback.TogglePause) es →
  Playback.currentStepIndex (Playback.run (Playback.mount s) es)
  = Z.min (Z.of_nat (PlaybackSpec.ticksWhileRunning false es))
          (Z.max 0 (Z.of_nat (length s) - 1)).
Proof.
  intros Hes.
  destruct (playback_run_ticks es (Playback.mount s) Hes) as [_ ->]; simpl; lia.
Qed.

Lemma playback_index_counts_ticks_witness :
  Playback.currentStepIndex
    (Playback.run (Playback.mount [10; 20; 30])
       [Playback.Tick; Playback.TogglePause; Playback.Tick;
        Playback.TogglePause; Playback.Tick; Playback.Tick]) = 2.
Proof.
  apply (playback_index_counts_ticks [10; 20; 30]
           [Playback.Tick; Playback.TogglePause; Playback.Tick;
            Playback.TogglePause; Playback.Tick; Playback.Tick]).
  repeat constructor; tauto.
Defined.

(** ** How high the trees get *)

Section RBHeight.
Import RedBlackTree RBSpec RBMeasure.
Local Open Scope nat_scope.

Lemma rb_height_bound {A} (t : bt A) : ∀ n,
  noRedRed t = true → hasBH t n →
  height t ≤ 2 * n + (if decide (colorAt t = RED) then 1 else 0)
  ∧ 2 ^ n ≤ S (length (nodes t)).
Proof.
  induction t as [|a c l IHl v r IHr]; intros n Hrr Hbh.
  - simpl in *. subst n. simpl. lia.
  - simpl in Hrr. apply andb_true_iff in Hrr as [Hrr Hr].
    apply andb_true_iff in Hrr as [Hc Hl].
    simpl nodes. rewrite length_app. simpl length.
    destruct c; simpl in Hbh.
    + destruct Hbh as [Hbl Hbr].
      apply andb_true_iff in Hc as [Hcl Hcr].
      apply bool_decide_eq_true in Hcl, Hcr.
      destruct (IHl n Hl Hbl) as [Hhl Hsl]. destruct (IHr n Hr Hbr) as [Hhr Hsr].
      rewrite Hcl in Hhl. rewrite Hcr in Hhr. simpl in Hhl, Hhr.
      simpl. split; lia.
    + destruct n as [|m]; [done|]. destruct Hbh as [Hbl Hbr].
      destruct (IHl m Hl Hbl) as [Hhl Hsl]. destruct (IHr m Hr Hbr) as [Hhr Hsr].
      simpl height. simpl colorAt. rewrite Nat.pow_succ_r'.
      split; [|lia].
      destruct (decide (colorAt l = RED)), (decide (colorAt r = RED));
        simpl; lia.
Qed.

Lemma rb_isRedBlack_height {A} (t : bt A) :
  isRedBlack t → height t ≤ 2 * Nat.log2 (S (length (nodes t))).
Proof.
  intros (Hroot & Hrr & [n Hbh]). apply hasBH_blackHeight in Hbh.
  destruct (rb_height_bound t n Hrr Hbh) as [Hh Hs].
  rewrite Hroot in Hh. simpl in Hh.
  apply Nat.log2_le_pow2 in Hs; lia.
Qed.

Lemma path_height v (t : bt nat) : ∀ acc,
  length (path v t acc) ≤ length acc + height t.
Proof.
  induction t as [|i c l IHl x r IHr]; intros acc; simpl; [lia|].
  destruct (v <? x)%Z; [rewrite IHl|rewrite IHr]; simpl; lia.
Qed.

(** The state after a list of insertions, with its size. *)
Lemma rb_forEach_size values root steps h :
  forEach values None [] [] = Done ((root, steps), h) →
  ∃ t, reachable h root t ∧ keys t ≡ₚ values.
Proof.
  intros Hrun.
  destruct (rb_forEach_keys values [] None E [] reachable_empty)
    as (h' & t' & steps' & Hrun' & HR & Hp).
  rewrite Hrun in Hrun'. injection Hrun' as -> _ ->. by exists t'.
Qed.

End RBHeight.

(** X11.  After any list of [n] keys has gone through [redBlackInsert], the
    tree has [n] nodes and no path from the root down to a leaf is longer
    than [2 * log2 (n + 1)] nodes. *)
Theorem rb_height_logarithmic (values : list Z) :
  ∃ root steps h t,
    RedBlackTree.forEach values None [] [] = RedBlackTree.Done ((root, steps), h)
    ∧ RBSpec.liveTree h root = Some t
    ∧ length (RBSpec.nodes t) = length values
    ∧ (RBMeasure.height t ≤ 2 * Nat.log2 (S (length values)))%nat.
Proof.
  destruct (rb_forEach_total values) as (root & steps & h & Hrun).
  destruct (rb_forEach_size _ _ _ _ Hrun) as (t & HR & Hp).
  exists root, steps, h, t. split; [done|].
  split; [by apply rb_liveTree, HR|].
  assert (length (RBSpec.nodes t) = length values) as Hlen.
  { rewrite <- Hp, keys_nodes. by rewrite length_fmap. }
  split; [done|]. rewrite <- Hlen. apply rb_isRedBlack_height, HR.
Qed.

(** X12.  Whatever [n] keys were inserted before, the fix-up loop of the
    next insertion is over after at most [log2 (n + 1) + 1] tests of its
    condition. *)
Theorem rb_fixInsert_logarithmic (values : list Z) root steps h (v : Z) :
  RedBlackTree.forEach values None [] [] = RedBlackTree.Done ((root, steps), h) →
  ∃ root1 z h1 root2 h2,
    RedBlackTree.attach root v h = RedBlackTree.Done ((root1, z), h1)
    ∧ RedBlackTree.fixInsert (S (Nat.log2 (S (length values)))) root1 z h1
      = RedBlackTree.Done (root2, h2).
Proof.
  intros Hrun. destruct (rb_forEach_size _ _ _ _ Hrun) as (t & HR & Hp).
  pose proof (rb_isRedBlack_height t (proj1 (proj2 HR))) as Hheight.
  assert (length (RBSpec.nodes t) = length values) as Hlen.
  { rewrite <- Hp, keys_nodes. by rewrite length_fmap. }
  destruct HR as (HH & (Hroot & Hrr & [m Hbh]) & Hsorted).
  destruct (rb_attach_holds h root t v HH) as (h1 & Hrun1 & HH1 & Hlen1).
  set (cx := RBSpec.path v t []) in *.
  set (leaf := RBSpec.T (length h) RedBlackTree.RED RBSpec.E v RBSpec.E) in *.
  assert (Hcx : RBSpec.ctxOk 0 cx).
  { apply (path_ok v t [] m); [|done|by rewrite Hroot].
    split; [done|]. by apply hasBH_blackHeight. }
  assert (Hleaf : RBSpec.okSub 0 leaf) by (by split).
  assert (length cx < 2 * S (Nat.log2 (S (length values))))%nat as Hfuel.
  { pose proof (path_height v t []) as Hpl. fold cx in Hpl. simpl in Hpl.
    rewrite <- Hlen. lia. }
  destruct (rb_fixInsert_holds _ cx leaf h1 _ 0%nat HH1 eq_refl Hleaf Hcx Hfuel)
    as (h' & w & Hfix & _).
  by exists (RBSpec.rootRef (RBSpec.plug cx leaf)), (Some (length h)), h1,
            (RBSpec.rootRef w), h'.
Qed.

Lemma rb_fixInsert_logarithmic_witness :
  ∃ root steps h,
    RedBlackTree.forEach [1; 2; 3] None [] [] = RedBlackTree.Done ((root, steps), h)
    ∧ ∃ root1 z h1 root2 h2,
        RedBlackTree.attach root 4 h = RedBlackTree.Done ((root1, z), h1)
        ∧ RedBlackTree.fixInsert (S (Nat.log2 4)) root1 z h1
          = RedBlackTree.Done (root2, h2).
Proof.
  eexists _, _, _. split; [vm_compute; reflexivity|].
  eapply (rb_fixInsert_logarithmic [1; 2; 3]). vm_compute; reflexivity.
Defined.

Section AVLHeight.
Import AVLTree AVLSpec.

Lemma avl_balanced_size t :
  balanced t = true →
  2 ^ (realHeight t / 2) ≤ Z.of_nat (length (inorder t)) + 1.
Proof.
  induction t as [|v l IHl r IHr h]; intros Hb; [by vm_compute|].
  apply balanced_Node in Hb as (Hd & Bl & Br).
  specialize (IHl Bl). specialize (IHr Br).
  pose proof (realHeight_nonneg l). pose proof (realHeight_nonneg r).
  rewrite realHeight_Node. simpl inorder. rewrite length_app. simpl length.
  set (hl := realHeight l) in *. set (hr := realHeight r) in *.
  set (ht := 1 + Z.max hl hr).
  destruct (Z.le_gt_cases ht 1) as [Hsmall|Hbig].
  - replace (ht / 2) with 0 by (symmetry; apply Z.div_small; lia). simpl. lia.
  - assert (ht / 2 = (ht - 2) / 2 + 1) as ->.
    { rewrite <- (Z.div_add (ht - 2) 1 2) by lia. f_equal. lia. }
    assert (0 ≤ (ht - 2) / 2) by (apply Z.div_pos; lia).
    rewrite Z.pow_add_r, Z.pow_1_r by lia.
    assert (2 ^ ((ht - 2) / 2) ≤ 2 ^ (hl / 2)).
    { apply Z.pow_le_mono_r; [lia|]. apply Z.div_le_mono; lia. }
    assert (2 ^ ((ht - 2) / 2) ≤ 2 ^ (hr / 2)).
    { apply Z.pow_le_mono_r; [lia|]. apply Z.div_le_mono; lia. }
    lia.
Qed.

Lemma avl_balanced_height t :
  balanced t = true →
  realHeight t ≤ 2 * Z.log2 (Z.of_nat (length (inorder t)) + 1) + 1.
Proof.
  intros Hb. pose proof (avl_balanced_size t Hb) as Hs.
  apply Z.log2_le_pow2 in Hs; [|lia].
  pose proof (Z.div_mod (realHeight t) 2 ltac:(lia)).
  pose proof (Z.mod_pos_bound (realHeight t) 2 ltac:(lia)). lia.
Qed.

Lemma avl_rotate_left_right t t' :
  heightsOk t → leftRotate t = Some t' → rightRotate t' = Some t.
Proof.
  destruct t as [|xv xl [|yv T2 yr yh] xh]; simpl; [done|done|].
  intros (Hx & Hxl & Hy & HT2 & Hyr) [= <-]. simpl.
  rewrite !getHeight_real by done. by subst.
Qed.

Lemma avl_rotate_right_left t t' :
  heightsOk t → rightRotate t = Some t' → leftRotate t' = Some t.
Proof.
  destruct t as [|yv [|xv xl T2 xh] yr yh]; simpl; [done|done|].
  intros (Hy & (Hx & Hxl & HT2) & Hyr) [= <-]. simpl.
  rewrite !getHeight_real by done. by subst.
Qed.

End AVLHeight.

(** X13.  For pairwise distinct keys the AVL tree built by [avlInsert] has
    one node per key and its height is at most [2 * log2 (n + 1) + 1] for
    [n] keys. *)
Theorem avl_height_logarithmic (values : list Z) :
  NoDup values →
  ∃ t, AVLTree.insertAll values = Some t
       ∧ length (AVLSpec.inorder t) = length values
       ∧ AVLSpec.realHeight t ≤ 2 * Z.log2 (Z.of_nat (length values) + 1) + 1.
Proof.
  intros Hnd.
  destruct (avl_forEach_distinct values AVLTree.Null [])
    as (t & steps & Hrun & Hh & Hb); [done|done|constructor|done| |].
  { intros v _. apply not_elem_of_nil. }
  destruct (avl_forEach_keys values AVLTree.Null [] t steps (SSorted_nil _) Hrun)
    as [Hp _].
  exists t. unfold AVLTree.insertAll. rewrite Hrun. split; [done|].
  assert (length (AVLSpec.inorder t) = length values) as Hlen by (by rewrite Hp).
  split; [done|]. rewrite <- Hlen. by apply avl_balanced_height.
Qed.

Lemma avl_height_logarithmic_witness :
  ∃ t, AVLTree.insertAll [1; 2; 3; 4; 5; 6; 7] = Some t
       ∧ length (AVLSpec.inorder t) = 7%nat
       ∧ AVLSpec.realHeight t ≤ 2 * Z.log2 8 + 1.
Proof.
  apply (avl_height_logarithmic [1; 2; 3; 4; 5; 6; 7]).
  apply (bool_decide_unpack _). vm_compute. exact I.
Defined.

(** X14.  On a tree whose [height] fields are right, the two AVL rotations
    undo each other: rotating the result of a left rotation to the right
    gives back the tree, fields included, and the other way round. *)
Theorem avl_rotations_undo_each_other (t t' : AVLTree.AVLNode) :
  AVLSpec.heightsOk t →
  (AVLTree.leftRotate t = Some t' → AVLTree.rightRotate t' = Some t)
  ∧ (AVLTree.rightRotate t = Some t' → AVLTree.leftRotate t' = Some t).
Proof.
  intros Ht. split; [by apply avl_rotate_left_right|by apply avl_rotate_right_left].
Qed.

Lemma avl_rotations_undo_each_other_witness :
  AVLTree.rightRotate
    (AVLTree.Node 2 (AVLTree.Node 1 AVLTree.Null AVLTree.Null 1)
                    (AVLTree.Node 3 AVLTree.Null AVLTree.Null 1) 2)
  = Some (AVLTree.Node 1 AVLTree.Null
            (AVLTree.Node 2 AVLTree.Null
               (AVLTree.Node 3 AVLTree.Null AVLTree.Null 1) 2) 3).
Proof.
  apply (proj1 (avl_rotations_undo_each_other
                  (AVLTree.Node 1 AVLTree.Null
                     (AVLTree.Node 2 AVLTree.Null
                        (AVLTree.Node 3 AVLTree.Null AVLTree.Null 1) 2) 3)
                  _ ltac:(simpl; tauto))).
  reflexivity.
Defined.

Lemma avl_step_keys values steps k step :
  AVLTree.buildAVLTreeSteps values = Some steps → steps !! k = Some step →
  values !! k = Some (AVLTree.current step)
  ∧ JS.inorder (AVLTree.tree step) ≡ₚ take (S k) values
  ∧ StronglySorted Z.le (JS.inorder (AVLTree.tree step)).
Proof.
  intros H Hk. unfold AVLTree.buildAVLTreeSteps in H.
  destruct (AVLTree.forEach values AVLTree.Null []) as [[root ss]|] eqn:E; [|done].
  injection H as <-.
  destruct (avl_forEach_extends _ _ _ _ _ E) as (new & -> & _ & Hcur).
  split.
  { rewrite <- Hcur, list_lookup_fmap. simpl in Hk. by rewrite Hk. }
  destruct (avl_forEach_lookup _ _ _ _ _ k step E Hk) as (t & Ht & ->).
  destruct (AVLTree.forEach (take (S k) values) AVLTree.Null [])
    as [[t1 s1]|] eqn:E1; [|done].
  injection Ht as ->. rewrite avl_toJSON_inorder.
  by apply (avl_forEach_keys (take (S k) values) AVLTree.Null [] t s1);
    [constructor|].
Qed.

Lemma rb_step_keys values steps k snapshot :
  RedBlackTree.buildRedBlackTreeSteps values = RedBlackTree.Done steps →
  steps !! k = Some snapshot →
  JS.inorder snapshot ≡ₚ take (S k) values
  ∧ StronglySorted Z.le (JS.inorder snapshot).
Proof.
  revert snapshot. intros j H Hk. unfold RedBlackTree.buildRedBlackTreeSteps in H.
  destruct (RedBlackTree.forEach values None [] []) as [[[root ss] h]| |] eqn:E;
    [|done..].
  simpl in H. injection H as <-.
  destruct (rb_forEach_lookup _ _ _ _ _ _ _ k j reachable_empty E Hk)
    as (r1 & s1 & h1 & t1 & Hrun & Hlive & ->).
  destruct (rb_forEach_size _ _ _ _ Hrun) as (t & HR & Hp).
  rewrite (rb_liveTree _ _ _ (proj1 HR)) in Hlive. injection Hlive as <-.
  rewrite inorder_jsonOf. split; [done|]. apply HR.
Qed.

(** X15.  Step [k] of a recorded trace shows exactly the first [k + 1] keys
    of the input, duplicates included, in sorted in-order position; in the
    AVL trace its [current] field is the key at position [k]. *)
Theorem trace_step_shows_prefix :
  (∀ values steps k step,
     AVLTree.buildAVLTreeSteps values = Some steps → steps !! k = Some step →
     values !! k = Some (AVLTree.current step)
     ∧ JS.inorder (AVLTree.tree step) ≡ₚ take (S k) values
     ∧ StronglySorted Z.le (JS.inorder (AVLTree.tree step)))
  ∧ (∀ values steps k snapshot,
       RedBlackTree.buildRedBlackTreeSteps values = RedBlackTree.Done steps →
       steps !! k = Some snapshot →
       JS.inorder snapshot ≡ₚ take (S k) values
       ∧ StronglySorted Z.le (JS.inorder snapshot)).
Proof.
  split.
  - intros values steps k step. apply avl_step_keys.
  - intros values steps k snapshot. apply rb_step_keys.
Qed.

Lemma trace_step_shows_prefix_witness :
  ∃ steps step,
    AVLTree.buildAVLTreeSteps [3; 1; 2] = Some steps
    ∧ steps !! 1%nat = Some step
    ∧ [3; 1; 2] !! 1%nat = Some (AVLTree.current step)
    ∧ JS.inorder (AVLTree.tree step) ≡ₚ take 2 [3; 1; 2]
    ∧ StronglySorted Z.le (JS.inorder (AVLTree.tree step)).
Proof.
  eexists _, _. split; [vm_compute; reflexivity|]. split; [reflexivity|].
  eapply (proj1 trace_step_shows_prefix [3; 1; 2]); vm_compute; reflexivity.
Defined.

Section RBRoundTrip.
Import RedBlackTree RBSpec.
Local Open Scope nat_scope.

(** A heap is determined by the tree it holds. *)
Lemma repr_lookup_eq h h' (t : bt nat) : ∀ par i,
  repr h par t → repr h' par t → i ∈ labels t → h !! i = h' !! i.
Proof.
  induction t as [|j c l IHl v r IHr]; intros par i Hh Hh' Hi; simpl in *.
  - by apply elem_of_nil in Hi.
  - destruct Hh as (Hj & Hl & Hr). destruct Hh' as (Hj' & Hl' & Hr').
    apply elem_of_app in Hi as [Hi|Hi]; [by eapply IHl|].
    apply elem_of_cons in Hi as [->|Hi]; [by rewrite Hj, Hj'|by eapply IHr].
Qed.

Lemma holds_heap_eq h h' root root' (t : bt nat) :
  holds h root t → holds h' root' t → root = root' ∧ h = h'.
Proof.
  intros (Hr & <- & Hp) (Hr' & <- & Hp'). split; [done|].
  assert (length h = length h') as Hlen.
  { pose proof (Permutation_length Hp) as H1.
    pose proof (Permutation_length Hp') as H2.
    rewrite length_seq in H1, H2. lia. }
  apply list_eq. intros i. destruct (decide (i < length h)) as [Hi|Hi].
  - apply (repr_lookup_eq h h' t None); [done|done|].
    rewrite Hp. apply elem_of_seq. lia.
  - rewrite !lookup_ge_None_2; [done|lia|lia].
Qed.

End RBRoundTrip.

(** X16.  In a heap that holds a well-formed tree (child and [parent]
    fields agree), a left rotation at a node [x] with right child [y]
    followed by a right rotation at [y] restores the root and every field of
    every node; neither call throws. *)
Theorem rb_rotations_undo_each_other h root cx x xc a xv y yc b yv d :
  RBSpec.holds h root
    (RBSpec.plug cx (RBSpec.T x xc a xv (RBSpec.T y yc b yv d))) →
  ∃ root1 h1,
    RedBlackTree.leftRotate root (Some x) h = RedBlackTree.Done (root1, h1)
    ∧ RedBlackTree.rightRotate root1 (Some y) h1 = RedBlackTree.Done (root, h).
Proof.
  intros HH.
  destruct (rb_leftRotate_holds h root cx x xc a xv y yc b yv d HH)
    as (h1 & Hl & HH1 & _).
  destruct (rb_rightRotate_holds h1 _ cx x xc a xv y yc b yv d HH1)
    as (h2 & Hr & HH2 & _).
  destruct (holds_heap_eq _ _ _ _ _ HH HH2) as [-> ->].
  eauto.
Qed.

Lemma rb_rotations_undo_each_other_witness :
  let h := [RedBlackTree.mkNode 1 None (Some 1%nat) None RedBlackTree.BLACK;
            RedBlackTree.mkNode 2 None None (Some 0%nat) RedBlackTree.RED] in
  ∃ root1 h1,
    RedBlackTree.leftRotate (Some 0%nat) (Some 0%nat) h
    = RedBlackTree.Done (root1, h1)
    ∧ RedBlackTree.rightRotate root1 (Some 1%nat) h1
      = RedBlackTree.Done (Some 0%nat, h).
Proof.
  apply (rb_rotations_undo_each_other _ (Some 0%nat) [] 0%nat RedBlackTree.BLACK
           RBSpec.E 1 1%nat RedBlackTree.RED RBSpec.E 2 RBSpec.E).
  repeat split; reflexivity.
Defined.

Section VisualizerFacts.
Import JS Playback PlaybackSpec VisualizerView.

Lemma playback_current_step {Snapshot} (s : list Snapshot)
    (es : list (event Snapshot)) :
  s ≠ [] → Forall (λ e, e = Tick ∨ e = TogglePause) es →
  ∃ x, currentStep (run (mount s) es) = Some x ∧ x ∈ s.
Proof.
  intros Hne Hes.
  destruct (playback_run_ticks es (mount s) Hes) as [Hs Hi]; [simpl; lia|].
  pose proof (playback_run_bounds es (mount s) ltac:(simpl; lia)) as Hb.
  unfold currentStep. rewrite Hs in *. simpl in *.
  destruct (Z.ltb_spec (currentStepIndex (run (mount s) es)) 0); [lia|].
  destruct (lookup_lt_is_Some_2 s
              (Z.to_nat (currentStepIndex (run (mount s) es)))) as [x Hx].
  { destruct s; [done|]. simpl in *. lia. }
  exists x. split; [done|]. by eapply list_elem_of_lookup_2.
Qed.

Lemma playback_shows_built {Snapshot} (s : list Snapshot)
    (es : list (event Snapshot)) :
  s ≠ [] → Forall (λ e, e = Tick ∨ e = TogglePause) es →
  showsBuilt (run (mount s) es) = true
  ↔ (length s - 1 ≤ ticksWhileRunning false es)%nat.
Proof.
  intros Hne Hes.
  destruct (playback_run_ticks es (mount s) Hes) as [Hs Hi]; [simpl; lia|].
  unfold showsBuilt. rewrite Hs, Hi. simpl.
  rewrite andb_true_iff, Z.eqb_eq, Z.ltb_lt.
  destruct s; [done|]. simpl length. lia.
Qed.

End VisualizerFacts.

(** X17.  While the trace recorded for a non-empty list of keys is played
    (ticks and presses of the pause button, no new trace), the tree
    visualizers always have a tree to draw, never the "Building ..." text,
    and the "Tree Built!" message is on exactly when at least
    [length - 1] ticks have arrived while the playback was not paused. *)
Theorem visualizer_always_draws_a_tree :
  (∀ values steps es,
     values ≠ [] →
     RedBlackTree.buildRedBlackTreeSteps values = RedBlackTree.Done steps →
     Forall (λ e, e = Playback.Tick ∨ e = Playback.TogglePause) es →
     let v := Playback.run (Playback.mount steps) es in
     VisualizerView.rbShowsDiagram v = true
     ∧ (VisualizerView.showsBuilt v = true
        ↔ (length values - 1 ≤ PlaybackSpec.ticksWhileRunning false es)%nat))
  ∧ (∀ values steps es,
       values ≠ [] →
       AVLTree.buildAVLTreeSteps values = Some steps →
       Forall (λ e, e = Playback.Tick ∨ e = Playback.TogglePause) es →
       let v := Playback.run (Playback.mount steps) es in
       VisualizerView.avlShowsDiagram v = true
       ∧ (VisualizerView.showsBuilt v = true
          ↔ (length values - 1 ≤ PlaybackSpec.ticksWhileRunning false es)%nat)).
Proof.
  split.
  - intros values steps es Hne Hrun Hes v.
    destruct (rb_build_spec values) as (steps' & Hrun' & Hlen & Hall).
    rewrite Hrun in Hrun'. injection Hrun' as <-.
    assert (steps ≠ []) as Hsne.
    { destruct steps; [|done]. by destruct values. }
    split; [|rewrite <- Hlen; by apply playback_shows_built].
    destruct (playback_current_step steps es Hsne Hes) as (j & Hj & Hin).
    unfold VisualizerView.rbShowsDiagram. fold v in Hj. rewrite Hj.
    apply list_elem_of_lookup in Hin as [k Hk].
    destruct (rb_step_keys values steps k j Hrun Hk) as [Hp _].
    destruct j as [| | |fields]; try done;
      apply Permutation_length in Hp; rewrite length_take in Hp;
      destruct values; simpl in *; try done; lia.
  - intros values steps es Hne Hrun Hes v.
    destruct (avl_trace_length values steps Hrun) as [Hlen _].
    assert (steps ≠ []) as Hsne.
    { destruct steps; [|done]. by destruct values. }
    split; [|rewrite <- Hlen; by apply playback_shows_built].
    destruct (playback_current_step steps es Hsne Hes) as (j & Hj & Hin).
    unfold VisualizerView.avlShowsDiagram. fold v in Hj. rewrite Hj.
    apply list_elem_of_lookup in Hin as [k Hk].
    destruct (avl_step_keys values steps k j Hrun Hk) as (_ & Hp & _).
    destruct (AVLTree.tree j) as [| | |fields]; try done;
      apply Permutation_length in Hp; rewrite length_take in Hp;
      destruct values; simpl in *; try done; lia.
Qed.

Lemma visualizer_always_draws_a_tree_witness :
  ∃ steps,
    RedBlackTree.buildRedBlackTreeSteps [2; 1] = RedBlackTree.Done steps
    ∧ VisualizerView.rbShowsDiagram
        (Playback.run (Playback.mount steps) [Playback.Tick]) = true.
Proof.
  eexists. split; [vm_compute; reflexivity|].
  eapply (proj1 visualizer_always_draws_a_tree [2; 1]);
    [done|vm_compute; reflexivity|repeat constructor; tauto].
Defined.

(** X18.  Once as many ticks have arrived, while the playback was not
    paused, as the input has inversions, the bubble sort visualizer shows
    the input in non-decreasing order together with the "Array Sorted!"
    message, and it keeps showing them. *)
Theorem bubbleSort_playback_ends_sorted (arr : list Z)
    (es : list (Playback.event (list Z))) :
  Forall (λ e, e = Playback.Tick ∨ e = Playback.TogglePause) es →
  (BubbleSortSpec.inversions arr ≤ PlaybackSpec.ticksWhileRunning false es)%nat →
  let v := Playback.run (Playback.mount (BubbleSort.bubbleSort arr)) es in
  ∃ sorted,
    VisualizerView.currentStep v = Some sorted
    ∧ StronglySorted Z.le sorted ∧ sorted ≡ₚ arr
    ∧ VisualizerView.showsSorted v = true.
Proof.
  intros Hes Hticks v.
  destruct (bubbleSort_chained arr) as (rest & sorted & Hs & Hlast & Hl & Hsorted).
  pose proof (bubbleSort_length arr) as Hlen.
  destruct (playback_run_ticks es (Playback.mount (BubbleSort.bubbleSort arr)) Hes)
    as [Hsteps Hi]; [simpl; lia|].
  fold v in Hsteps, Hi. simpl in Hsteps, Hi. rewrite Hlen in Hi.
  assert (Playback.currentStepIndex v
          = Z.of_nat (BubbleSortSpec.inversions arr)) as Hidx by lia.
  exists sorted. unfold VisualizerView.currentStep, VisualizerView.showsSorted.
  rewrite Hsteps, Hidx, Hlen.
  destruct (Z.ltb_spec (Z.of_nat (BubbleSortSpec.inversions arr)) 0); [lia|].
  rewrite Nat2Z.id. split.
  { rewrite <- Hs in Hlast. rewrite last_lookup, Hlen in Hlast. exact Hlast. }
  split; [done|]. split; [|apply Z.eqb_eq; lia].
  pose proof (linked_perm _ _ Hl) as Hall.
  assert (sorted ∈ arr :: rest) as Hin.
  { apply last_Some in Hlast as [l' ->]. set_solver. }
  apply elem_of_cons in Hin as [->|Hin]; [done|].
  by apply (proj1 (Forall_forall _ _) Hall).
Qed.

Lemma bubbleSort_playback_ends_sorted_witness :
  ∃ sorted,
    VisualizerView.currentStep
      (Playback.run (Playback.mount (BubbleSort.bubbleSort [30; 10; 20]))
         [Playback.Tick; Playback.Tick; Playback.Tick]) = Some sorted
    ∧ StronglySorted Z.le sorted ∧ sorted ≡ₚ [30; 10; 20]
    ∧ VisualizerView.showsSorted
        (Playback.run (Playback.mount (BubbleSort.bubbleSort [30; 10; 20]))
           [Playback.Tick; Playback.Tick; Playback.Tick]) = true.
Proof.
  apply (bubbleSort_playback_ends_sorted [30; 10; 20]
           [Playback.Tick; Playback.Tick; Playback.Tick]).
  - repeat constructor; tauto.
  - vm_compute. lia.
Defined.

(** ** AVL insertion of equal keys *)

Section AVLEqualKeys.
Import AVLTree AVLSpec AVLChain.

Lemma chain_getHeight n v : getHeight (chain n v) = Z.of_nat n.
Proof. by destruct n. Qed.

Lemma chain_realHeight n v : realHeight (chain n v) = Z.of_nat n.
Proof. induction n as [|n IH]; [done|]. cbn [chain realHeight]. rewrite IH. simpl realHeight. lia. Qed.

Lemma avl_insert_chain n v : avlInsert (chain n v) v = Some (chain (S n) v).
Proof.
  induction n as [|n IH]; [done|].
  cbn [chain avlInsert]. rewrite Z.ltb_irrefl, IH. cbn [mbind option_bind].
  rewrite avl_rebalance_eq. cbv zeta.
  rewrite (chain_getHeight (S n)). cbn [getHeight].
  destruct (Z.ltb_spec 1 (0 - Z.of_nat (S n))); [lia|].
  replace (1 + 0 `max` Z.of_nat (S n)) with (Z.of_nat (S (S n))) by lia.
  destruct (Z.ltb_spec (0 - Z.of_nat (S n)) (-1)); [|done].
  cbn [chain]. by rewrite Z.ltb_irrefl.
Qed.

Lemma avl_forEach_chain n v : ∀ k steps,
  ∃ steps', forEach (replicate n v) (chain k v) steps
            = Some (chain (k + n) v, steps').
Proof.
  induction n as [|n IH]; intros k steps.
  - exists steps. simpl. by rewrite Nat.add_0_r.
  - cbn [replicate forEach]. rewrite avl_insert_chain. cbn [mbind option_bind].
    destruct (IH (S k) (steps ++ [{| tree := toJSON (chain (S k) v); current := v |}]))
      as (steps' & ->).
    exists steps'. by rewrite Nat.add_succ_r.
Qed.

End AVLEqualKeys.

(** X19.  [n] copies of one key never make [avlInsert] rotate or throw: the
    tree is a chain to the right of height [n], out of balance at its root
    as soon as [n] is 3 or more. *)
Theorem avl_equal_keys_degenerate (n : nat) (v : Z) :
  ∃ t, AVLTree.insertAll (replicate n v) = Some t
       ∧ t = AVLChain.chain n v
       ∧ AVLSpec.realHeight t = Z.of_nat n
       ∧ AVLSpec.inorder t = replicate n v
       ∧ AVLSpec.balanced t = bool_decide (n ≤ 2)%nat.
Proof.
  destruct (avl_forEach_chain n v 0 []) as (steps & Hrun). simpl in Hrun.
  exists (AVLChain.chain n v). unfold AVLTree.insertAll. rewrite Hrun.
  split; [done|]. split; [done|]. split; [apply chain_realHeight|]. split.
  - clear Hrun. induction n as [|n IH]; [done|]. simpl. by rewrite IH.
  - clear Hrun. induction n as [|n IH]; [done|].
    cbn [AVLChain.chain AVLSpec.balanced]. rewrite IH, chain_realHeight.
    cbn [AVLSpec.realHeight].
    destruct n as [|[|[|n]]]; try done.
    rewrite (bool_decide_eq_false_2 (S (S (S (S n))) ≤ 2)%nat) by lia.
    rewrite (proj2 (Z.leb_gt _ _)); [done|]. lia.
Qed.

(** X20.  The AVL recorder run on the store of mutable objects and the
    recorder on immutable values agree: the first returns exactly when the
    second does (and throws when it throws, never running on for ever), one
    step per step, and what a step reaches in the final store, after all the
    insertions that followed it, is the tree that the JSON value of the
    corresponding step describes, with the same [current] key. *)
Theorem avl_store_recorder_agrees (values : list Z) :
  match AVLTree.buildAVLTreeSteps values with
  | Some trace =>
      ∃ steps store,
        AVLHeap.buildAVLTreeSteps values = RedBlackTree.Done (steps, store)
        ∧ Forall2 (λ step entry,
            AVLHeapSpec.shows store (AVLHeap.tree step)
            = Some (SnapshotSpec.avlOfJSON (AVLTree.tree entry))
            ∧ AVLHeap.current step = AVLTree.current entry) steps trace
  | None => AVLHeap.buildAVLTreeSteps values = RedBlackTree.TypeError
  end.
Proof.
  pose proof (heap_trace_agrees values) as H.
  unfold AVLTree.buildAVLTreeSteps, AVLHeap.buildAVLTreeSteps.
  destruct (AVLTree.forEach values AVLTree.Null []) as [[root trace]|];
    simpl; [|by rewrite H].
  destruct H as (live & copies & steps & store & -> & Hrec & _ & Hcs & Hcur).
  exists steps, store. split; [done|].
  apply Forall2_same_length_lookup. split.
  - rewrite <- (Forall2_length _ _ _ Hcs).
    destruct Hrec as (_ & _ & _ & Htree).
    by rewrite <- (length_fmap AVLHeap.tree), Htree, length_fmap.
  - intros i step entry Hi Hentry.
    destruct (recorded_step _ _ _ _ _ _ _ Hrec Hcs Hi)
      as (copy & entry' & He & Hcopy & _ & _ & _ & Hshow).
    rewrite Hentry in He. injection He as <-.
    split; [by rewrite Hshow, Hcopy, avlOfJSON_toJSON|].
    apply (f_equal (λ xs, xs !! i)) in Hcur.
    rewrite !list_lookup_fmap, Hi, Hentry in Hcur. by injection Hcur.
Qed.
